(** * Connection pools of chromadb/db/impl/sqlite_pool.py

    A shallow embedding of [Connection], [LockPool], [PerThreadPool] and
    [ReusableConnectionPool].  Every method is a program over atomic
    primitive actions (lock, queue, set, thread-local and native-connection
    operations), written in the order of the Python statements.  A program
    can be run sequentially ([run]) or interleaved with the programs of other
    threads ([step]).

    Modelling choices:
    - threads and [Connection] objects are identified by numbers; a new
      object gets the next free number, which is never used again;
    - the extra arguments [*args, **kwargs] of [connect], forwarded to
      [sqlite3.connect], are taken to be empty, and the engine accepts every
      statement;
    - [Connection._pool] and the methods [execute], [commit], [rollback] and
      [cursor], which no pool calls, are left out;
    - the loop of [ReusableConnectionPool.close] that empties the queue is
      one atomic action; every other statement of the pools is an action of
      its own. *)

From Stdlib Require Import ZArith String List Lia.
From stdpp Require Import gmap gmultiset list strings pretty functions.

#[local] Set Warnings "-clear-no-such-hyp".

Open Scope string_scope.
Open Scope list_scope.

(** ** Python values, exceptions and outcomes *)

(** Thread identity ([threading.get_ident()]) and object identity of a
    [Connection]. *)
Abbreviation tid := nat (only parsing).
Abbreviation conn_id := nat (only parsing).

(** The values that flow through the pool interface: [None] or a reference
    to a [Connection] object. *)
Inductive value :=
| VNone
| VConn (c : conn_id).

#[global] Instance value_eq_dec : EqDecision value.
Proof. solve_decision. Defined.

Inductive exn :=
| RuntimeError
| AttributeError.

#[global] Instance exn_eq_dec : EqDecision exn.
Proof. solve_decision. Defined.

(** Outcome of an action on a state of type [St]: a result, an exception
    (with the state at the raise), or a wait that is not over ([Block]). *)
Inductive result (St A : Type) :=
| Ok (a : A) (s : St)
| Raise (e : exn) (s : St)
| Block.
Arguments Ok {St A} a s.
Arguments Raise {St A} e s.
Arguments Block {St A}.

(** ** Atomic actions and programs *)

Definition M (St A : Type) := St -> result St A.

Definition m_ret {St A} (a : A) : M St A := fun s => Ok a s.

Definition m_bind {St A B} (m : M St A) (f : A -> M St B) : M St B :=
  fun s => match m s with
           | Ok a s' => f a s'
           | Raise e s' => Raise e s'
           | Block => Block
           end.

Definition m_raise {St A} (e : exn) : M St A := fun s => Raise e s.

(** [try: m except e: pass] *)
Definition try_except_pass {St} (m : M St unit) (e : exn) : M St unit :=
  fun s => match m s with
           | Raise e' s' => if decide (e' = e) then Ok tt s' else Raise e' s'
           | r => r
           end.

(** [with lock: m]: leaving the block on an exception also applies [unlock]. *)
Definition m_finally {St A} (m : M St A) (unlock : St -> St) : M St A :=
  fun s => match m s with
           | Raise e s' => Raise e (unlock s')
           | r => r
           end.

Definition m_modify {St} (f : St -> St) : M St unit := fun s => Ok tt (f s).

#[global] Instance M_ret {St} : MRet (M St) := @m_ret St.
#[global] Instance M_bind {St} : MBind (M St) := fun A B f m => m_bind m f.

(** A program: finished with a value, or one atomic action followed by the
    rest of the program. *)
Inductive prog (St A : Type) : Type :=
| Ret (a : A)
| Act {B : Type} (m : M St B) (k : B -> prog St A).
Arguments Ret {St A} a.
Arguments Act {St A B} m k.

Fixpoint p_bind {St A C} (p : prog St A) (f : A -> prog St C) : prog St C :=
  match p with
  | Ret a => f a
  | Act m k => Act m (fun b => p_bind (k b) f)
  end.

Definition atom {St A} (m : M St A) : prog St A := Act m Ret.

#[global] Instance prog_ret {St} : MRet (prog St) := @Ret St.
#[global] Instance prog_bind {St} : MBind (prog St) := fun A B f p => p_bind p f.

(** Sequential execution of a program. *)
Fixpoint run {St A} (p : prog St A) (s : St) : result St A :=
  match p with
  | Ret a => Ok a s
  | Act m k =>
      match m s with
      | Ok b s' => run (k b) s'
      | Raise e s' => Raise e s'
      | Block => Block
      end
  end.

(** The states a sequential execution goes through, one per atomic action. *)
Fixpoint run_states {St A} (p : prog St A) (s : St) : list St :=
  match p with
  | Ret _ => []
  | Act m k =>
      match m s with
      | Ok b s' => s' :: run_states (k b) s'
      | Raise e s' => [s']
      | Block => []
      end
  end.

(** One atomic step of a program: [None] when the program has finished. *)
Definition pstep {St A} (p : prog St A) (s : St) : option (result St (prog St A)) :=
  match p with
  | Ret _ => None
  | Act m k =>
      Some (match m s with
            | Ok b s' => Ok (k b) s'
            | Raise e s' => Raise e s'
            | Block => Block
            end)
  end.

(** ** Native connections and [Connection] *)

(** What is observed of a [sqlite3.Connection]: the arguments it was opened
    with, its isolation level, the statements executed on it (oldest first)
    and whether [close()] was called.  The engine is taken to accept every
    statement. *)
Record Connection := {
  conn_db_file : string;
  conn_uri : bool;
  conn_timeout : Z;
  conn_check_same_thread : bool;
  conn_isolation_level : option string;
  conn_executed : list string;
  conn_closed : bool
}.

(** The state of the program: every [Connection] object created so far (the
    object of identity [c] is at index [c]) and the pool object [self]. *)
Record state (P : Type) := {
  heap : list Connection;
  self : P
}.
Arguments heap {P} s.
Arguments self {P} s.

Definition with_heap {P} (f : list Connection -> list Connection) (s : state P) : state P :=
  {| heap := f (heap s); self := self s |}.

Definition with_self {P} (f : P -> P) (s : state P) : state P :=
  {| heap := heap s; self := f (self s) |}.

Section Connection.
Context {P : Type}.

(** [sqlite3.connect(db_file, timeout=1000, check_same_thread=False, uri=is_uri)] *)
Definition sqlite3_connect (db_file : string) (is_uri : bool) : M (state P) conn_id :=
  fun s =>
    Ok (length (heap s))
       (with_heap (fun h => h ++ [{| conn_db_file := db_file;
                                     conn_uri := is_uri;
                                     conn_timeout := 1000;
                                     conn_check_same_thread := false;
                                     conn_isolation_level := Some "DEFERRED";
                                     conn_executed := [];
                                     conn_closed := false |}]) s).

Definition conn_update (f : Connection -> Connection) (c : conn_id) : M (state P) unit :=
  m_modify (with_heap (alter f c)).

(** [self._conn.isolation_level = None] *)
Definition set_isolation_level (c : conn_id) (l : option string) : M (state P) unit :=
  conn_update (fun n => {| conn_db_file := conn_db_file n;
                           conn_uri := conn_uri n;
                           conn_timeout := conn_timeout n;
                           conn_check_same_thread := conn_check_same_thread n;
                           conn_isolation_level := l;
                           conn_executed := conn_executed n;
                           conn_closed := conn_closed n |}) c.

(** [self._conn.execute(sql)] *)
Definition conn_execute (c : conn_id) (sql : string) : M (state P) unit :=
  conn_update (fun n => {| conn_db_file := conn_db_file n;
                           conn_uri := conn_uri n;
                           conn_timeout := conn_timeout n;
                           conn_check_same_thread := conn_check_same_thread n;
                           conn_isolation_level := conn_isolation_level n;
                           conn_executed := conn_executed n ++ [sql];
                           conn_closed := conn_closed n |}) c.

Definition set_closed (n : Connection) : Connection :=
  {| conn_db_file := conn_db_file n;
     conn_uri := conn_uri n;
     conn_timeout := conn_timeout n;
     conn_check_same_thread := conn_check_same_thread n;
     conn_isolation_level := conn_isolation_level n;
     conn_executed := conn_executed n;
     conn_closed := true |}.

(** [Connection.close_actual]: [self._conn.close()].  Called on [None] it
    is an attribute error. *)
Definition close_actual (v : value) : M (state P) unit :=
  match v with
  | VConn c => conn_update set_closed c
  | VNone => m_raise AttributeError
  end.

Definition mmap_size : Z := 2048 * 1024 * 1024.

(** [Connection.__init__] *)
Definition Connection_init (db_file : string) (is_uri : bool) : prog (state P) conn_id :=
  c ← atom (sqlite3_connect db_file is_uri);
  atom (set_isolation_level c None);;
  atom (conn_execute c "PRAGMA cache_size = 2000000;");;
  atom (conn_execute c "PRAGMA temp_store = MEMORY;");;
  atom (conn_execute c "PRAGMA journal_mode = OFF;");;
  atom (conn_execute c ("PRAGMA mmap_size = " +:+ pretty mmap_size +:+ ";"));;
  atom (conn_execute c "PRAGMA synchronous = OFF;");;
  atom (conn_execute c "PRAGMA optimize;");;
  atom (conn_execute c "ANALYZE embedding_metadata;");;
  atom (conn_execute c "ANALYZE embeddings;");;
  Ret c.
End Connection.


(** [for x in xs: body(x)] *)
Fixpoint for_each {St A} (xs : list A) (body : A -> prog St unit) : prog St unit :=
  match xs with
  | [] => Ret tt
  | x :: xs' => body x;; for_each xs' body
  end.

(** ** [threading] and [queue] primitives *)

(** [threading.RLock]: free, or owned by a thread with a recursion count. *)
Definition RLock := option (tid * positive).

(** [acquire()]: [None] when the caller has to wait. *)
Definition rlock_acquire (th : tid) (l : RLock) : option RLock :=
  match l with
  | None => Some (Some (th, 1%positive))
  | Some (o, n) => if decide (o = th) then Some (Some (o, Pos.succ n)) else None
  end.

(** [release()]: [None] when the caller does not own the lock
    ([RuntimeError: cannot release un-acquired lock]). *)
Definition rlock_release (th : tid) (l : RLock) : option RLock :=
  match l with
  | None => None
  | Some (o, n) =>
      if decide (o = th)
      then Some (if decide (n = 1%positive) then None else Some (o, Pos.pred n))
      else None
  end.

(** [threading.Lock]: [true] when locked. *)
Definition Lock := bool.

(** [queue.Queue(maxsize)]: the items, oldest first; the queue is bounded
    only when [maxsize > 0]. *)
Record Queue := {
  q_items : list value;
  q_maxsize : Z
}.

Definition q_full (q : Queue) : bool :=
  bool_decide (0 < q_maxsize q)%Z && bool_decide (q_maxsize q <= Z.of_nat (length (q_items q)))%Z.

(** [put(item)]: [None] when the queue is full and the caller has to wait. *)
Definition q_put (v : value) (q : Queue) : option Queue :=
  if q_full q then None
  else Some {| q_items := q_items q ++ [v]; q_maxsize := q_maxsize q |}.

(** [get()]: [None] when the queue is empty and the caller has to wait. *)
Definition q_get (q : Queue) : option (value * Queue) :=
  match q_items q with
  | [] => None
  | v :: rest => Some (v, {| q_items := rest; q_maxsize := q_maxsize q |})
  end.

(** [empty()] *)
Definition q_empty (q : Queue) : bool :=
  match q_items q with
  | [] => true
  | _ => false
  end.

(** [x in s] for a set of [Connection] objects: [None] is in no such set. *)
Definition value_in (v : value) (s : gset conn_id) : bool :=
  match v with
  | VNone => false
  | VConn c => bool_decide (c ∈ s)
  end.

(** The attribute [conn] of a [threading.local], per thread; [hasattr(l,
    "conn") and l.conn is not None] holds for the thread when [cached] gives
    a connection. *)
Abbreviation thread_local := (gmap nat value) (only parsing).

Definition cached (th : tid) (l : thread_local) : option conn_id :=
  match l !! th with
  | Some (VConn c) => Some c
  | _ => None
  end.

(** [Connection(self, self._db_file, self._is_uri)] for a pool whose
    attributes are read by [file_of] and [uri_of]. *)
Definition new_Connection {P} (file_of : P -> string) (uri_of : P -> bool) : prog (state P) conn_id :=
  args ← atom (fun s => Ok (file_of (self s), uri_of (self s)) s);
  Connection_init args.1 args.2.

(** ** [LockPool] *)

Module LockPool.

Record t := {
  _connections : gset conn_id;
  _connection : thread_local;
  _lock : RLock;
  _db_file : string;
  _is_uri : bool
}.

Abbreviation St := (state t) (only parsing).

(** [__init__] only assigns the attributes. *)
Definition __init__ (db_file : string) (is_uri : bool) : St :=
  {| heap := [];
     self := {| _connections := ∅;
                _connection := ∅;
                _lock := None;
                _db_file := db_file;
                _is_uri := is_uri |} |}.

Definition set_connections (f : gset conn_id -> gset conn_id) (p : t) : t :=
  {| _connections := f (_connections p);
     _connection := _connection p;
     _lock := _lock p;
     _db_file := _db_file p;
     _is_uri := _is_uri p |}.

Definition set_connection (f : thread_local -> thread_local) (p : t) : t :=
  {| _connections := _connections p;
     _connection := f (_connection p);
     _lock := _lock p;
     _db_file := _db_file p;
     _is_uri := _is_uri p |}.

Definition set_lock (l : RLock) (p : t) : t :=
  {| _connections := _connections p;
     _connection := _connection p;
     _lock := l;
     _db_file := _db_file p;
     _is_uri := _is_uri p |}.

(** [self._lock.acquire()] *)
Definition lock_acquire (th : tid) : M St unit :=
  fun s => match rlock_acquire th (_lock (self s)) with
           | Some l => Ok tt (with_self (set_lock l) s)
           | None => Block
           end.

(** [self._lock.release()] *)
Definition lock_release (th : tid) : M St unit :=
  fun s => match rlock_release th (_lock (self s)) with
           | Some l => Ok tt (with_self (set_lock l) s)
           | None => Raise RuntimeError s
           end.

Definition connect (th : tid) : prog St value :=
  atom (lock_acquire th);;
  conn ← atom (fun s => Ok (cached th (_connection (self s))) s);
  match conn with
  | Some c => Ret (VConn c)
  | None =>
      new_connection ← new_Connection _db_file _is_uri;
      atom (m_modify (with_self (set_connection <[th := VConn new_connection]>)));;
      atom (m_modify (with_self (set_connections (fun cs => {[new_connection]} ∪ cs))));;
      Ret (VConn new_connection)
  end.

Definition return_to_pool (th : tid) (conn : value) : prog St value :=
  atom (try_except_pass (lock_release th) RuntimeError);;
  Ret VNone.

Definition close (th : tid) : prog St value :=
  conns ← atom (fun s => Ok (elements (_connections (self s))) s);
  for_each conns (fun conn => atom (close_actual (VConn conn)));;
  atom (m_modify (with_self (set_connections (fun _ => ∅))));;
  atom (m_modify (with_self (set_connection (fun _ => ∅))));;
  atom (try_except_pass (lock_release th) RuntimeError);;
  Ret VNone.

End LockPool.

(** ** [PerThreadPool] *)

Module PerThreadPool.

Record t := {
  _connections : gset conn_id;
  _lock : Lock;
  _connection : thread_local;
  _db_file : string;
  _is_uri : bool
}.

Abbreviation St := (state t) (only parsing).

(** [__init__] only assigns the attributes. *)
Definition __init__ (db_file : string) (is_uri : bool) : St :=
  {| heap := [];
     self := {| _connections := ∅;
                _lock := false;
                _connection := ∅;
                _db_file := db_file;
                _is_uri := is_uri |} |}.

Definition set_connections (f : gset conn_id -> gset conn_id) (p : t) : t :=
  {| _connections := f (_connections p);
     _lock := _lock p;
     _connection := _connection p;
     _db_file := _db_file p;
     _is_uri := _is_uri p |}.

Definition set_connection (f : thread_local -> thread_local) (p : t) : t :=
  {| _connections := _connections p;
     _lock := _lock p;
     _connection := f (_connection p);
     _db_file := _db_file p;
     _is_uri := _is_uri p |}.

Definition set_lock (l : Lock) (p : t) : t :=
  {| _connections := _connections p;
     _lock := l;
     _connection := _connection p;
     _db_file := _db_file p;
     _is_uri := _is_uri p |}.

(** Entering [with self._lock:] *)
Definition lock_acquire : M St unit :=
  fun s => if _lock (self s) then Block else Ok tt (with_self (set_lock true) s).

(** Leaving [with self._lock:] *)
Definition lock_release : M St unit :=
  fun s => if _lock (self s) then Ok tt (with_self (set_lock false) s)
           else Raise RuntimeError s.

Definition connect (th : tid) : prog St value :=
  conn ← atom (fun s => Ok (cached th (_connection (self s))) s);
  match conn with
  | Some c => Ret (VConn c)
  | None =>
      new_connection ← new_Connection _db_file _is_uri;
      atom (m_modify (with_self (set_connection <[th := VConn new_connection]>)));;
      atom lock_acquire;;
      atom (m_modify (with_self (set_connections (fun cs => {[new_connection]} ∪ cs))));;
      atom lock_release;;
      Ret (VConn new_connection)
  end.

Definition close (th : tid) : prog St value :=
  atom lock_acquire;;
  conns ← atom (fun s => Ok (elements (_connections (self s))) s);
  for_each conns (fun conn => atom (close_actual (VConn conn)));;
  atom (m_modify (with_self (set_connections (fun _ => ∅))));;
  atom (m_modify (with_self (set_connection (fun _ => ∅))));;
  atom lock_release;;
  Ret VNone.

Definition return_to_pool (th : tid) (conn : value) : prog St value :=
  Ret VNone.

End PerThreadPool.

(** ** [ReusableConnectionPool] *)

Module ReusableConnectionPool.

Record t := {
  _available_connections : Queue;
  _all_connections : gset conn_id;
  _lock : Lock;
  _db_file : string;
  _is_uri : bool;
  _max_connections : Z;
  _initialized : bool
}.

Abbreviation St := (state t) (only parsing).

Definition set_available_connections (q : Queue) (p : t) : t :=
  {| _available_connections := q;
     _all_connections := _all_connections p;
     _lock := _lock p;
     _db_file := _db_file p;
     _is_uri := _is_uri p;
     _max_connections := _max_connections p;
     _initialized := _initialized p |}.

Definition set_all_connections (f : gset conn_id -> gset conn_id) (p : t) : t :=
  {| _available_connections := _available_connections p;
     _all_connections := f (_all_connections p);
     _lock := _lock p;
     _db_file := _db_file p;
     _is_uri := _is_uri p;
     _max_connections := _max_connections p;
     _initialized := _initialized p |}.

Definition set_lock (l : Lock) (p : t) : t :=
  {| _available_connections := _available_connections p;
     _all_connections := _all_connections p;
     _lock := l;
     _db_file := _db_file p;
     _is_uri := _is_uri p;
     _max_connections := _max_connections p;
     _initialized := _initialized p |}.

Definition set_initialized (b : bool) (p : t) : t :=
  {| _available_connections := _available_connections p;
     _all_connections := _all_connections p;
     _lock := _lock p;
     _db_file := _db_file p;
     _is_uri := _is_uri p;
     _max_connections := _max_connections p;
     _initialized := b |}.

(** [self._available_connections.put(v)] *)
Definition queue_put (v : value) : M St unit :=
  fun s => match q_put v (_available_connections (self s)) with
           | Some q => Ok tt (with_self (set_available_connections q) s)
           | None => Block
           end.

(** [self._available_connections.get()] *)
Definition queue_get : M St value :=
  fun s => match q_get (_available_connections (self s)) with
           | Some (v, q) => Ok v (with_self (set_available_connections q) s)
           | None => Block
           end.

(** [self._initialized.wait()] *)
Definition initialized_wait : M St unit :=
  fun s => if _initialized (self s) then Ok tt s else Block.

(** Entering [with self._lock:] *)
Definition lock_acquire : M St unit :=
  fun s => if _lock (self s) then Block else Ok tt (with_self (set_lock true) s).

(** Leaving [with self._lock:] *)
Definition lock_release : M St unit :=
  fun s => if _lock (self s) then Ok tt (with_self (set_lock false) s)
           else Raise RuntimeError s.

Definition _create_new_connection : prog St value :=
  new_connection ← new_Connection _db_file _is_uri;
  atom (m_modify (with_self (set_all_connections (fun cs => {[new_connection]} ∪ cs))));;
  Ret (VConn new_connection).

(** The attribute assignments of [__init__], on the empty heap. *)
Definition attributes (db_file : string) (is_uri : bool) (max_connections : Z) : St :=
  {| heap := [];
     self := {| _available_connections := {| q_items := []; q_maxsize := max_connections |};
                _all_connections := ∅;
                _lock := false;
                _db_file := db_file;
                _is_uri := is_uri;
                _max_connections := max_connections;
                _initialized := false |} |}.

(** The rest of [__init__]: the pre-fill loop over [range(max_connections)]
    and [self._initialized.set()]. *)
Definition __init__ (max_connections : Z) : prog St value :=
  for_each (seq 0 (Z.to_nat max_connections))
    (fun _ => c ← _create_new_connection; atom (queue_put c));;
  atom (m_modify (with_self (set_initialized true)));;
  Ret VNone.

Definition connect (th : tid) : prog St value :=
  atom initialized_wait;;
  connection ← atom queue_get;
  match connection with
  | VNone => _create_new_connection
  | VConn _ => Ret connection
  end.

(** [while not q.empty(): conn = q.get(); conn.close_actual()], as one
    action on the items in the queue: one [get()] and one [close_actual()]
    per item, with no other thread in between. *)
Fixpoint drain (items : list value) : M St unit :=
  match items with
  | [] => m_ret tt
  | _ :: rest =>
      conn ← queue_get;
      close_actual conn;;
      drain rest
  end.

Definition close (th : tid) : prog St value :=
  atom lock_acquire;;
  atom (m_finally (fun s => drain (q_items (_available_connections (self s))) s)
                  (with_self (set_lock false)));;
  conns ← atom (fun s => Ok (elements (_all_connections (self s))) s);
  for_each conns (fun conn => atom (close_actual (VConn conn)));;
  atom (m_modify (with_self (set_all_connections (fun _ => ∅))));;
  atom lock_release;;
  Ret VNone.

Definition return_to_pool (th : tid) (conn : value) : prog St value :=
  known ← atom (fun s => Ok (value_in conn (_all_connections (self s))) s);
  if (known : bool) then atom (queue_put conn);; Ret VNone
  else Ret VNone.

End ReusableConnectionPool.

(** ** Calls, sequential histories and interleavings *)

(** A call of one of the three methods of the [Pool] interface. *)
Inductive call :=
| Connect
| ReturnToPool (conn : value)
| Close.

Inductive outcome :=
| Returned (v : value)
| Raised (e : exn).

(** A completed call: the thread, the call and how it ended. *)
Record event := Event {
  ev_thread : tid;
  ev_call : call;
  ev_outcome : outcome
}.

(** What a thread does in one step of an interleaved execution: enter a
    call, perform one atomic action, or leave the call. *)
Inductive label :=
| Invoke (th : tid) (c : call)
| Tau (th : tid)
| Finish (th : tid) (c : call) (o : outcome).

Definition LockPool_method (th : tid) (c : call) : prog LockPool.St value :=
  match c with
  | Connect => LockPool.connect th
  | ReturnToPool conn => LockPool.return_to_pool th conn
  | Close => LockPool.close th
  end.

Definition PerThreadPool_method (th : tid) (c : call) : prog PerThreadPool.St value :=
  match c with
  | Connect => PerThreadPool.connect th
  | ReturnToPool conn => PerThreadPool.return_to_pool th conn
  | Close => PerThreadPool.close th
  end.

Definition ReusableConnectionPool_method (th : tid) (c : call)
  : prog ReusableConnectionPool.St value :=
  match c with
  | Connect => ReusableConnectionPool.connect th
  | ReturnToPool conn => ReusableConnectionPool.return_to_pool th conn
  | Close => ReusableConnectionPool.close th
  end.

Section Executions.
Context {St : Type}.
Variable method : tid -> call -> prog St value.

(** Histories in which every call runs to its end before the next one
    starts (a call that has to wait is not in the history). *)
Inductive history (s0 : St) : list event -> St -> Prop :=
| history_nil : history s0 [] s0
| history_return tr s th c v s' :
    history s0 tr s ->
    run (method th c) s = Ok v s' ->
    history s0 (tr ++ [Event th c (Returned v)]) s'
| history_raise tr s th c e s' :
    history s0 tr s ->
    run (method th c) s = Raise e s' ->
    history s0 (tr ++ [Event th c (Raised e)]) s'.

(** Interleaved execution: the shared state and, for every thread inside
    a call, the call and what is left of its program. *)
Record config := Config {
  shared : St;
  running : tid -> option (call * prog St value)
}.

Inductive step : config -> label -> config -> Prop :=
| step_invoke cfg th c :
    running cfg th = None ->
    step cfg (Invoke th c)
         (Config (shared cfg) (<[th := Some (c, method th c)]> (running cfg)))
| step_act cfg th c p p' s' :
    running cfg th = Some (c, p) ->
    pstep p (shared cfg) = Some (Ok p' s') ->
    step cfg (Tau th) (Config s' (<[th := Some (c, p')]> (running cfg)))
| step_raise cfg th c p e s' :
    running cfg th = Some (c, p) ->
    pstep p (shared cfg) = Some (Raise e s') ->
    step cfg (Finish th c (Raised e)) (Config s' (<[th := None]> (running cfg)))
| step_return cfg th c v :
    running cfg th = Some (c, Ret v) ->
    step cfg (Finish th c (Returned v))
         (Config (shared cfg) (<[th := None]> (running cfg))).

Inductive exec (s0 : St) : list label -> config -> Prop :=
| exec_nil : exec s0 [] (Config s0 (fun _ => None))
| exec_step tr cfg l cfg' :
    exec s0 tr cfg ->
    step cfg l cfg' ->
    exec s0 (tr ++ [l]) cfg'.
End Executions.


(** The handles checked out after a trace, each as often as it is out: a
    handle is counted once for every [connect()] that returned it, and once
    less for every time it was passed to [return_to_pool()] while it was
    out. *)
Definition track (out : gmultiset conn_id) (l : label) : gmultiset conn_id :=
  match l with
  | Finish _ Connect (Returned (VConn c)) => {[+ c +]} ⊎ out
  | Invoke _ (ReturnToPool (VConn c)) => out ∖ {[+ c +]}
  | _ => out
  end.

Definition checked_out (tr : list label) : gmultiset conn_id := foldl track ∅ tr.

(** Callers return only what they have: whenever a handle is passed to
    [return_to_pool()], it is checked out at that moment ([None] may be
    passed at any time). *)
Definition returns_held (out : gmultiset conn_id) (l : label) : bool :=
  match l with
  | Invoke _ (ReturnToPool (VConn c)) => bool_decide (c ∈ out)
  | _ => true
  end.

Fixpoint returns_checked_out_from (out : gmultiset conn_id) (tr : list label) : bool :=
  match tr with
  | [] => true
  | l :: tr' => returns_held out l && returns_checked_out_from (track out l) tr'
  end.

Definition returns_checked_out (tr : list label) : bool :=
  returns_checked_out_from ∅ tr.

(** A [ReusableConnectionPool] as its constructor leaves it. *)
Definition ReusableConnectionPool_new (db_file : string) (is_uri : bool) (max_connections : Z)
  : result ReusableConnectionPool.St value :=
  run (ReusableConnectionPool.__init__ max_connections)
      (ReusableConnectionPool.attributes db_file is_uri max_connections).

(** The connection [Connection.__init__] leaves behind. *)
Definition open_time_configuration : list string :=
  [ "PRAGMA cache_size = 2000000;";
    "PRAGMA temp_store = MEMORY;";
    "PRAGMA journal_mode = OFF;";
    "PRAGMA mmap_size = 2147483648;";
    "PRAGMA synchronous = OFF;";
    "PRAGMA optimize;";
    "ANALYZE embedding_metadata;";
    "ANALYZE embeddings;" ].

Definition configured (db_file : string) (is_uri : bool) : Connection :=
  {| conn_db_file := db_file;
     conn_uri := is_uri;
     conn_timeout := 1000;
     conn_check_same_thread := false;
     conn_isolation_level := None;
     conn_executed := open_time_configuration;
     conn_closed := false |}.

(** Every connection created so far carries exactly the open-time
    configuration. *)
Definition all_configured {P} (s : state P) : Prop :=
  ∀ c n, heap s !! c = Some n → conn_executed n = open_time_configuration.

(** Every connection created so far is closed. *)
Definition all_closed {P} (s : state P) : Prop :=
  ∀ c n, heap s !! c = Some n → conn_closed n = true.

(** The heap after [close_actual] on each connection of [cs]. *)
Definition close_all (cs : list conn_id) (h : list Connection) : list Connection :=
  foldl (fun h c => alter set_closed c h) h cs.

(** The connections among the values of a queue. *)
Definition conn_ids (vs : list value) : list conn_id :=
  omap (fun v => match v with VConn c => Some c | VNone => None end) vs.

(** The state of [ReusableConnectionPool.__init__] after [i] rounds of the
    pre-fill loop. *)
Definition filled (db_file : string) (is_uri : bool) (max_connections : Z) (i : nat)
  : ReusableConnectionPool.St :=
  {| heap := replicate i (configured db_file is_uri);
     self := {| ReusableConnectionPool._available_connections :=
                  {| q_items := VConn <$> seq 0 i; q_maxsize := max_connections |};
                ReusableConnectionPool._all_connections := list_to_set (seq 0 i);
                ReusableConnectionPool._lock := false;
                ReusableConnectionPool._db_file := db_file;
                ReusableConnectionPool._is_uri := is_uri;
                ReusableConnectionPool._max_connections := max_connections;
                ReusableConnectionPool._initialized := false |} |}.

(** The pool [ReusableConnectionPool.__init__] leaves behind. *)
Definition ready (db_file : string) (is_uri : bool) (max_connections : Z)
  : ReusableConnectionPool.St :=
  with_self (ReusableConnectionPool.set_initialized true)
            (filled db_file is_uri max_connections (Z.to_nat max_connections)).

(** One round of the pre-fill loop of [ReusableConnectionPool.__init__]. *)
Definition prefill_round (_ : nat) : prog ReusableConnectionPool.St unit :=
  c ← ReusableConnectionPool._create_new_connection;
  atom (ReusableConnectionPool.queue_put c).

(** [safe I Q p]: started in a state of [I], and whatever other threads do
    between its actions as long as they keep [I], the program [p] keeps [I]
    at every action and, when it returns, returns a value of [Q]. *)
Fixpoint safe {St A} (I : St -> Prop) (Q : A -> Prop) (p : prog St A) : Prop :=
  match p with
  | Ret a => Q a
  | Act m k =>
      forall s, I s ->
                match m s with
                | Ok b s' => I s' /\ safe I Q (k b)
                | Raise e s' => I s'
                | Block => True
                end
  end.

(** The invariant of a [ReusableConnectionPool] whose constructor opened
    [n0] connections: the pool is initialized, no further connection was
    opened, the queue holds connections of the pool only (never [None]), and
    so does the registry. *)
Definition Reusable_inv (n0 : nat) (s : ReusableConnectionPool.St) : Prop :=
  ReusableConnectionPool._initialized (self s) = true
  ∧ length (heap s) = n0
  ∧ Forall (fun v => ∃ c, v = VConn c ∧ c < n0)
           (q_items (ReusableConnectionPool._available_connections (self s)))
  ∧ (∀ c, c ∈ ReusableConnectionPool._all_connections (self s) → c < n0)
  ∧ all_configured s.

(** What a call may return: [connect()] returns one of the [n0] connections
    of the constructor. *)
Definition handle_below (n0 : nat) (c : call) (v : value) : Prop :=
  match c with
  | Connect => ∃ h, v = VConn h ∧ h < n0
  | _ => True
  end.

(** Every connection created so far is in the registry [reg] or closed. *)
Definition registered_or_closed {P} (reg : gset conn_id) (s : state P) : Prop :=
  ∀ c n, heap s !! c = Some n → c ∈ reg ∨ conn_closed n = true.

(** Invariants of the states between the calls of a history. *)
Definition LockPool_inv (s : LockPool.St) : Prop :=
  all_configured s ∧ registered_or_closed (LockPool._connections (self s)) s.

Definition PerThreadPool_inv (s : PerThreadPool.St) : Prop :=
  PerThreadPool._lock (self s) = false
  ∧ all_configured s
  ∧ registered_or_closed (PerThreadPool._connections (self s)) s.

Definition Reusable_quiet_inv (n0 : nat) (s : ReusableConnectionPool.St) : Prop :=
  Reusable_inv n0 s
  ∧ ReusableConnectionPool._lock (self s) = false
  ∧ registered_or_closed (ReusableConnectionPool._all_connections (self s)) s.

(** The thread can take the re-entrant lock of the [LockPool] without
    waiting: the lock is free or the thread owns it. *)
Definition lock_available (th : tid) (s : LockPool.St) : Prop :=
  is_Some (rlock_acquire th (LockPool._lock (self s))).

(** The thread has a cached handle [c] from a [connect()] not yet released:
    it still owns the lock that [connect()] took. *)
Definition holds_unreleased (th : tid) (s : LockPool.St) (c : conn_id) : Prop :=
  cached th (LockPool._connection (self s)) = Some c
  ∧ ∃ n, LockPool._lock (self s) = Some (th, n).

(** [LockPool.connect] as the specification words it: the cached handle when
    the thread holds one it has not released, a new connection otherwise. *)
Definition LockPool_connect_as_stated (th : tid) (s : LockPool.St) : Prop :=
  (∀ c, holds_unreleased th s c →
        ∃ s', run (LockPool.connect th) s = Ok (VConn c) s' ∧ heap s' = heap s)
  ∧ ((∀ c, ¬ holds_unreleased th s c) →
     ∃ s', run (LockPool.connect th) s = Ok (VConn (length (heap s))) s'
           ∧ length (heap s') = S (length (heap s))
           ∧ cached th (LockPool._connection (self s')) = Some (length (heap s))
           ∧ length (heap s) ∈ LockPool._connections (self s')).

(** The queue takes two more items without making the caller wait. *)
Definition room_for_two (q : Queue) : Prop :=
  (q_maxsize q ≤ 0 ∨ Z.of_nat (length (q_items q)) + 2 ≤ q_maxsize q)%Z.

(** Returning a registered handle twice in a row as the specification words
    it: both calls return and the handle is in the queue twice more. *)
Definition double_return_as_stated (s : ReusableConnectionPool.St) (h : conn_id) : Prop :=
  h ∈ ReusableConnectionPool._all_connections (self s) →
  ∀ th, ∃ s1 s2,
    run (ReusableConnectionPool.return_to_pool th (VConn h)) s = Ok VNone s1
    ∧ run (ReusableConnectionPool.return_to_pool th (VConn h)) s1 = Ok VNone s2
    ∧ q_items (ReusableConnectionPool._available_connections (self s2))
      = q_items (ReusableConnectionPool._available_connections (self s))
        ++ [VConn h; VConn h].

(** A [LockPool] after thread 0 called [connect()], and after it then
    called [return_to_pool()]. *)
Definition LockPool_connected : LockPool.St :=
  {| heap := [configured "db" false];
     self := {| LockPool._connections := {[0]};
                LockPool._connection := {[0 := VConn 0]};
                LockPool._lock := Some (0, 1%positive);
                LockPool._db_file := "db";
                LockPool._is_uri := false |} |}.

Definition LockPool_released : LockPool.St :=
  with_self (LockPool.set_lock None) LockPool_connected.

(** A [ReusableConnectionPool] of capacity 2 after one [connect()] (handle 0
    is out, handle 1 in the queue), and after handle 0 was returned once. *)
Definition Reusable_one_out : ReusableConnectionPool.St :=
  with_self (ReusableConnectionPool.set_available_connections
               {| q_items := [VConn 1]; q_maxsize := 2 |})
            (ready "db" false 2).

Definition Reusable_one_back : ReusableConnectionPool.St :=
  with_self (ReusableConnectionPool.set_available_connections
               {| q_items := [VConn 1; VConn 0]; q_maxsize := 2 |})
            (ready "db" false 2).

(** In the history [tr], a [connect()] of thread [th] returned [v]. *)
Definition got (tr : list event) (th : tid) (v : value) : Prop :=
  Event th Connect (Returned v) ∈ tr.

(** Thread affinity of a [PerThreadPool] after the history [tr]: what
    [connect()] returned are connections that exist, the cached handle of a
    thread was given to no other thread and is cached for no other thread,
    and no connection was returned to two threads. *)
Definition PerThreadPool_affinity (tr : list event) (s : PerThreadPool.St) : Prop :=
  (∀ th v, got tr th v → ∃ c, v = VConn c ∧ c < length (heap s))
  ∧ (∀ th c, cached th (PerThreadPool._connection (self s)) = Some c →
             c < length (heap s))
  ∧ (∀ th th' c, cached th (PerThreadPool._connection (self s)) = Some c →
                 got tr th' (VConn c) → th' = th)
  ∧ (∀ th th' c, cached th (PerThreadPool._connection (self s)) = Some c →
                 cached th' (PerThreadPool._connection (self s)) = Some c → th = th')
  ∧ (∀ th th' c, got tr th (VConn c) → got tr th' (VConn c) → th = th').

(** An interleaving in which thread 0 calls [connect()] and is returned
    connection 0. *)
Definition Reusable_example_trace : list label :=
  [Invoke 0 Connect; Tau 0; Tau 0; Finish 0 Connect (Returned (VConn 0))].

(** A [ReusableConnectionPool] of capacity 2 with both handles out. *)
Definition Reusable_both_out : ReusableConnectionPool.St :=
  with_self (ReusableConnectionPool.set_available_connections
               {| q_items := []; q_maxsize := 2 |})
            (ready "db" false 2).

(** A [PerThreadPool] after thread 0 and then thread 1 called [connect()]. *)
Definition PerThreadPool_connected : PerThreadPool.St :=
  {| heap := [configured "db" false; configured "db" false];
     self := {| PerThreadPool._connections := {[1]} ∪ ({[0]} ∪ ∅);
                PerThreadPool._lock := false;
                PerThreadPool._connection := <[1 := VConn 1]> (<[0 := VConn 0]> ∅);
                PerThreadPool._db_file := "db";
                PerThreadPool._is_uri := false |} |}.

Definition PerThreadPool_example_history : list event :=
  [Event 0 Connect (Returned (VConn 0));
   Event 1 Connect (Returned (VConn 1));
   Event 0 Connect (Returned (VConn 0))].

(** [p] called for each thread of [ths] in turn, each call after the one
    before has returned: the values returned, in order. *)
Fixpoint run_each {St} (ths : list tid) (p : tid -> prog St value) (s : St)
  : result St (list value) :=
  match ths with
  | [] => Ok [] s
  | th :: ths' =>
      match run (p th) s with
      | Ok v s' =>
          match run_each ths' p s' with
          | Ok vs s'' => Ok (v :: vs) s''
          | Raise e s'' => Raise e s''
          | Block => Block
          end
      | Raise e s' => Raise e s'
      | Block => Block
      end
  end.

(** The number of [acquire()] of thread [th] that the re-entrant lock still
    counts. *)
Definition held (th : tid) (l : RLock) : nat :=
  match l with
  | Some (o, n) => if decide (o = th) then Pos.to_nat n else 0
  | None => 0
  end.

(** The registry [reg] holds exactly the connections that exist and are
    open, and every cached handle is in it. *)
Definition registry_exact {P} (reg : gset conn_id) (cache : thread_local) (s : state P)
  : Prop :=
  (∀ c, c ∈ reg ↔ ∃ n, heap s !! c = Some n ∧ conn_closed n = false)
  ∧ (∀ th c, cached th cache = Some c → c ∈ reg).

(** The lock is free or owned by [th]. *)
Definition free_or_mine (th : tid) (l : RLock) : Prop :=
  l = None ∨ ∃ k, l = Some (th, k).

(** The queue of a [ReusableConnectionPool] built with capacity [K] keeps
    its bound. *)
Definition Reusable_bounded (K : Z) (s : ReusableConnectionPool.St) : Prop :=
  q_maxsize (ReusableConnectionPool._available_connections (self s)) = K
  ∧ ((0 < K)%Z →
     (Z.of_nat (length (q_items (ReusableConnectionPool._available_connections (self s))))
      ≤ K)%Z).

(** Every connection in the queue is in the registry. *)
Definition queue_registered (s : ReusableConnectionPool.St) : Prop :=
  ∀ c, VConn c ∈ q_items (ReusableConnectionPool._available_connections (self s)) →
       c ∈ ReusableConnectionPool._all_connections (self s).

(** The states of a [ReusableConnectionPool] of capacity [K] between calls. *)
Definition Reusable_settled (K : Z) (s : ReusableConnectionPool.St) : Prop :=
  Reusable_quiet_inv (Z.to_nat K) s ∧ Reusable_bounded K s ∧ queue_registered s.

(** The registry of a [PerThreadPool] holds exactly the handles that are
    cached for some thread. *)
Definition registry_is_cache (s : PerThreadPool.St) : Prop :=
  ∀ c, c ∈ PerThreadPool._connections (self s)
       ↔ ∃ th, cached th (PerThreadPool._connection (self s)) = Some c.

(** ** The command line of chromadb/cli/cli.py *)

Module cli.

(** The escape and the newline characters of the Python literals. *)
Definition esc : string := String (Ascii.ascii_of_nat 27) "".
Definition nl : string := String (Ascii.ascii_of_nat 10) "".

Definition _logo : string :=
  nl
  +:+ "                " +:+ esc +:+ "[38;5;069m(((((((((    " +:+ esc +:+ "[38;5;203m(((((" +:+ esc +:+ "[38;5;220m####" +:+ nl
  +:+ "             " +:+ esc +:+ "[38;5;069m(((((((((((((" +:+ esc +:+ "[38;5;203m(((((((((" +:+ esc +:+ "[38;5;220m#########" +:+ nl
  +:+ "           " +:+ esc +:+ "[38;5;069m(((((((((((((" +:+ esc +:+ "[38;5;203m(((((((((((" +:+ esc +:+ "[38;5;220m###########" +:+ nl
  +:+ "         " +:+ esc +:+ "[38;5;069m((((((((((((((" +:+ esc +:+ "[38;5;203m((((((((((((" +:+ esc +:+ "[38;5;220m############" +:+ nl
  +:+ "        " +:+ esc +:+ "[38;5;069m(((((((((((((" +:+ esc +:+ "[38;5;203m((((((((((((((" +:+ esc +:+ "[38;5;220m#############" +:+ nl
  +:+ "        " +:+ esc +:+ "[38;5;069m(((((((((((((" +:+ esc +:+ "[38;5;203m((((((((((((((" +:+ esc +:+ "[38;5;220m#############" +:+ nl
  +:+ "         " +:+ esc +:+ "[38;5;069m((((((((((((" +:+ esc +:+ "[38;5;203m(((((((((((((" +:+ esc +:+ "[38;5;220m##############" +:+ nl
  +:+ "         " +:+ esc +:+ "[38;5;069m((((((((((((" +:+ esc +:+ "[38;5;203m((((((((((((" +:+ esc +:+ "[38;5;220m##############" +:+ nl
  +:+ "           " +:+ esc +:+ "[38;5;069m((((((((((" +:+ esc +:+ "[38;5;203m(((((((((((" +:+ esc +:+ "[38;5;220m#############" +:+ nl
  +:+ "             " +:+ esc +:+ "[38;5;069m((((((((" +:+ esc +:+ "[38;5;203m((((((((" +:+ esc +:+ "[38;5;220m##############" +:+ nl
  +:+ "                " +:+ esc +:+ "[38;5;069m(((((" +:+ esc +:+ "[38;5;203m((((    " +:+ esc +:+ "[38;5;220m#########" +:+ esc +:+ "[0m" +:+ nl
  +:+ nl
  +:+ "    ".

(** The arguments of [uvicorn.run]. *)
Record config := {
  app : string;
  host : option string;
  port : Z;
  workers : Z;
  log_config : string;
  timeout_keep_alive : Z
}.

(** What a command does to the outside, in order: text written by
    [print], [typer.echo] or [rich.print], a question of [typer.confirm], a
    task added to the progress display, [sqlite.vacuum()] on the [SqliteDB]
    of a [System] whose settings have [is_persistent] and
    [persist_directory] as given, [uvicorn.run], [webbrowser.open]. *)
Inductive event :=
| Print (text : string)
| Echo (text : string)
| RichPrint (text : string)
| Asked (text : string)
| TaskAdded (description : string)
| Vacuumed (is_persistent : bool) (persist_directory : string)
| ServerStarted (c : config)
| BrowserOpened (url : string).

(** The outside of a command: which paths exist, what the user answers to a
    question, the environment variables, and the events so far. *)
Record world := {
  path_exists : string -> bool;
  answer : string -> bool;
  environ : gmap string string;
  events : list event
}.

(** A command returns or leaves with [typer.Exit(code)]. *)
Inductive outcome (A : Type) :=
| Value (a : A)
| Exit (code : Z).
Arguments Value {A} a.
Arguments Exit {A} code.

Definition command (A : Type) := world -> outcome A * world.

#[global] Instance command_ret : MRet command := fun A a w => (Value a, w).
#[global] Instance command_bind : MBind command :=
  fun A B f m w =>
    match m w with
    | (Value a, w') => f a w'
    | (Exit code, w') => (Exit code, w')
    end.

Definition emit (e : event) : command unit :=
  fun w => (Value tt, {| path_exists := path_exists w;
                         answer := answer w;
                         environ := environ w;
                         events := events w ++ [e] |}).

(** [os.path.exists(path)] *)
Definition os_path_exists (path : string) : command bool :=
  fun w => (Value (path_exists w path), w).

(** [typer.confirm(text)] *)
Definition typer_confirm (text : string) : command bool :=
  fun w => (Value (answer w text),
            {| path_exists := path_exists w;
               answer := answer w;
               environ := environ w;
               events := events w ++ [Asked text] |}).

(** [raise typer.Exit(code=code)] *)
Definition typer_Exit {A} (code : Z) : command A := fun w => (Exit code, w).

(** [os.environ[key] = value] *)
Definition setenv (key value : string) : command unit :=
  fun w => (Value tt, {| path_exists := path_exists w;
                         answer := answer w;
                         environ := <[key := value]> (environ w);
                         events := events w |}).

(** [f"{x}"] for an optional string: [None] prints as its name. *)
Definition str_of_optional (x : option string) : string :=
  match x with
  | Some s => s
  | None => "None"
  end.

Section run.
(** [set_log_file_path] of [chromadb.cli.utils], and the directory above the
    one of the real path of this file, [os.path.dirname(os.path.dirname(
    os.path.realpath(__file__)))]. *)
Variable set_log_file_path : string -> string -> string.
Variable chromadb_path : string.

Definition run (path : string) (host : option string) (log_path : option string)
    (port : Z) (test : bool) : command unit :=
  emit (Print (esc +:+ "[1m"));;
  emit (Print _logo);;
  emit (Print (esc +:+ "[1m"));;
  emit (Print "Running Chroma");;
  emit (Print (esc +:+ "[0m"));;
  emit (Echo (esc +:+ "[1mSaving data to" +:+ esc +:+ "[0m: " +:+ esc +:+ "[32m"
              +:+ path +:+ esc +:+ "[0m"));;
  emit (Echo (esc +:+ "[1mConnect to chroma at" +:+ esc +:+ "[0m: " +:+ esc
              +:+ "[32mhttp://" +:+ str_of_optional host +:+ ":" +:+ pretty port
              +:+ esc +:+ "[0m"));;
  emit (Echo (esc +:+ "[1mGetting started guide" +:+ esc
              +:+ "[0m: https://docs.trychroma.com/getting-started" +:+ nl +:+ nl));;
  setenv "IS_PERSISTENT" "True";;
  setenv "PERSIST_DIRECTORY" path;;
  setenv "CHROMA_SERVER_NOFILE" "65535";;
  setenv "CHROMA_CLI" "True";;
  let log_config := set_log_file_path (chromadb_path +:+ "/log_config.yml")
                                      (str_of_optional log_path) in
  let config := {| app := "chromadb.app:app";
                   host := host;
                   port := port;
                   workers := 1;
                   log_config := log_config;
                   timeout_keep_alive := 30 |} in
  if test then mret tt
  else emit (ServerStarted config).
End run.

Definition vacuum_question : string :=
  "Are you sure you want to vacuum the database? This will block both reads and writes to the database, and may take a while.".

Definition vacuum (path : string) (force : bool) : command unit :=
  found ← os_path_exists path;
  if negb found then
    emit (RichPrint ("[bold red]Path " +:+ path +:+ " does not exist.[/bold red]"));;
    typer_Exit 1
  else
    declined ← (if negb force
                then confirmed ← typer_confirm vacuum_question; mret (negb confirmed)
                else mret false);
    if (declined : bool) then
      emit (RichPrint "Vacuum cancelled.");;
      typer_Exit 0
    else
      emit (TaskAdded "Vacuuming (this may take a while)...");;
      emit (Vacuumed true path);;
      emit (RichPrint ":soap: [bold]vacuum complete![/bold]").

Definition help : command unit :=
  emit (BrowserOpened "https://discord.gg/MMeYNTmh3x").

Definition docs : command unit :=
  emit (BrowserOpened "https://docs.trychroma.com").

End cli.

(** What [cli.run] writes before it starts the server. *)
Definition run_banner (path : string) (host : option string) (port : Z) : list cli.event :=
  [cli.Print (cli.esc +:+ "[1m");
   cli.Print cli._logo;
   cli.Print (cli.esc +:+ "[1m");
   cli.Print "Running Chroma";
   cli.Print (cli.esc +:+ "[0m");
   cli.Echo (cli.esc +:+ "[1mSaving data to" +:+ cli.esc +:+ "[0m: " +:+ cli.esc
             +:+ "[32m" +:+ path +:+ cli.esc +:+ "[0m");
   cli.Echo (cli.esc +:+ "[1mConnect to chroma at" +:+ cli.esc +:+ "[0m: " +:+ cli.esc
             +:+ "[32mhttp://" +:+ cli.str_of_optional host +:+ ":" +:+ pretty port
             +:+ cli.esc +:+ "[0m");
   cli.Echo (cli.esc +:+ "[1mGetting started guide" +:+ cli.esc
             +:+ "[0m: https://docs.trychroma.com/getting-started" +:+ cli.nl +:+ cli.nl)].

(** The number of handles in the queue of a [ReusableConnectionPool]. *)
Definition available (s : ReusableConnectionPool.St) : nat :=
  length (q_items (ReusableConnectionPool._available_connections (self s))).

(** A call that is passed a handle has it in hand when it starts. *)
Definition passed_in (c : call) : bool :=
  match c with
  | ReturnToPool (VConn _) => true
  | _ => false
  end.

(** A [connect()] that returns a handle has it in hand when it returns. *)
Definition hands_over (c : call) (b : bool) (v : value) : Prop :=
  match c, v with
  | Connect, VConn _ => b = true
  | _, _ => True
  end.

(** [carries I Q b p]: the rest [p] of a call has a handle in hand ([b]) or
    not; in every state of [I], an action of [p] that makes the queue longer
    by one gives the handle in hand to the queue, an action that takes one
    handle out of the queue has it in hand afterwards, and no action does
    more; [Q] relates what is in hand at the end to the value returned. *)
Fixpoint carries {A} (I : ReusableConnectionPool.St -> Prop) (Q : bool -> A -> Prop)
    (b : bool) (p : prog ReusableConnectionPool.St A) : Prop :=
  match p with
  | Ret a => Q b a
  | Act m k =>
      forall s, I s ->
                match m s with
                | Ok x s' =>
                    exists b' : bool,
                      available s' + Nat.b2n b' <= available s + Nat.b2n b
                      /\ carries I Q b' (k x)
                | Raise e s' => available s' <= available s + Nat.b2n b
                | Block => True
                end
  end.

(** The claim that at most [K] handles are checked out, for every
    interleaving and whatever the callers return. *)
Definition checked_out_bounded_as_stated : Prop :=
  ∀ db uri (K : Z) s0 tr cfg,
    (0 ≤ K)%Z →
    ReusableConnectionPool_new db uri K = Ok VNone s0 →
    exec ReusableConnectionPool_method s0 tr cfg →
    (Z.of_nat (size (checked_out tr)) ≤ K)%Z.

(** The steps of a call of thread [th] that takes two actions and
    returns [v]. *)
Definition call_labels (th : tid) (c : call) (v : value) : list label :=
  [Invoke th c; Tau th; Tau th; Finish th c (Returned v)].

(** Thread 0 takes a handle and returns it. *)
Definition Reusable_round_trip_trace : list label :=
  call_labels 0 Connect (VConn 0)
  ++ call_labels 0 (ReturnToPool (VConn 0)) VNone.

(** Capacity 2: threads 0 and 1 take the two handles, thread 0 returns its
    handle twice, and threads 2 and 3 are both handed it. *)
Definition Reusable_double_return_trace : list label :=
  call_labels 0 Connect (VConn 0)
  ++ call_labels 1 Connect (VConn 1)
  ++ call_labels 0 (ReturnToPool (VConn 0)) VNone
  ++ call_labels 0 (ReturnToPool (VConn 0)) VNone
  ++ call_labels 2 Connect (VConn 0)
  ++ call_labels 3 Connect (VConn 0).

(** The vacuums among the events of a command, with the settings of each,
    and the questions asked, in order. *)
Definition vacuums (evs : list cli.event) : list (bool * string) :=
  omap (fun e => match e with
                 | cli.Vacuumed is_persistent persist_directory =>
                     Some (is_persistent, persist_directory)
                 | _ => None
                 end) evs.

Definition questions (evs : list cli.event) : list string :=
  omap (fun e => match e with cli.Asked text => Some text | _ => None end) evs.

(** * Properties *)

(** ** Programs *)

Lemma run_bind {St A B} (p : prog St A) (f : A → prog St B) s :
  run (p ≫= f) s =
  match run p s with
  | Ok a s' => run (f a) s'
  | Raise e s' => Raise e s'
  | Block => Block
  end.
Proof.
  revert s. induction p as [a | C m k IH]; intros s; simpl; [done |].
  destruct (m s) as [b s' | e s' |]; [apply IH | done | done].
Qed.

Lemma run_states_bind {St A B} (p : prog St A) (f : A → prog St B) s :
  run_states (p ≫= f) s =
  run_states p s ++ match run p s with
                    | Ok a s' => run_states (f a) s'
                    | _ => []
                    end.
Proof.
  revert s. induction p as [a | C m k IH]; intros s; simpl; [done |].
  destruct (m s) as [b s' | e s' |]; simpl; [f_equal; apply IH | done | done].
Qed.

Lemma run_atom_bind {St A B} (m : M St A) (f : A → prog St B) s :
  run (atom m ≫= f) s =
  match m s with
  | Ok a s' => run (f a) s'
  | Raise e s' => Raise e s'
  | Block => Block
  end.
Proof. reflexivity. Qed.

(** ** [Connection] *)

Lemma alter_last {A} (f : A → A) (h : list A) (x : A) :
  alter f (length h) (h ++ [x]) = h ++ [f x].
Proof.
  replace (length h) with (length h + 0) by lia.
  by rewrite alter_app_r.
Qed.

Lemma mmap_size_statement :
  "PRAGMA mmap_size = " +:+ pretty mmap_size +:+ ";" = "PRAGMA mmap_size = 2147483648;".
Proof. vm_compute. reflexivity. Qed.

Lemma conn_update_last {P} (f : Connection → Connection) (h : list Connection) x (p : P) :
  conn_update f (length h) {| heap := h ++ [x]; self := p |}
  = Ok tt {| heap := h ++ [f x]; self := p |}.
Proof.
  unfold conn_update, m_modify, with_heap. cbn [heap self]. by rewrite alter_last.
Qed.

Lemma run_Connection_init {P B} db uri (k : conn_id → prog (state P) B) (s : state P) :
  run (Connection_init db uri ≫= k) s =
  run (k (length (heap s))) (with_heap (fun h => h ++ [configured db uri]) s).
Proof.
  destruct s as [h p]. unfold Connection_init. rewrite mmap_size_statement.
  cbn [mbind prog_bind p_bind atom run sqlite3_connect].
  unfold set_isolation_level, conn_execute, with_heap. cbn [heap self].
  repeat (rewrite conn_update_last; cbv beta iota;
          cbn [conn_db_file conn_uri conn_timeout conn_check_same_thread
               conn_isolation_level conn_executed conn_closed app]).
  reflexivity.
Qed.

Lemma run_new_Connection {P B} (fo : P → string) (uo : P → bool)
    (k : conn_id → prog (state P) B) (s : state P) :
  run (new_Connection fo uo ≫= k) s =
  run (k (length (heap s)))
      (with_heap (fun h => h ++ [configured (fo (self s)) (uo (self s))]) s).
Proof.
  unfold new_Connection.
  exact (run_Connection_init (fo (self s)) (uo (self s)) k s).
Qed.

Lemma run_for_each_close {P B} (cs : list conn_id) (k : unit → prog (state P) B) s :
  run (for_each cs (fun c => atom (close_actual (VConn c))) ≫= k) s =
  run (k tt) (with_heap (close_all cs) s).
Proof.
  revert s. induction cs as [| c cs IH]; intros [h p]; [done |].
  exact (IH {| heap := alter set_closed c h; self := p |}).
Qed.

Lemma close_all_length cs h : length (close_all cs h) = length h.
Proof.
  revert h. induction cs as [| c cs IH]; intros h; [done |].
  change (close_all (c :: cs) h) with (close_all cs (alter set_closed c h)).
  rewrite IH. apply length_alter.
Qed.

Lemma close_all_lookup cs h c :
  close_all cs h !! c =
  (if bool_decide (c ∈ cs) then set_closed else id) <$> (h !! c).
Proof.
  revert h. induction cs as [| c' cs IH]; intros h.
  - cbn. by destruct (h !! c).
  - change (close_all (c' :: cs) h) with (close_all cs (alter set_closed c' h)).
    rewrite IH. destruct (decide (c = c')) as [-> | Hne].
    + rewrite list_lookup_alter_eq.
      rewrite (bool_decide_eq_true_2 (c' ∈ c' :: cs)) by apply list_elem_of_here.
      destruct (h !! c') as [n |]; cbn; [| done].
      by destruct (bool_decide (c' ∈ cs)).
    + rewrite list_lookup_alter_ne by done.
      destruct (h !! c) as [n |]; cbn; [| done].
      rewrite (bool_decide_ext (c ∈ c' :: cs) (c ∈ cs)); [done |].
      rewrite elem_of_cons. naive_solver.
Qed.

Lemma close_all_closed cs h c n :
  close_all cs h !! c = Some n → c ∈ cs → conn_closed n = true.
Proof.
  rewrite close_all_lookup. intros H Hin.
  rewrite bool_decide_eq_true_2 in H by done.
  destruct (h !! c); simplify_eq/=. done.
Qed.

Lemma close_all_stays_closed cs h c n :
  close_all cs h !! c = Some n →
  ∃ n0, h !! c = Some n0 ∧ (conn_closed n0 = true → conn_closed n = true)
        ∧ conn_executed n = conn_executed n0.
Proof.
  rewrite close_all_lookup. intros H.
  destruct (h !! c) as [n0 |]; simplify_eq/=.
  exists n0. by destruct (bool_decide (c ∈ cs)).
Qed.

(** ** [LockPool] *)

Lemma LockPool_connect_run th (s : LockPool.St) :
  run (LockPool.connect th) s =
  match rlock_acquire th (LockPool._lock (self s)) with
  | None => Block
  | Some l =>
      match cached th (LockPool._connection (self s)) with
      | Some c => Ok (VConn c) (with_self (LockPool.set_lock l) s)
      | None =>
          Ok (VConn (length (heap s)))
             {| heap := heap s ++ [configured (LockPool._db_file (self s))
                                              (LockPool._is_uri (self s))];
                self := {| LockPool._connections :=
                             {[length (heap s)]} ∪ LockPool._connections (self s);
                           LockPool._connection :=
                             <[th := VConn (length (heap s))]>
                               (LockPool._connection (self s));
                           LockPool._lock := l;
                           LockPool._db_file := LockPool._db_file (self s);
                           LockPool._is_uri := LockPool._is_uri (self s) |} |}
      end
  end.
Proof.
  unfold LockPool.connect. rewrite run_atom_bind. unfold LockPool.lock_acquire.
  destruct (rlock_acquire th (LockPool._lock (self s))) as [l |]; [| done].
  rewrite run_atom_bind. cbn [with_self self LockPool.set_lock LockPool._connection].
  destruct (cached th (LockPool._connection (self s))) as [c |]; [done |].
  rewrite run_new_Connection. destruct s as [h p]. reflexivity.
Qed.

Lemma LockPool_return_to_pool_run th conn (s : LockPool.St) :
  run (LockPool.return_to_pool th conn) s =
  Ok VNone match rlock_release th (LockPool._lock (self s)) with
           | Some l => with_self (LockPool.set_lock l) s
           | None => s
           end.
Proof.
  unfold LockPool.return_to_pool. rewrite run_atom_bind.
  unfold try_except_pass, LockPool.lock_release.
  destruct (rlock_release th (LockPool._lock (self s))); reflexivity.
Qed.

Lemma LockPool_close_run th (s : LockPool.St) :
  run (LockPool.close th) s =
  Ok VNone
     {| heap := close_all (elements (LockPool._connections (self s))) (heap s);
        self := {| LockPool._connections := ∅;
                   LockPool._connection := ∅;
                   LockPool._lock :=
                     match rlock_release th (LockPool._lock (self s)) with
                     | Some l => l
                     | None => LockPool._lock (self s)
                     end;
                   LockPool._db_file := LockPool._db_file (self s);
                   LockPool._is_uri := LockPool._is_uri (self s) |} |}.
Proof.
  unfold LockPool.close. rewrite run_atom_bind.
  rewrite run_for_each_close. destruct s as [h p]. cbn.
  unfold try_except_pass, LockPool.lock_release. cbn.
  destruct (rlock_release th (LockPool._lock p)); reflexivity.
Qed.

(** ** [PerThreadPool] *)

Lemma PerThreadPool_connect_run th (s : PerThreadPool.St) :
  run (PerThreadPool.connect th) s =
  match cached th (PerThreadPool._connection (self s)) with
  | Some c => Ok (VConn c) s
  | None =>
      if PerThreadPool._lock (self s) then Block
      else
        Ok (VConn (length (heap s)))
           {| heap := heap s ++ [configured (PerThreadPool._db_file (self s))
                                            (PerThreadPool._is_uri (self s))];
              self := {| PerThreadPool._connections :=
                           {[length (heap s)]} ∪ PerThreadPool._connections (self s);
                         PerThreadPool._lock := false;
                         PerThreadPool._connection :=
                           <[th := VConn (length (heap s))]>
                             (PerThreadPool._connection (self s));
                         PerThreadPool._db_file := PerThreadPool._db_file (self s);
                         PerThreadPool._is_uri := PerThreadPool._is_uri (self s) |} |}
  end.
Proof.
  unfold PerThreadPool.connect. rewrite run_atom_bind.
  destruct (cached th (PerThreadPool._connection (self s))) as [c |]; [done |].
  rewrite run_new_Connection. destruct s as [h p]. cbn.
  unfold PerThreadPool.lock_acquire. cbn.
  destruct (PerThreadPool._lock p); reflexivity.
Qed.

Lemma PerThreadPool_close_run th (s : PerThreadPool.St) :
  run (PerThreadPool.close th) s =
  if PerThreadPool._lock (self s) then Block
  else
    Ok VNone
       {| heap := close_all (elements (PerThreadPool._connections (self s))) (heap s);
          self := {| PerThreadPool._connections := ∅;
                     PerThreadPool._lock := false;
                     PerThreadPool._connection := ∅;
                     PerThreadPool._db_file := PerThreadPool._db_file (self s);
                     PerThreadPool._is_uri := PerThreadPool._is_uri (self s) |} |}.
Proof.
  unfold PerThreadPool.close. rewrite run_atom_bind.
  unfold PerThreadPool.lock_acquire.
  destruct (PerThreadPool._lock (self s)) eqn:Hl; [done |].
  rewrite run_atom_bind. cbv beta iota.
  rewrite run_for_each_close. destruct s as [h p]. reflexivity.
Qed.

(** ** [ReusableConnectionPool] *)

Lemma Reusable_connect_run th (s : ReusableConnectionPool.St) :
  run (ReusableConnectionPool.connect th) s =
  if ReusableConnectionPool._initialized (self s) then
    match q_items (ReusableConnectionPool._available_connections (self s)) with
    | [] => Block
    | VConn c :: rest =>
        Ok (VConn c)
           (with_self (ReusableConnectionPool.set_available_connections
                         {| q_items := rest;
                            q_maxsize := q_maxsize (ReusableConnectionPool._available_connections (self s)) |}) s)
    | VNone :: rest =>
        run ReusableConnectionPool._create_new_connection
            (with_self (ReusableConnectionPool.set_available_connections
                         {| q_items := rest;
                            q_maxsize := q_maxsize (ReusableConnectionPool._available_connections (self s)) |}) s)
    end
  else Block.
Proof.
  unfold ReusableConnectionPool.connect. rewrite run_atom_bind.
  unfold ReusableConnectionPool.initialized_wait.
  destruct (ReusableConnectionPool._initialized (self s)); [| done].
  rewrite run_atom_bind. unfold ReusableConnectionPool.queue_get, q_get.
  destruct (q_items (ReusableConnectionPool._available_connections (self s)))
    as [| [| c] rest]; reflexivity.
Qed.

Lemma Reusable_return_to_pool_run th conn (s : ReusableConnectionPool.St) :
  run (ReusableConnectionPool.return_to_pool th conn) s =
  if value_in conn (ReusableConnectionPool._all_connections (self s)) then
    match q_put conn (ReusableConnectionPool._available_connections (self s)) with
    | Some q => Ok VNone (with_self (ReusableConnectionPool.set_available_connections q) s)
    | None => Block
    end
  else Ok VNone s.
Proof.
  unfold ReusableConnectionPool.return_to_pool. rewrite run_atom_bind.
  destruct (value_in conn (ReusableConnectionPool._all_connections (self s))); [| done].
  cbn. unfold ReusableConnectionPool.queue_put.
  destruct (q_put conn (ReusableConnectionPool._available_connections (self s))); reflexivity.
Qed.

Lemma Reusable_drain_run (items : list value) (s : ReusableConnectionPool.St) :
  q_items (ReusableConnectionPool._available_connections (self s)) = items →
  VNone ∉ items →
  ReusableConnectionPool.drain items s =
  Ok tt {| heap := close_all (conn_ids items) (heap s);
           self := ReusableConnectionPool.set_available_connections
                     {| q_items := [];
                        q_maxsize := q_maxsize (ReusableConnectionPool._available_connections (self s)) |}
                     (self s) |}.
Proof.
  revert s. induction items as [| v items IH]; intros [h p] Hq Hn.
  - cbn in *. destruct p as [[qi qm] ? ? ? ? ? ?]. cbn in *. by subst.
  - cbn in Hq. cbn [ReusableConnectionPool.drain].
    unfold mbind, M_bind, m_bind. unfold ReusableConnectionPool.queue_get at 1.
    unfold q_get. cbn [self]. rewrite Hq.
    destruct v as [| c]; [set_solver |].
    cbn. rewrite IH; [done | done | set_solver].
Qed.

Lemma Reusable_close_run th (s : ReusableConnectionPool.St) :
  VNone ∉ q_items (ReusableConnectionPool._available_connections (self s)) →
  run (ReusableConnectionPool.close th) s =
  if ReusableConnectionPool._lock (self s) then Block
  else
    Ok VNone
       {| heap := close_all (elements (ReusableConnectionPool._all_connections (self s)))
                    (close_all (conn_ids (q_items (ReusableConnectionPool._available_connections (self s))))
                               (heap s));
          self := {| ReusableConnectionPool._available_connections :=
                       {| q_items := [];
                          q_maxsize := q_maxsize (ReusableConnectionPool._available_connections (self s)) |};
                     ReusableConnectionPool._all_connections := ∅;
                     ReusableConnectionPool._lock := false;
                     ReusableConnectionPool._db_file := ReusableConnectionPool._db_file (self s);
                     ReusableConnectionPool._is_uri := ReusableConnectionPool._is_uri (self s);
                     ReusableConnectionPool._max_connections :=
                       ReusableConnectionPool._max_connections (self s);
                     ReusableConnectionPool._initialized :=
                       ReusableConnectionPool._initialized (self s) |} |}.
Proof.
  intros Hn. unfold ReusableConnectionPool.close. rewrite run_atom_bind.
  unfold ReusableConnectionPool.lock_acquire.
  destruct (ReusableConnectionPool._lock (self s)) eqn:Hl; [done |].
  rewrite run_atom_bind. unfold m_finally.
  rewrite Reusable_drain_run by (destruct s; done).
  rewrite run_atom_bind. cbn [self heap with_self].
  rewrite run_for_each_close. destruct s as [h p]. reflexivity.
Qed.

Lemma seq_0_S_set (i : nat) :
  {[i]} ∪ list_to_set (seq 0 i) =@{gset nat} list_to_set (seq 0 (S i)).
Proof.
  rewrite seq_S. rewrite list_to_set_app_L. cbn. set_solver.
Qed.

Lemma q_put_room (v : value) (q : Queue) :
  (q_maxsize q ≤ 0 ∨ Z.of_nat (length (q_items q)) < q_maxsize q)%Z →
  q_put v q = Some {| q_items := q_items q ++ [v]; q_maxsize := q_maxsize q |}.
Proof.
  intros Hroom. unfold q_put, q_full.
  destruct (bool_decide_reflect (0 < q_maxsize q)%Z); [| done].
  rewrite bool_decide_eq_false_2 by lia. done.
Qed.

Lemma run_bind_assoc {St A B C} (p : prog St A) (f : A → prog St B) (g : B → prog St C) s :
  run ((p ≫= f) ≫= g) s = run (p ≫= (fun a => f a ≫= g)) s.
Proof.
  rewrite !run_bind. destruct (run p s) as [a s' | e s' |]; [| done..].
  by rewrite run_bind.
Qed.

Lemma Reusable_create_run (s : ReusableConnectionPool.St) :
  run ReusableConnectionPool._create_new_connection s =
  Ok (VConn (length (heap s)))
     {| heap := heap s ++ [configured (ReusableConnectionPool._db_file (self s))
                                      (ReusableConnectionPool._is_uri (self s))];
        self := ReusableConnectionPool.set_all_connections
                  (fun cs => {[length (heap s)]} ∪ cs) (self s) |}.
Proof.
  unfold ReusableConnectionPool._create_new_connection.
  rewrite run_new_Connection. destruct s as [h p]. reflexivity.
Qed.

Lemma prefill_round_run {B} db uri K i x (k : unit → prog ReusableConnectionPool.St B) :
  (K ≤ 0 ∨ Z.of_nat i < K)%Z →
  run (prefill_round x ≫= k) (filled db uri K i) = run (k tt) (filled db uri K (S i)).
Proof.
  intros Hroom. unfold prefill_round.
  rewrite run_bind_assoc, run_bind, Reusable_create_run.
  rewrite run_atom_bind. unfold ReusableConnectionPool.queue_put.
  cbn [filled heap self ReusableConnectionPool.set_all_connections
       ReusableConnectionPool._available_connections
       ReusableConnectionPool._all_connections
       ReusableConnectionPool._db_file ReusableConnectionPool._is_uri
       ReusableConnectionPool._lock ReusableConnectionPool._max_connections
       ReusableConnectionPool._initialized].
  rewrite q_put_room.
  2:{ cbn [q_items q_maxsize]. rewrite length_fmap, length_seq. lia. }
  rewrite length_replicate. unfold filled, with_self.
  unfold ReusableConnectionPool.set_available_connections,
    ReusableConnectionPool.set_all_connections.
  cbn [self heap ReusableConnectionPool.set_available_connections
       ReusableConnectionPool._available_connections
       ReusableConnectionPool._all_connections
       ReusableConnectionPool._db_file ReusableConnectionPool._is_uri
       ReusableConnectionPool._lock ReusableConnectionPool._max_connections
       ReusableConnectionPool._initialized q_items q_maxsize].
  rewrite seq_0_S_set, <- replicate_S_end, seq_S, fmap_app. reflexivity.
Qed.

Lemma prefill_run {B} db uri K (m a i : nat) (k : unit → prog ReusableConnectionPool.St B) :
  (K ≤ 0 ∨ Z.of_nat (i + m) ≤ K)%Z →
  run (for_each (seq a m) prefill_round ≫= k) (filled db uri K i)
  = run (k tt) (filled db uri K (i + m)).
Proof.
  revert a i. induction m as [| m IH]; intros a i Hroom.
  - cbn. by rewrite Nat.add_0_r.
  - cbn [seq for_each]. rewrite run_bind_assoc.
    rewrite prefill_round_run by lia.
    rewrite IH by lia. by replace (S i + m) with (i + S m) by lia.
Qed.

Lemma Reusable_init_run db uri K :
  ReusableConnectionPool_new db uri K = Ok VNone (ready db uri K).
Proof.
  unfold ReusableConnectionPool_new, ReusableConnectionPool.__init__.
  change (ReusableConnectionPool.attributes db uri K) with (filled db uri K 0).
  change (run (for_each (seq 0 (Z.to_nat K)) prefill_round
               ≫= (fun _ => atom (m_modify (with_self (ReusableConnectionPool.set_initialized true)))
                             ≫= (fun _ => Ret VNone)))
              (filled db uri K 0) = Ok VNone (ready db uri K)).
  rewrite prefill_run by lia. reflexivity.
Qed.

(** ** Invariants of programs *)

Lemma safe_bind {St A B} (I : St → Prop) (Q' : A → Prop) (Q : B → Prop)
    (p : prog St A) (f : A → prog St B) :
  safe I Q' p → (∀ a, Q' a → safe I Q (f a)) → safe I Q (p ≫= f).
Proof.
  intros Hp Hf. induction p as [a | C m k IH]; cbn in *; [by apply Hf |].
  intros s Hs. specialize (Hp s Hs).
  destruct (m s) as [b s' | e s' |]; [| done | done].
  destruct Hp as [Hs' Hk]. split; [done |]. by apply IH.
Qed.

Lemma safe_atom {St A} (I : St → Prop) (Q : A → Prop) (m : M St A) :
  (∀ s, I s → match m s with
              | Ok b s' => I s' ∧ Q b
              | Raise e s' => I s'
              | Block => True
              end) →
  safe I Q (atom m).
Proof. intros H s Hs. specialize (H s Hs). by destruct (m s). Qed.

Lemma safe_for_each {St A} (I : St → Prop) (xs : list A) (body : A → prog St unit) :
  (∀ x, safe I (fun _ => True) (body x)) → safe I (fun _ => True) (for_each xs body).
Proof.
  intros Hb. induction xs as [| x xs IH]; cbn; [done |].
  apply (safe_bind I (fun _ => True)); [apply Hb | done].
Qed.

Lemma safe_run_states {St A} (I : St → Prop) (Q : A → Prop) (p : prog St A) s :
  safe I Q p → I s → Forall I (run_states p s).
Proof.
  revert s. induction p as [a | C m k IH]; intros s Hp Hs; cbn in *; [constructor |].
  specialize (Hp s Hs). destruct (m s) as [b s' | e s' |].
  - destruct Hp as [Hs' Hk]. constructor; [done |]. by apply IH.
  - by constructor.
  - constructor.
Qed.

(** [Connection.__init__] only touches the heap. *)
Lemma safe_Connection_init {P} (I : state P → Prop) db uri :
  (∀ f s, I s → I (with_heap f s)) →
  safe I (fun _ => True) (Connection_init (P:=P) db uri).
Proof.
  intros Hheap. unfold Connection_init. cbn -[pretty].
  intros s Hs. split; [by apply Hheap |].
  repeat (intros ? ?; split; [by apply Hheap |]). done.
Qed.

Lemma safe_new_Connection {P} (I : state P → Prop) fo uo :
  (∀ f s, I s → I (with_heap f s)) →
  safe I (fun _ => True) (new_Connection (P:=P) fo uo).
Proof.
  intros Hheap. unfold new_Connection.
  apply (safe_bind I (fun _ => True)).
  - by apply safe_atom.
  - intros. by apply safe_Connection_init.
Qed.

(** ** Interleavings of a [ReusableConnectionPool] *)

Lemma all_configured_close_all {P} cs (s : state P) :
  all_configured s → all_configured (with_heap (close_all cs) s).
Proof.
  intros H c n Hc. cbn in Hc.
  apply close_all_stays_closed in Hc as (n0 & Hn0 & _ & ->). eauto.
Qed.

Lemma Reusable_inv_close_all n0 cs s :
  Reusable_inv n0 s → Reusable_inv n0 (with_heap (close_all cs) s).
Proof.
  intros (Hi & Hl & Hq & Ha & Hc). repeat split; try done.
  - cbn. by rewrite close_all_length.
  - by apply all_configured_close_all.
Qed.

Lemma Reusable_inv_ready db uri K :
  Reusable_inv (Z.to_nat K) (ready db uri K).
Proof.
  repeat split.
  - cbn. by rewrite length_replicate.
  - cbn -[seq]. apply Forall_fmap, list.Forall_forall. intros c Hc.
    apply elem_of_seq in Hc. exists c. split; [done | lia].
  - cbn -[seq]. intros c Hc. apply elem_of_list_to_set, elem_of_seq in Hc. lia.
  - intros c n Hc. cbn in Hc. apply lookup_replicate in Hc as [-> _]. done.
Qed.

Lemma Reusable_connect_safe n0 th :
  safe (Reusable_inv n0) (handle_below n0 Connect) (ReusableConnectionPool.connect th).
Proof.
  unfold ReusableConnectionPool.connect. cbn.
  intros s Hs. unfold ReusableConnectionPool.initialized_wait.
  destruct Hs as (Hi & Hl & Hq & Ha & Hc). rewrite Hi.
  split; [done |]. intros s1 (Hi1 & Hl1 & Hq1 & Ha1 & Hc1).
  unfold ReusableConnectionPool.queue_get, q_get.
  destruct (q_items (ReusableConnectionPool._available_connections (self s1)))
    as [| v rest] eqn:Hitems; [done |].
  apply list.Forall_cons in Hq1 as [(c & -> & Hlt) Hrest].
  split; [| by exists c].
  repeat split; done.
Qed.

Lemma Reusable_return_to_pool_safe n0 th conn :
  safe (Reusable_inv n0) (handle_below n0 (ReturnToPool conn))
       (ReusableConnectionPool.return_to_pool th conn).
Proof.
  unfold ReusableConnectionPool.return_to_pool. cbn.
  intros s Hs. split; [done |].
  destruct (value_in conn (ReusableConnectionPool._all_connections (self s))) eqn:Hin;
    [| done].
  cbn. intros s1 (Hi1 & Hl1 & Hq1 & Ha1 & Hc1).
  unfold ReusableConnectionPool.queue_put, q_put.
  destruct (q_full _); [done |]. split; [| done].
  repeat split; try done. cbn.
  apply Forall_app. split; [done |]. apply Forall_singleton.
  destruct conn as [| c]; [done |].
  cbn in Hin. apply bool_decide_eq_true in Hin.
  destruct Hs as (_ & _ & _ & Ha & _). exists c. split; [done |]. by apply Ha.
Qed.

Lemma Reusable_inv_no_None n0 s :
  Reusable_inv n0 s →
  VNone ∉ q_items (ReusableConnectionPool._available_connections (self s)).
Proof.
  intros (_ & _ & Hq & _) Hin.
  rewrite list.Forall_forall in Hq. by destruct (Hq _ Hin) as (c & ? & _).
Qed.

Lemma Reusable_close_safe n0 th :
  safe (Reusable_inv n0) (handle_below n0 Close) (ReusableConnectionPool.close th).
Proof.
  unfold ReusableConnectionPool.close.
  apply (safe_bind _ (fun _ => True)).
  { apply safe_atom. intros s (Hi & Hl & Hq & Ha & Hc).
    unfold ReusableConnectionPool.lock_acquire.
    destruct (ReusableConnectionPool._lock (self s)); [done |]. repeat split; done. }
  intros _ _. apply (safe_bind _ (fun _ => True)).
  { apply safe_atom. intros s Hs. unfold m_finally.
    rewrite Reusable_drain_run; [| done | by eapply Reusable_inv_no_None].
    split; [| done].
    pose proof (Reusable_inv_close_all n0
      (conn_ids (q_items (ReusableConnectionPool._available_connections (self s)))) s Hs)
      as (Hi & Hl & Hq & Ha & Hc).
    repeat split; try done; cbn; constructor. }
  intros _ _. apply (safe_bind _ (fun _ => True)).
  { by apply safe_atom. }
  intros conns _. apply (safe_bind _ (fun _ => True)).
  { apply safe_for_each. intros c. apply safe_atom. intros s Hs. split; [| done].
    apply (Reusable_inv_close_all n0 [c] s Hs). }
  intros _ _. apply (safe_bind _ (fun _ => True)).
  { apply safe_atom. intros s (Hi & Hl & Hq & Ha & Hc). split; [| done].
    repeat split; try done; cbn; set_solver. }
  intros _ _. apply (safe_bind _ (fun _ => True)); [| done].
  apply safe_atom. intros s (Hi & Hl & Hq & Ha & Hc).
  unfold ReusableConnectionPool.lock_release.
  destruct (ReusableConnectionPool._lock (self s)); repeat split; done.
Qed.

Lemma Reusable_method_safe n0 th c :
  safe (Reusable_inv n0) (handle_below n0 c) (ReusableConnectionPool_method th c).
Proof.
  destruct c as [| conn |]; cbn [ReusableConnectionPool_method].
  - apply Reusable_connect_safe.
  - apply Reusable_return_to_pool_safe.
  - apply Reusable_close_safe.
Qed.

Lemma checked_out_snoc tr l : checked_out (tr ++ [l]) = track (checked_out tr) l.
Proof. unfold checked_out. by rewrite foldl_app. Qed.

Lemma pstep_Ok_inv {St A} (I : St → Prop) (Q : A → Prop) (p p' : prog St A) s s' :
  safe I Q p → I s → pstep p s = Some (Ok p' s') → I s' ∧ safe I Q p'.
Proof.
  intros Hp Hs Hstep. destruct p as [a | B m k]; [done |].
  cbn in Hp, Hstep. specialize (Hp s Hs).
  destruct (m s) as [b s1 | e s1 |]; simplify_eq. done.
Qed.

Lemma pstep_Raise_inv {St A} (I : St → Prop) (Q : A → Prop) (p : prog St A) s e s' :
  safe I Q p → I s → pstep p s = Some (Raise e s') → I s'.
Proof.
  intros Hp Hs Hstep. destruct p as [a | B m k]; [done |].
  cbn in Hp, Hstep. specialize (Hp s Hs).
  destruct (m s) as [b s1 | e1 s1 |]; simplify_eq. done.
Qed.

Lemma Reusable_exec_inv n0 s0 tr cfg :
  Reusable_inv n0 s0 →
  exec ReusableConnectionPool_method s0 tr cfg →
  Reusable_inv n0 (shared cfg)
  ∧ (∀ th c p, running cfg th = Some (c, p) →
               safe (Reusable_inv n0) (handle_below n0 c) p)
  ∧ (∀ h, h ∈ checked_out tr → h < n0).
Proof.
  intros H0 Hexec. induction Hexec as [| tr cfg l cfg' Hexec (IHs & IHr & IHo) Hstep].
  { repeat split; [apply H0.. | done | ]. intros h Hh. multiset_solver. }
  rewrite checked_out_snoc.
  destruct Hstep as [cfg th c Hidle | cfg th c p p' s' Hrun Hstep
                    | cfg th c p e s' Hrun Hstep | cfg th c v Hrun]; cbn [shared running].
  - split; [done |]. split.
    + intros th' c' p' Hl. destruct (decide (th = th')) as [-> | Hne].
      * rewrite fn_lookup_insert in Hl. simplify_eq. apply Reusable_method_safe.
      * rewrite fn_lookup_insert_ne in Hl by done. eauto.
    + intros h Hh. apply IHo. destruct c as [| [| c] |]; cbn [track] in Hh; multiset_solver.
  - destruct (pstep_Ok_inv _ _ _ _ _ _ (IHr _ _ _ Hrun) IHs Hstep) as [Hs' Hp'].
    split; [done |]. split; [| done].
    intros th' c' p'' Hl. destruct (decide (th = th')) as [-> | Hne].
    + rewrite fn_lookup_insert in Hl. by simplify_eq.
    + rewrite fn_lookup_insert_ne in Hl by done. eauto.
  - pose proof (pstep_Raise_inv _ _ _ _ _ _ (IHr _ _ _ Hrun) IHs Hstep) as Hs'.
    split; [done |]. split; [| intros h Hh; apply IHo; by destruct c].
    intros th' c' p'' Hl. destruct (decide (th = th')) as [-> | Hne].
    + by rewrite fn_lookup_insert in Hl.
    + rewrite fn_lookup_insert_ne in Hl by done. eauto.
  - split; [done |]. split.
    + intros th' c' p'' Hl. destruct (decide (th = th')) as [-> | Hne].
      * by rewrite fn_lookup_insert in Hl.
      * rewrite fn_lookup_insert_ne in Hl by done. eauto.
    + intros h Hh. pose proof (IHr _ _ _ Hrun) as Hq. cbn in Hq.
      destruct c as [| conn |]; cbn [track] in Hh; [| by apply IHo..].
      destruct Hq as (h' & -> & Hlt). cbn [track] in Hh.
      apply gmultiset_elem_of_disj_union in Hh as [Hh | Hh]; [| by apply IHo].
      apply gmultiset_elem_of_singleton in Hh. by subst.
Qed.

(** ** Handles checked out of a [ReusableConnectionPool] *)

Lemma returns_checked_out_from_snoc out tr l :
  returns_checked_out_from out (tr ++ [l])
  = returns_checked_out_from out tr && returns_held (foldl track out tr) l.
Proof.
  revert out. induction tr as [| l' tr IH]; intros out; cbn [app returns_checked_out_from foldl].
  - by rewrite andb_true_r.
  - by rewrite IH, andb_assoc.
Qed.

Lemma returns_checked_out_snoc tr l :
  returns_checked_out (tr ++ [l])
  = returns_checked_out tr && returns_held (checked_out tr) l.
Proof. apply returns_checked_out_from_snoc. Qed.

Lemma carries_bind {A B} (I : ReusableConnectionPool.St → Prop)
    (Q' : bool → A → Prop) (Q : bool → B → Prop) (b : bool)
    (p : prog ReusableConnectionPool.St A) (f : A → prog ReusableConnectionPool.St B) :
  carries I Q' b p → (∀ b' a, Q' b' a → carries I Q b' (f a)) → carries I Q b (p ≫= f).
Proof.
  intros Hp Hf. revert b Hp.
  induction p as [a | C m k IH]; intros b Hp; cbn in *; [by apply Hf |].
  intros s Hs. specialize (Hp s Hs).
  destruct (m s) as [x s' | e s' |]; [| done | done].
  destruct Hp as (b' & Hle & Hk). exists b'. split; [done |]. by apply IH.
Qed.

Lemma carries_atom {A} (I : ReusableConnectionPool.St → Prop) (Q : bool → A → Prop) (b : bool)
    (m : M ReusableConnectionPool.St A) :
  (∀ s, I s → match m s with
              | Ok x s' =>
                  ∃ b' : bool, (available s' + Nat.b2n b' ≤ available s + Nat.b2n b)%nat ∧ Q b' x
              | Raise e s' => (available s' ≤ available s + Nat.b2n b)%nat
              | Block => True
              end) →
  carries I Q b (atom m).
Proof. intros H s Hs. specialize (H s Hs). by destruct (m s). Qed.

(** An action that leaves the queue as long as it is. *)
Lemma carries_neutral {A} (I : ReusableConnectionPool.St → Prop) (b : bool)
    (m : M ReusableConnectionPool.St A) :
  (∀ s, I s → match m s with
              | Ok x s' => (available s' ≤ available s)%nat
              | Raise e s' => (available s' ≤ available s)%nat
              | Block => True
              end) →
  carries I (fun b' _ => b' = b) b (atom m).
Proof.
  intros H. apply carries_atom. intros s Hs. specialize (H s Hs).
  destruct (m s) as [x s' | e s' |]; [| lia | done].
  exists b. split; [lia | done].
Qed.

Lemma carries_for_each {A} (I : ReusableConnectionPool.St → Prop) (b : bool) (xs : list A)
    (body : A → prog ReusableConnectionPool.St unit) :
  (∀ x, carries I (fun b' _ => b' = b) b (body x)) →
  carries I (fun b' _ => b' = b) b (for_each xs body).
Proof.
  intros Hb. induction xs as [| x xs IH]; cbn [for_each]; [done |].
  apply (carries_bind I (fun b' _ => b' = b)); [apply Hb |].
  by intros b' _ ->.
Qed.

Lemma pstep_Ok_carries {A} (I : ReusableConnectionPool.St → Prop) (Q : bool → A → Prop) (b : bool)
    (p p' : prog ReusableConnectionPool.St A) s s' :
  carries I Q b p → I s → pstep p s = Some (Ok p' s') →
  ∃ b' : bool, (available s' + Nat.b2n b' ≤ available s + Nat.b2n b)%nat ∧ carries I Q b' p'.
Proof.
  intros Hp Hs Hstep. destruct p as [a | B m k]; [done |].
  cbn in Hp, Hstep. specialize (Hp s Hs).
  destruct (m s) as [x s1 | e s1 |]; simplify_eq. done.
Qed.

Lemma pstep_Raise_carries {A} (I : ReusableConnectionPool.St → Prop) (Q : bool → A → Prop) (b : bool)
    (p : prog ReusableConnectionPool.St A) s e s' :
  carries I Q b p → I s → pstep p s = Some (Raise e s') →
  (available s' ≤ available s + Nat.b2n b)%nat.
Proof.
  intros Hp Hs Hstep. destruct p as [a | B m k]; [done |].
  cbn in Hp, Hstep. specialize (Hp s Hs).
  destruct (m s) as [x s1 | e1 s1 |]; simplify_eq. done.
Qed.

Lemma Reusable_connect_carries n0 th :
  carries (Reusable_inv n0) (hands_over Connect) false (ReusableConnectionPool.connect th).
Proof.
  unfold ReusableConnectionPool.connect.
  apply (carries_bind _ (fun b' _ => b' = false)).
  { apply carries_neutral. intros s _. unfold ReusableConnectionPool.initialized_wait.
    by destruct (ReusableConnectionPool._initialized (self s)). }
  intros _ _ ->.
  apply (carries_bind _ (fun b' v => b' = true ∧ ∃ c, v = VConn c)).
  { apply carries_atom. intros s (_ & _ & Hq & _).
    unfold ReusableConnectionPool.queue_get, q_get, available.
    destruct (q_items (ReusableConnectionPool._available_connections (self s)))
      as [| v rest] eqn:Hitems; [done |].
    apply list.Forall_cons in Hq as [(c & -> & Hlt) Hrest].
    exists true. split; [cbn; lia |]. split; [done |]. by exists c. }
  intros b' v (-> & c & ->). done.
Qed.

Lemma Reusable_return_to_pool_carries n0 th conn :
  carries (Reusable_inv n0) (hands_over (ReturnToPool conn)) (passed_in (ReturnToPool conn))
          (ReusableConnectionPool.return_to_pool th conn).
Proof.
  unfold ReusableConnectionPool.return_to_pool.
  apply (carries_bind _ (fun b' (known : bool) =>
                           b' = passed_in (ReturnToPool conn)
                           ∧ (known = true → ∃ c, conn = VConn c))).
  { apply carries_atom. intros s _. exists (passed_in (ReturnToPool conn)).
    split; [lia |]. split; [done |]. intros Hin. destruct conn as [| c]; [done |]. by exists c. }
  intros b' known (-> & Hknown). destruct known; [| done].
  destruct (Hknown eq_refl) as [c ->]. cbn [passed_in].
  apply (carries_bind _ (fun _ _ => True)); [| done].
  apply carries_atom. intros s _.
  unfold ReusableConnectionPool.queue_put, q_put, available.
  destruct (q_full _); [done |].
  exists false. split; [| done]. cbn. rewrite length_app. cbn. lia.
Qed.

Lemma Reusable_close_carries n0 th :
  carries (Reusable_inv n0) (hands_over Close) false (ReusableConnectionPool.close th).
Proof.
  unfold ReusableConnectionPool.close.
  apply (carries_bind _ (fun b' _ => b' = false)).
  { apply carries_neutral. intros s _. unfold ReusableConnectionPool.lock_acquire.
    by destruct (ReusableConnectionPool._lock (self s)). }
  intros _ _ ->. apply (carries_bind _ (fun b' _ => b' = false)).
  { apply carries_neutral. intros s Hs. unfold m_finally.
    rewrite Reusable_drain_run; [| done | by eapply Reusable_inv_no_None].
    unfold available. cbn. lia. }
  intros _ _ ->. apply (carries_bind _ (fun b' _ => b' = false)).
  { by apply carries_neutral. }
  intros _ conns ->. apply (carries_bind _ (fun b' _ => b' = false)).
  { apply carries_for_each. intros c. apply carries_neutral. intros s _.
    unfold close_actual. cbn. done. }
  intros _ _ ->. apply (carries_bind _ (fun b' _ => b' = false)).
  { apply carries_neutral. intros s _. cbn. done. }
  intros _ _ ->. apply (carries_bind _ (fun b' _ => b' = false)); [| done].
  apply carries_neutral. intros s _. unfold ReusableConnectionPool.lock_release.
  by destruct (ReusableConnectionPool._lock (self s)).
Qed.

Lemma Reusable_method_carries n0 th c :
  carries (Reusable_inv n0) (hands_over c) (passed_in c) (ReusableConnectionPool_method th c).
Proof.
  destruct c as [| conn |]; cbn [ReusableConnectionPool_method].
  - apply Reusable_connect_carries.
  - apply Reusable_return_to_pool_carries.
  - apply Reusable_close_carries.
Qed.

Lemma size_insert_le (x : tid) (C : gset tid) : (size ({[x]} ∪ C) ≤ S (size C))%nat.
Proof.
  rewrite size_union_alt, size_singleton.
  pose proof (subseteq_size (C ∖ {[x]}) C ltac:(set_solver)). lia.
Qed.

Lemma size_delete_le (x : tid) (C : gset tid) : (size (C ∖ {[x]}) ≤ size C)%nat.
Proof. apply subseteq_size. set_solver. Qed.

Lemma size_delete_in (x : tid) (C : gset tid) : x ∈ C → S (size (C ∖ {[x]})) = size C.
Proof.
  intros Hx. rewrite size_difference by set_solver. rewrite size_singleton.
  assert (size C ≠ 0); [| lia].
  intros H0. apply size_empty_inv in H0. set_solver.
Qed.

(** The handles checked out, the handles in the queue and the handles in
    the hands of the calls under way are together no more than the queue
    held at the start. *)
Lemma Reusable_exec_carries n0 s0 tr cfg :
  Reusable_inv n0 s0 →
  exec ReusableConnectionPool_method s0 tr cfg →
  returns_checked_out tr = true →
  ∃ C : gset tid,
    (size (checked_out tr) + available (shared cfg) + size C ≤ available s0)%nat
    ∧ ∀ th c p, running cfg th = Some (c, p) →
                ∃ b : bool, (b = true → th ∈ C)
                            ∧ carries (Reusable_inv n0) (hands_over c) b p.
Proof.
  intros H0 Hexec. induction Hexec as [| tr cfg l cfg' Hexec IH Hstep]; intros Hret.
  { exists ∅. split; [| done]. unfold checked_out. cbn [foldl shared].
    rewrite gmultiset_size_empty, size_empty. lia. }
  rewrite returns_checked_out_snoc in Hret. apply andb_true_iff in Hret as [Hret Hl].
  destruct (IH Hret) as (C & Hsize & Hrun). clear IH.
  destruct (Reusable_exec_inv n0 _ _ _ H0 Hexec) as (Hinv & _ & _).
  rewrite checked_out_snoc.
  destruct Hstep as [cfg th c Hidle | cfg th c p p' s' Hth Hstep
                    | cfg th c p e s' Hth Hstep | cfg th c v Hth]; cbn [shared running].
  - (* a call starts *)
    exists (if passed_in c then {[th]} ∪ C else C ∖ {[th]}). split.
    + destruct c as [| [| h] |]; cbn [track passed_in returns_held] in *;
        try (pose proof (size_delete_le th C); lia).
      apply bool_decide_eq_true in Hl.
      rewrite gmultiset_size_difference
        by (by apply gmultiset_singleton_subseteq_l).
      rewrite gmultiset_size_singleton.
      assert (size (checked_out tr) ≠ 0).
      { intros Hz. apply gmultiset_size_empty_inv in Hz. multiset_solver. }
      pose proof (size_insert_le th C). lia.
    + intros th' c' p' Hl'. destruct (decide (th = th')) as [<- | Hne].
      * rewrite fn_lookup_insert in Hl'. injection Hl' as <- <-. exists (passed_in c). split.
        -- intros ->. set_solver.
        -- apply Reusable_method_carries.
      * rewrite fn_lookup_insert_ne in Hl' by done.
        destruct (Hrun _ _ _ Hl') as (b & Hb & Hp). exists b. split; [| done].
        intros Hb'. specialize (Hb Hb'). destruct (passed_in c); set_solver.
  - (* an action of a call *)
    destruct (Hrun _ _ _ Hth) as (b & Hb & Hp).
    destruct (pstep_Ok_carries _ _ _ _ _ _ _ Hp Hinv Hstep) as (b' & Hle & Hp').
    exists (if b' then {[th]} ∪ C else C ∖ {[th]}). split.
    + cbn [track]. destruct b, b'; cbn [Nat.b2n] in Hle.
      * replace ({[th]} ∪ C) with C by (specialize (Hb eq_refl); set_solver). lia.
      * pose proof (size_delete_in th C (Hb eq_refl)). lia.
      * pose proof (size_insert_le th C). lia.
      * pose proof (size_delete_le th C). lia.
    + intros th' c' p'' Hl'. destruct (decide (th = th')) as [<- | Hne].
      * rewrite fn_lookup_insert in Hl'. simplify_eq. exists b'. split; [| done].
        intros ->. set_solver.
      * rewrite fn_lookup_insert_ne in Hl' by done.
        destruct (Hrun _ _ _ Hl') as (b1 & Hb1 & Hp1). exists b1. split; [| done].
        intros Hb'. specialize (Hb1 Hb'). destruct b'; set_solver.
  - (* a call raises *)
    destruct (Hrun _ _ _ Hth) as (b & Hb & Hp).
    pose proof (pstep_Raise_carries _ _ _ _ _ _ _ Hp Hinv Hstep) as Hle.
    exists (C ∖ {[th]}). split.
    + assert (track (checked_out tr) (Finish th c (Raised e)) = checked_out tr) as ->
        by (by destruct c).
      destruct b; cbn [Nat.b2n] in Hle.
      * pose proof (size_delete_in th C (Hb eq_refl)). lia.
      * pose proof (size_delete_le th C). lia.
    + intros th' c' p'' Hl'. destruct (decide (th = th')) as [<- | Hne].
      * by rewrite fn_lookup_insert in Hl'.
      * rewrite fn_lookup_insert_ne in Hl' by done.
        destruct (Hrun _ _ _ Hl') as (b1 & Hb1 & Hp1). exists b1. split; [| done].
        intros Hb'. specialize (Hb1 Hb'). set_solver.
  - (* a call returns *)
    destruct (Hrun _ _ _ Hth) as (b & Hb & Hp). cbn [carries] in Hp.
    exists (C ∖ {[th]}). split.
    + destruct c as [| conn |]; cbn [track];
        try (pose proof (size_delete_le th C); lia).
      destruct v as [| h]; [pose proof (size_delete_le th C); lia |].
      cbn [hands_over] in Hp. subst b.
      rewrite gmultiset_size_disj_union, gmultiset_size_singleton.
      pose proof (size_delete_in th C (Hb eq_refl)). lia.
    + intros th' c' p'' Hl'. destruct (decide (th = th')) as [<- | Hne].
      * by rewrite fn_lookup_insert in Hl'.
      * rewrite fn_lookup_insert_ne in Hl' by done.
        destruct (Hrun _ _ _ Hl') as (b1 & Hb1 & Hp1). exists b1. split; [| done].
        intros Hb'. specialize (Hb1 Hb'). set_solver.
Qed.

Lemma available_ready db uri (K : Z) : available (ready db uri K) = Z.to_nat K.
Proof. unfold available. cbn. by rewrite length_fmap, length_seq. Qed.

(** A call of two actions, in a state with no call under way. *)
Lemma exec_call_labels {St} (method : tid → call → prog St value) s0 tr cfg th c p1 s1 v s2 :
  exec method s0 tr cfg →
  (∀ th', running cfg th' = None) →
  pstep (method th c) (shared cfg) = Some (Ok p1 s1) →
  pstep p1 s1 = Some (Ok (Ret v) s2) →
  ∃ cfg', exec method s0 (tr ++ call_labels th c v) cfg'
          ∧ shared cfg' = s2
          ∧ ∀ th', running cfg' th' = None.
Proof.
  intros Hexec Hidle H1 H2. unfold call_labels.
  change [Invoke th c; Tau th; Tau th; Finish th c (Returned v)]
    with ((([Invoke th c] ++ [Tau th]) ++ [Tau th]) ++ [Finish th c (Returned v)]).
  rewrite !app_assoc.
  eexists. split; [| split].
  - eapply exec_step.
    { eapply exec_step.
      { eapply exec_step.
        { eapply exec_step; [exact Hexec |]. apply step_invoke. apply Hidle. }
        eapply step_act; [apply fn_lookup_insert | exact H1]. }
      eapply step_act; [apply fn_lookup_insert | exact H2]. }
    eapply (step_return _ _ th c v). apply fn_lookup_insert.
  - reflexivity.
  - intros th'. cbn [running]. destruct (decide (th = th')) as [<- | Hne].
    + apply fn_lookup_insert.
    + rewrite !fn_lookup_insert_ne by done. apply Hidle.
Qed.

Lemma Reusable_round_trip_exec :
  ∃ cfg, exec ReusableConnectionPool_method (ready "db" false 2)
              Reusable_round_trip_trace cfg.
Proof.
  unfold Reusable_round_trip_trace.
  destruct (exec_call_labels ReusableConnectionPool_method (ready "db" false 2) [] _
              0 Connect _ _ (VConn 0) _ (exec_nil _ _) ltac:(done) eq_refl eq_refl)
    as (cfg1 & Hexec1 & Hs1 & Hidle1).
  destruct (exec_call_labels ReusableConnectionPool_method (ready "db" false 2) _ cfg1
              0 (ReturnToPool (VConn 0)) _ _ VNone _ Hexec1 Hidle1
              ltac:(rewrite Hs1; reflexivity) eq_refl)
    as (cfg2 & Hexec2 & Hs2 & Hidle2).
  exists cfg2. exact Hexec2.
Qed.

Lemma Reusable_double_return_exec :
  ∃ cfg, exec ReusableConnectionPool_method (ready "db" false 2)
              Reusable_double_return_trace cfg
         ∧ ∀ th, running cfg th = None.
Proof.
  unfold Reusable_double_return_trace.
  destruct (exec_call_labels ReusableConnectionPool_method (ready "db" false 2) [] _
              0 Connect _ _ (VConn 0) _ (exec_nil _ _) ltac:(done) eq_refl eq_refl)
    as (cfg1 & Hexec1 & Hs1 & Hidle1).
  destruct (exec_call_labels ReusableConnectionPool_method (ready "db" false 2) _ cfg1
              1 Connect _ _ (VConn 1) _ Hexec1 Hidle1
              ltac:(rewrite Hs1; reflexivity) eq_refl)
    as (cfg2 & Hexec2 & Hs2 & Hidle2).
  destruct (exec_call_labels ReusableConnectionPool_method (ready "db" false 2) _ cfg2
              0 (ReturnToPool (VConn 0)) _ _ VNone _ Hexec2 Hidle2
              ltac:(rewrite Hs2; reflexivity) eq_refl)
    as (cfg3 & Hexec3 & Hs3 & Hidle3).
  destruct (exec_call_labels ReusableConnectionPool_method (ready "db" false 2) _ cfg3
              0 (ReturnToPool (VConn 0)) _ _ VNone _ Hexec3 Hidle3
              ltac:(rewrite Hs3; reflexivity) eq_refl)
    as (cfg4 & Hexec4 & Hs4 & Hidle4).
  destruct (exec_call_labels ReusableConnectionPool_method (ready "db" false 2) _ cfg4
              2 Connect _ _ (VConn 0) _ Hexec4 Hidle4
              ltac:(rewrite Hs4; reflexivity) eq_refl)
    as (cfg5 & Hexec5 & Hs5 & Hidle5).
  destruct (exec_call_labels ReusableConnectionPool_method (ready "db" false 2) _ cfg5
              3 Connect _ _ (VConn 0) _ Hexec5 Hidle5
              ltac:(rewrite Hs5; reflexivity) eq_refl)
    as (cfg6 & Hexec6 & Hs6 & Hidle6).
  exists cfg6. split; [| exact Hidle6].
  rewrite <- !app_assoc in Hexec6. exact Hexec6.
Qed.

(** C1, counterexample: a pool of capacity 2 whose two handles are out;
    handle 0 is returned twice, both returns are put into the queue, and the
    next two [connect()] are both handed handle 0: three handles are checked
    out, handle 0 twice. *)
Lemma ReusableConnectionPool_double_return_exceeds_capacity :
  ReusableConnectionPool_new "db" false 2 = Ok VNone (ready "db" false 2)
  ∧ (∃ cfg, exec ReusableConnectionPool_method (ready "db" false 2)
                 Reusable_double_return_trace cfg
            ∧ ∀ th, running cfg th = None)
  ∧ size (checked_out Reusable_double_return_trace) = 3
  ∧ multiplicity 0 (checked_out Reusable_double_return_trace) = 2
  ∧ returns_checked_out Reusable_double_return_trace = false
  ∧ ¬ checked_out_bounded_as_stated.
Proof.
  assert (size (checked_out Reusable_double_return_trace) = 3) as Hsize.
  { vm_compute. reflexivity. }
  split; [apply Reusable_init_run |].
  split; [exact Reusable_double_return_exec |].
  split; [exact Hsize |].
  split; [vm_compute; reflexivity |].
  split; [vm_compute; reflexivity |].
  intros Hstated. destruct Reusable_double_return_exec as (cfg & Hexec & _).
  specialize (Hstated "db" false 2%Z _ _ _ ltac:(lia) (Reusable_init_run "db" false 2) Hexec).
  rewrite Hsize in Hstated. lia.
Qed.

(** C1, amended: in every interleaved execution of a
    [ReusableConnectionPool] built with capacity [K] in which callers pass to
    [return_to_pool()] only handles that are checked out at that moment, the
    handles checked out (one for each [connect()] that returned and whose
    handle was not passed to [return_to_pool()] since) and the handles in the
    queue are together at most [K], so at most [K] handles are checked out;
    and no connection beyond the [K] of the constructor is ever opened: the
    fallback of [connect()] does not run, since [get()] on the queue never
    yields [None]. *)
Theorem ReusableConnectionPool_checked_out_bounded db uri (K : Z) s0 tr cfg :
  (0 ≤ K)%Z →
  ReusableConnectionPool_new db uri K = Ok VNone s0 →
  exec ReusableConnectionPool_method s0 tr cfg →
  returns_checked_out tr = true →
  (Z.of_nat (size (checked_out tr)) + Z.of_nat (available (shared cfg)) ≤ K)%Z
  ∧ (Z.of_nat (size (checked_out tr)) ≤ K)%Z
  ∧ Z.of_nat (length (heap (shared cfg))) = K
  ∧ VNone ∉ q_items (ReusableConnectionPool._available_connections (self (shared cfg))).
Proof.
  intros HK Hnew Hexec Hret. rewrite Reusable_init_run in Hnew. simplify_eq.
  destruct (Reusable_exec_inv (Z.to_nat K) _ _ _ (Reusable_inv_ready db uri K) Hexec)
    as (Hinv & _ & _).
  destruct (Reusable_exec_carries (Z.to_nat K) _ _ _ (Reusable_inv_ready db uri K) Hexec Hret)
    as (C & Hsize & _).
  rewrite available_ready in Hsize.
  split; [lia |]. split; [lia |]. split.
  - destruct Hinv as (_ & Hl & _). lia.
  - by eapply Reusable_inv_no_None.
Qed.

(** ** Histories *)

Lemma history_inv {St} (method : tid → call → prog St value) (I : St → Prop) s0 tr s :
  I s0 →
  (∀ s th c v s', I s → run (method th c) s = Ok v s' → I s') →
  (∀ s th c e s', I s → run (method th c) s = Raise e s' → I s') →
  history method s0 tr s → I s.
Proof.
  intros H0 Hok Hraise Hh. induction Hh; eauto.
Qed.

Lemma all_configured_snoc {P} (h : list Connection) (p p' : P) db uri :
  all_configured {| heap := h; self := p |} →
  all_configured {| heap := h ++ [configured db uri]; self := p' |}.
Proof.
  intros H c n Hc. cbn in Hc. apply lookup_app_Some in Hc as [Hc | [_ Hc]].
  - by apply (H c n).
  - apply list_lookup_singleton_Some in Hc as [_ <-]. done.
Qed.

Lemma registered_or_closed_snoc {P} (h : list Connection) (p p' : P) reg x :
  registered_or_closed reg {| heap := h; self := p |} →
  registered_or_closed ({[length h]} ∪ reg) {| heap := h ++ [x]; self := p' |}.
Proof.
  intros H c n Hc. cbn in Hc. apply lookup_app_Some in Hc as [Hc | [Hge Hc]].
  - destruct (H c n Hc) as [? | ?]; [left; set_solver | by right].
  - apply list_lookup_singleton_Some in Hc as [Hlen <-].
    left. assert (c = length h) as -> by lia. set_solver.
Qed.

Lemma all_closed_after_close {P} (h : list Connection) (p p' : P) reg :
  registered_or_closed reg {| heap := h; self := p |} →
  all_closed {| heap := close_all (elements reg) h; self := p' |}.
Proof.
  intros H c n Hc. cbn in Hc.
  destruct (close_all_stays_closed _ _ _ _ Hc) as (n0 & Hn0 & Hkeep & _).
  destruct (H c n0 Hn0) as [Hin | Hcl]; [| by apply Hkeep].
  eapply close_all_closed; [done |]. by apply elem_of_elements.
Qed.

Lemma all_closed_registered {P} (s : state P) reg :
  all_closed s → registered_or_closed reg s.
Proof. intros H c n Hc. right. by apply (H c n). Qed.

Lemma LockPool_step_inv s th c v s' :
  LockPool_inv s → run (LockPool_method th c) s = Ok v s' → LockPool_inv s'.
Proof.
  intros [Hc Hr] Hrun. destruct s as [h p]. destruct c as [| conn |]; cbn [LockPool_method PerThreadPool_method ReusableConnectionPool_method] in Hrun.
  - rewrite LockPool_connect_run in Hrun. cbn in Hrun.
    destruct (rlock_acquire th (LockPool._lock p)) as [l |]; [| done].
    destruct (cached th (LockPool._connection p)) as [c |]; simplify_eq.
    + done.
    + split; [by eapply all_configured_snoc | by eapply registered_or_closed_snoc].
  - rewrite LockPool_return_to_pool_run in Hrun. cbn in Hrun.
    destruct (rlock_release th (LockPool._lock p)); by simplify_eq.
  - rewrite LockPool_close_run in Hrun. simplify_eq. cbn. split.
    + by apply (all_configured_close_all _ {| heap := h; self := p |}).
    + eapply all_closed_registered, all_closed_after_close. exact Hr.
Qed.

Lemma LockPool_no_raise th c s e s' : run (LockPool_method th c) s ≠ Raise e s'.
Proof.
  destruct c as [| conn |]; cbn [LockPool_method PerThreadPool_method ReusableConnectionPool_method].
  - rewrite LockPool_connect_run. by repeat case_match.
  - by rewrite LockPool_return_to_pool_run.
  - by rewrite LockPool_close_run.
Qed.

Lemma LockPool_history_inv db uri tr s :
  history LockPool_method (LockPool.__init__ db uri) tr s → LockPool_inv s.
Proof.
  apply (history_inv LockPool_method LockPool_inv).
  - split; intros c n Hc; done.
  - apply LockPool_step_inv.
  - intros s1 th c e s' _ Hrun. by apply LockPool_no_raise in Hrun.
Qed.

Lemma PerThreadPool_step_inv s th c v s' :
  PerThreadPool_inv s → run (PerThreadPool_method th c) s = Ok v s' → PerThreadPool_inv s'.
Proof.
  intros (Hl & Hc & Hr) Hrun. destruct s as [h p]. destruct c as [| conn |]; cbn [LockPool_method PerThreadPool_method ReusableConnectionPool_method] in Hrun.
  - rewrite PerThreadPool_connect_run in Hrun. cbn in Hrun, Hl. rewrite Hl in Hrun.
    destruct (cached th (PerThreadPool._connection p)) as [c |]; simplify_eq.
    + done.
    + split; [done |].
      split; [by eapply all_configured_snoc | by eapply registered_or_closed_snoc].
  - cbn in Hrun. by simplify_eq.
  - rewrite PerThreadPool_close_run in Hrun. cbn in Hrun, Hl. rewrite Hl in Hrun.
    simplify_eq. split; [done |]. split.
    + by apply (all_configured_close_all _ {| heap := h; self := p |}).
    + eapply all_closed_registered, all_closed_after_close. exact Hr.
Qed.

Lemma PerThreadPool_no_raise th c s e s' :
  PerThreadPool._lock (self s) = false → run (PerThreadPool_method th c) s ≠ Raise e s'.
Proof.
  intros Hl. destruct c as [| conn |]; cbn [LockPool_method PerThreadPool_method ReusableConnectionPool_method].
  - rewrite PerThreadPool_connect_run, Hl. by repeat case_match.
  - done.
  - by rewrite PerThreadPool_close_run, Hl.
Qed.

Lemma PerThreadPool_history_inv db uri tr s :
  history PerThreadPool_method (PerThreadPool.__init__ db uri) tr s → PerThreadPool_inv s.
Proof.
  apply (history_inv PerThreadPool_method PerThreadPool_inv).
  - repeat split; intros c n Hc; done.
  - apply PerThreadPool_step_inv.
  - intros s1 th c e s' (Hl & _) Hrun. by apply PerThreadPool_no_raise in Hrun.
Qed.

Lemma Reusable_step_inv n0 s th c v s' :
  Reusable_quiet_inv n0 s →
  run (ReusableConnectionPool_method th c) s = Ok v s' →
  Reusable_quiet_inv n0 s'.
Proof.
  intros (Hinv & Hl & Hr) Hrun. destruct c as [| conn |]; cbn [LockPool_method PerThreadPool_method ReusableConnectionPool_method] in Hrun.
  - rewrite Reusable_connect_run in Hrun.
    destruct Hinv as (Hi & Hlen & Hq & Ha & Hc). rewrite Hi in Hrun.
    destruct (q_items (ReusableConnectionPool._available_connections (self s)))
      as [| w rest] eqn:Hitems; [done |].
    apply list.Forall_cons in Hq as [(h & -> & Hlt) Hrest]. simplify_eq.
    repeat split; done.
  - rewrite Reusable_return_to_pool_run in Hrun.
    destruct (value_in conn (ReusableConnectionPool._all_connections (self s))) eqn:Hin;
      [| by simplify_eq].
    unfold q_put in Hrun. destruct (q_full _); [done |]. simplify_eq.
    destruct Hinv as (Hi & Hlen & Hq & Ha & Hc).
    repeat split; try done. cbn.
    apply Forall_app. split; [done |]. apply Forall_singleton.
    destruct conn as [| h]; [done |].
    cbn in Hin. apply bool_decide_eq_true in Hin. exists h. split; [done |]. by apply Ha.
  - rewrite Reusable_close_run in Hrun by (by eapply Reusable_inv_no_None).
    rewrite Hl in Hrun. simplify_eq.
    pose proof (Reusable_inv_close_all n0
      (conn_ids (q_items (ReusableConnectionPool._available_connections (self s)))) s Hinv)
      as Hinv1.
    pose proof (Reusable_inv_close_all n0
      (elements (ReusableConnectionPool._all_connections (self s))) _ Hinv1)
      as (Hi & Hlen & Hq & Ha & Hc).
    split; [| split; [done |]].
    + repeat split; try done; cbn; first [apply Forall_nil | set_solver].
    + eapply all_closed_registered.
      eapply (all_closed_after_close _ (self s)).
      intros c n Hcn. cbn in Hcn.
      destruct (close_all_stays_closed _ _ _ _ Hcn) as (n1 & Hn1 & Hkeep & _).
      destruct (Hr c n1 Hn1) as [? | ?]; [by left | right; by apply Hkeep].
Qed.

Lemma Reusable_no_raise n0 th c s e s' :
  Reusable_quiet_inv n0 s → run (ReusableConnectionPool_method th c) s ≠ Raise e s'.
Proof.
  intros (Hinv & Hl & Hr). destruct c as [| conn |]; cbn [LockPool_method PerThreadPool_method ReusableConnectionPool_method].
  - rewrite Reusable_connect_run.
    destruct Hinv as (Hi & Hlen & Hq & Ha & Hc). rewrite Hi.
    destruct (q_items (ReusableConnectionPool._available_connections (self s)))
      as [| w rest] eqn:Hitems; [done |].
    apply list.Forall_cons in Hq as [(h & -> & Hlt) Hrest]. done.
  - rewrite Reusable_return_to_pool_run. by repeat case_match.
  - rewrite Reusable_close_run by (by eapply Reusable_inv_no_None). by rewrite Hl.
Qed.

Lemma Reusable_quiet_inv_ready db uri K :
  Reusable_quiet_inv (Z.to_nat K) (ready db uri K).
Proof.
  split; [apply Reusable_inv_ready |]. split; [done |].
  intros c n Hc. left. cbn -[seq] in *.
  apply lookup_replicate in Hc as [_ Hlt].
  apply elem_of_list_to_set, elem_of_seq. lia.
Qed.

Lemma Reusable_history_inv db uri K tr s :
  history ReusableConnectionPool_method (ready db uri K) tr s →
  Reusable_quiet_inv (Z.to_nat K) s.
Proof.
  apply (history_inv ReusableConnectionPool_method (Reusable_quiet_inv (Z.to_nat K))).
  - apply Reusable_quiet_inv_ready.
  - apply Reusable_step_inv.
  - intros s1 th c e s' Hinv Hrun. by eapply Reusable_no_raise in Hrun.
Qed.

(** ** Construction of a [ReusableConnectionPool] *)

Lemma prefill_not_initialized K :
  safe (fun s : ReusableConnectionPool.St =>
          ReusableConnectionPool._initialized (self s) = false)
       (fun _ => True)
       (for_each (seq 0 (Z.to_nat K)) prefill_round).
Proof.
  apply safe_for_each. intros x. unfold prefill_round.
  apply (safe_bind _ (fun _ => True)).
  - unfold ReusableConnectionPool._create_new_connection.
    apply (safe_bind _ (fun _ => True)); [by apply safe_new_Connection |].
    intros c _. apply (safe_bind _ (fun _ => True)); [by apply safe_atom | done].
  - intros c _. apply safe_atom. intros s Hs.
    unfold ReusableConnectionPool.queue_put. by destruct (q_put _ _).
Qed.

Lemma prefill_alone_run db uri K :
  run (for_each (seq 0 (Z.to_nat K)) prefill_round) (filled db uri K 0)
  = Ok tt (filled db uri K (Z.to_nat K)).
Proof.
  assert (K ≤ 0 ∨ Z.of_nat (0 + Z.to_nat K) ≤ K)%Z as Hroom by lia.
  pose proof (prefill_run db uri K (Z.to_nat K) 0 0 (fun _ => Ret tt) Hroom) as H.
  rewrite run_bind in H.
  destruct (run _ _) as [[] s' | e s' |]; by simplify_eq/=.
Qed.

(** C5: the constructor of a [ReusableConnectionPool] of capacity [K] opens
    exactly [K] connections, puts all of them into the queue and into the
    registry, and sets the readiness flag after the fill only: no earlier
    state of the constructor has the flag set.  [connect()] first waits for
    the flag: with the flag unset its first action waits, with the flag set
    it passes without touching the state, and the queue is read after it. *)
Theorem ReusableConnectionPool_init_prefills db uri (K : Z) :
  (0 ≤ K)%Z →
  ∃ s,
    ReusableConnectionPool_new db uri K = Ok VNone s
    ∧ heap s = replicate (Z.to_nat K) (configured db uri)
    ∧ Z.of_nat (length (heap s)) = K
    ∧ q_items (ReusableConnectionPool._available_connections (self s))
      = VConn <$> seq 0 (Z.to_nat K)
    ∧ Z.of_nat (length (q_items (ReusableConnectionPool._available_connections (self s)))) = K
    ∧ ReusableConnectionPool._all_connections (self s) = list_to_set (seq 0 (Z.to_nat K))
    ∧ Z.of_nat (size (ReusableConnectionPool._all_connections (self s))) = K
    ∧ ReusableConnectionPool._initialized (self s) = true
    ∧ (∀ s', s' ∈ run_states (ReusableConnectionPool.__init__ K)
                             (ReusableConnectionPool.attributes db uri K) →
             ReusableConnectionPool._initialized (self s') = true → s' = s)
    ∧ (∀ s' th,
         match pstep (ReusableConnectionPool.connect th) s' with
         | Some (Ok _ s'') =>
             ReusableConnectionPool._initialized (self s') = true ∧ s'' = s'
         | Some Block =>
             ReusableConnectionPool._initialized (self s') = false
             ∧ run (ReusableConnectionPool.connect th) s' = Block
         | _ => False
         end).
Proof.
  intros HK. exists (ready db uri K). split; [apply Reusable_init_run |].
  split; [done |]. split; [cbn; rewrite length_replicate; lia |].
  split; [done |]. split; [cbn -[seq]; rewrite length_fmap, length_seq; lia |].
  split; [done |].
  split; [cbn -[seq]; rewrite size_list_to_set by apply NoDup_seq; rewrite length_seq; lia |].
  split; [done |]. split.
  - intros s' Hin Hset.
    change (ReusableConnectionPool.attributes db uri K) with (filled db uri K 0) in Hin.
    change (ReusableConnectionPool.__init__ K)
      with (for_each (seq 0 (Z.to_nat K)) prefill_round
            ≫= (fun _ => atom (m_modify (with_self (ReusableConnectionPool.set_initialized true)))
                          ≫= (fun _ => Ret VNone))) in Hin.
    rewrite run_states_bind, prefill_alone_run in Hin.
    apply elem_of_app in Hin as [Hin | Hin].
    + pose proof (safe_run_states _ _ _ (filled db uri K 0)
                    (prefill_not_initialized K) eq_refl) as Hall.
      rewrite list.Forall_forall in Hall. specialize (Hall _ Hin). congruence.
    + cbn in Hin. by apply list_elem_of_singleton in Hin.
  - intros s' th. rewrite Reusable_connect_run.
    unfold ReusableConnectionPool.connect. cbn [pstep mbind prog_bind p_bind atom].
    unfold ReusableConnectionPool.initialized_wait.
    by destruct (ReusableConnectionPool._initialized (self s')).
Qed.

(** ** Shutdown *)

Lemma LockPool_close_closes th (s : LockPool.St) :
  registered_or_closed (LockPool._connections (self s)) s →
  ∃ s1, run (LockPool.close th) s = Ok VNone s1
        ∧ all_closed s1 ∧ LockPool._connections (self s1) = ∅.
Proof.
  intros Hr. eexists. split; [apply LockPool_close_run |]. split; [| done].
  destruct s as [h p]. by eapply all_closed_after_close.
Qed.

Lemma PerThreadPool_close_closes th (s : PerThreadPool.St) :
  PerThreadPool._lock (self s) = false →
  registered_or_closed (PerThreadPool._connections (self s)) s →
  ∃ s1, run (PerThreadPool.close th) s = Ok VNone s1
        ∧ all_closed s1 ∧ PerThreadPool._connections (self s1) = ∅
        ∧ PerThreadPool._lock (self s1) = false.
Proof.
  intros Hl Hr. eexists. rewrite PerThreadPool_close_run, Hl.
  split; [done |]. split; [| done].
  destruct s as [h p]. by eapply all_closed_after_close.
Qed.

Lemma Reusable_close_closes n0 th (s : ReusableConnectionPool.St) :
  Reusable_quiet_inv n0 s →
  ∃ s1, run (ReusableConnectionPool.close th) s = Ok VNone s1
        ∧ all_closed s1 ∧ ReusableConnectionPool._all_connections (self s1) = ∅
        ∧ Reusable_quiet_inv n0 s1.
Proof.
  intros Hinv.
  destruct (run (ReusableConnectionPool.close th) s) as [v s1 | e s1 |] eqn:Hrun.
  - pose proof (Reusable_step_inv _ _ th Close _ _ Hinv Hrun) as Hinv1.
    destruct Hinv as (Hi & Hl & Hr).
    rewrite Reusable_close_run in Hrun by (by eapply Reusable_inv_no_None).
    rewrite Hl in Hrun. simplify_eq. eexists. split; [done |].
    split; [| done].
    eapply (all_closed_after_close _ (self s)).
    intros c n Hcn. cbn in Hcn.
    destruct (close_all_stays_closed _ _ _ _ Hcn) as (n1 & Hn1 & Hkeep & _).
    destruct (Hr c n1 Hn1) as [? | ?]; [by left | right; by apply Hkeep].
  - by eapply (Reusable_no_raise _ th Close) in Hrun.
  - destruct Hinv as (Hi & Hl & Hr).
    rewrite Reusable_close_run in Hrun by (by eapply Reusable_inv_no_None).
    by rewrite Hl in Hrun.
Qed.

(** C4: in every state between calls, for each of the three pools,
    [close()] returns, leaves every connection the pool ever created closed
    and the registry empty; a second [close()] returns too (it does not
    raise) and leaves things so. *)
Theorem close_closes_every_connection :
  (∀ db uri tr s th th',
     history LockPool_method (LockPool.__init__ db uri) tr s →
     ∃ s1 s2,
       run (LockPool.close th) s = Ok VNone s1
       ∧ all_closed s1 ∧ LockPool._connections (self s1) = ∅
       ∧ run (LockPool.close th') s1 = Ok VNone s2
       ∧ all_closed s2 ∧ LockPool._connections (self s2) = ∅)
  ∧ (∀ db uri tr s th th',
       history PerThreadPool_method (PerThreadPool.__init__ db uri) tr s →
       ∃ s1 s2,
         run (PerThreadPool.close th) s = Ok VNone s1
         ∧ all_closed s1 ∧ PerThreadPool._connections (self s1) = ∅
         ∧ run (PerThreadPool.close th') s1 = Ok VNone s2
         ∧ all_closed s2 ∧ PerThreadPool._connections (self s2) = ∅)
  ∧ (∀ db uri K s0 tr s th th',
       ReusableConnectionPool_new db uri K = Ok VNone s0 →
       history ReusableConnectionPool_method s0 tr s →
       ∃ s1 s2,
         run (ReusableConnectionPool.close th) s = Ok VNone s1
         ∧ all_closed s1 ∧ ReusableConnectionPool._all_connections (self s1) = ∅
         ∧ run (ReusableConnectionPool.close th') s1 = Ok VNone s2
         ∧ all_closed s2 ∧ ReusableConnectionPool._all_connections (self s2) = ∅).
Proof.
  split; [| split].
  - intros db uri tr s th th' Hh.
    pose proof (LockPool_history_inv _ _ _ _ Hh) as [_ Hr].
    destruct (LockPool_close_closes th s Hr) as (s1 & Hrun1 & Hcl1 & He1).
    destruct (LockPool_close_closes th' s1) as (s2 & Hrun2 & Hcl2 & He2);
      [by apply all_closed_registered |].
    by exists s1, s2.
  - intros db uri tr s th th' Hh.
    pose proof (PerThreadPool_history_inv _ _ _ _ Hh) as (Hl & _ & Hr).
    destruct (PerThreadPool_close_closes th s Hl Hr) as (s1 & Hrun1 & Hcl1 & He1 & Hl1).
    destruct (PerThreadPool_close_closes th' s1 Hl1) as (s2 & Hrun2 & Hcl2 & He2 & _);
      [by apply all_closed_registered |].
    by exists s1, s2.
  - intros db uri K s0 tr s th th' Hnew Hh.
    rewrite Reusable_init_run in Hnew. simplify_eq.
    pose proof (Reusable_history_inv _ _ _ _ _ Hh) as Hinv.
    destruct (Reusable_close_closes _ th s Hinv) as (s1 & Hrun1 & Hcl1 & He1 & Hinv1).
    destruct (Reusable_close_closes _ th' s1 Hinv1) as (s2 & Hrun2 & Hcl2 & He2 & _).
    by exists s1, s2.
Qed.

(** ** Open-time configuration *)

(** C8: [Connection.__init__] executes, in this order and nothing else, the
    cache size, temporary storage, journal, memory map (2048*1024*1024 = two
    gibibytes), synchronous, optimize and the two ANALYZE statements; every
    connection of every pool is created by it, so in every state between
    calls (for a [ReusableConnectionPool]: at every point of every
    interleaving) every connection carries exactly this configuration. *)
Theorem open_time_configuration_applied :
  (∀ P (s : state P) db uri,
     ∃ s' n,
       run (Connection_init db uri) s = Ok (length (heap s)) s'
       ∧ heap s' = heap s ++ [n]
       ∧ conn_executed n =
           [ "PRAGMA cache_size = 2000000;";
             "PRAGMA temp_store = MEMORY;";
             "PRAGMA journal_mode = OFF;";
             "PRAGMA mmap_size = 2147483648;";
             "PRAGMA synchronous = OFF;";
             "PRAGMA optimize;";
             "ANALYZE embedding_metadata;";
             "ANALYZE embeddings;" ])
  ∧ mmap_size = (2 * 2 ^ 30)%Z
  ∧ (∀ db uri tr s,
       history LockPool_method (LockPool.__init__ db uri) tr s → all_configured s)
  ∧ (∀ db uri tr s,
       history PerThreadPool_method (PerThreadPool.__init__ db uri) tr s →
       all_configured s)
  ∧ (∀ db uri K s0 tr cfg,
       ReusableConnectionPool_new db uri K = Ok VNone s0 →
       exec ReusableConnectionPool_method s0 tr cfg → all_configured (shared cfg)).
Proof.
  split; [| split; [done |]; split; [| split]].
  - intros P s db uri. eexists _, _.
    pose proof (run_Connection_init db uri Ret s) as H.
    rewrite run_bind in H.
    destruct (run (Connection_init db uri) s) as [c s1 | e s1 |]; cbn in H; simplify_eq.
    split; [done |]. split; [done |]. done.
  - intros db uri tr s Hh. by apply LockPool_history_inv in Hh as [? _].
  - intros db uri tr s Hh. by apply PerThreadPool_history_inv in Hh as (_ & ? & _).
  - intros db uri K s0 tr cfg Hnew Hexec.
    rewrite Reusable_init_run in Hnew. simplify_eq.
    destruct (Reusable_exec_inv (Z.to_nat K) _ _ _ (Reusable_inv_ready db uri K) Hexec)
      as ((_ & _ & _ & _ & Hc) & _). done.
Qed.

(** ** [LockPool.connect] *)

(** C2, counterexample: after [connect()] and [return_to_pool()] the thread
    holds no unreleased handle, yet the next [connect()] returns the cached
    connection again and opens nothing. *)
Lemma LockPool_connect_after_release_reuses :
  run (LockPool.connect 0) (LockPool.__init__ "db" false) = Ok (VConn 0) LockPool_connected
  ∧ run (LockPool.return_to_pool 0 (VConn 0)) LockPool_connected = Ok VNone LockPool_released
  ∧ (∀ c, ¬ holds_unreleased 0 LockPool_released c)
  ∧ run (LockPool.connect 0) LockPool_released = Ok (VConn 0) LockPool_connected
  ∧ ¬ LockPool_connect_as_stated 0 LockPool_released.
Proof.
  assert (∀ c, ¬ holds_unreleased 0 LockPool_released c) as Hno.
  { intros c [_ [n Hn]]. discriminate Hn. }
  split; [vm_compute; reflexivity |].
  split; [vm_compute; reflexivity |].
  split; [exact Hno |].
  split; [vm_compute; reflexivity |].
  intros [_ Hnew]. destruct (Hnew Hno) as (s' & Hrun & _).
  vm_compute in Hrun. discriminate Hrun.
Qed.

(** C2, amended: when [connect()] gets the lock, a thread with a cached
    handle (released or not) is returned that handle and nothing but the
    lock changes; a thread without one gets exactly one new connection,
    configured, cached for the thread and added to the registry. *)
Theorem LockPool_connect_cached_or_new th (s : LockPool.St) l :
  rlock_acquire th (LockPool._lock (self s)) = Some l →
  match cached th (LockPool._connection (self s)) with
  | Some c =>
      run (LockPool.connect th) s = Ok (VConn c) (with_self (LockPool.set_lock l) s)
  | None =>
      ∃ s',
        run (LockPool.connect th) s = Ok (VConn (length (heap s))) s'
        ∧ heap s' = heap s ++ [configured (LockPool._db_file (self s))
                                          (LockPool._is_uri (self s))]
        ∧ LockPool._connection (self s')
          = <[th := VConn (length (heap s))]> (LockPool._connection (self s))
        ∧ cached th (LockPool._connection (self s')) = Some (length (heap s))
        ∧ LockPool._connections (self s')
          = {[length (heap s)]} ∪ LockPool._connections (self s)
        ∧ LockPool._lock (self s') = l
  end.
Proof.
  intros Hl. rewrite LockPool_connect_run, Hl.
  destruct (cached th (LockPool._connection (self s))) as [c |]; [done |].
  eexists. split; [done |]. cbn. repeat split.
  unfold cached. by rewrite lookup_insert_eq.
Qed.

(** ** [LockPool.return_to_pool] *)

Lemma rlock_release_keeps_available th th' l l' :
  rlock_release th l = Some l' →
  is_Some (rlock_acquire th' l) → is_Some (rlock_acquire th' l').
Proof.
  unfold rlock_release, rlock_acquire. intros Hrel Hacq.
  destruct l as [[o n] |]; [| done].
  destruct (decide (o = th)) as [-> | ?]; [| done]. simplify_eq.
  destruct (decide (th = th')) as [-> | ?]; [| by destruct Hacq].
  destruct (decide (n = 1%positive)); [done |].
  by rewrite decide_True.
Qed.

Lemma LockPool_connect_returns th (s : LockPool.St) :
  lock_available th s → ∃ v s', run (LockPool.connect th) s = Ok v s'.
Proof.
  intros [l Hl]. rewrite LockPool_connect_run, Hl.
  destruct (cached th (LockPool._connection (self s))); eauto.
Qed.

(** C3: [return_to_pool()] of a [LockPool] always returns; when the caller
    does not own the lock (no matching [connect()]) the error of the lock
    is swallowed and nothing changes; a thread that could [connect()]
    before still can; and after [connect()], release, release, with the
    lock free at the start, every thread can [connect()]. *)
Theorem LockPool_release_tolerant th conn (s : LockPool.St) :
  ∃ s',
    run (LockPool.return_to_pool th conn) s = Ok VNone s'
    ∧ ((∀ n, LockPool._lock (self s) ≠ Some (th, n)) → s' = s)
    ∧ heap s' = heap s
    ∧ LockPool._connections (self s') = LockPool._connections (self s)
    ∧ LockPool._connection (self s') = LockPool._connection (self s)
    ∧ (∀ th', lock_available th' s →
              lock_available th' s'
              ∧ ∃ v s'', run (LockPool.connect th') s' = Ok v s'')
    ∧ (LockPool._lock (self s) = None →
       ∀ th', ∃ v s1 s2 v' s4,
         run (LockPool.connect th) s = Ok v s1
         ∧ run (LockPool.return_to_pool th v) s1 = Ok VNone s2
         ∧ run (LockPool.return_to_pool th v) s2 = Ok VNone s2
         ∧ LockPool._lock (self s2) = None
         ∧ run (LockPool.connect th') s2 = Ok v' s4).
Proof.
  eexists. split; [apply LockPool_return_to_pool_run |].
  assert (∀ th', lock_available th' s →
            lock_available th'
              match rlock_release th (LockPool._lock (self s)) with
              | Some l => with_self (LockPool.set_lock l) s
              | None => s
              end) as Hkeep.
  { intros th' Hav. destruct (rlock_release th (LockPool._lock (self s))) as [l |] eqn:Hrel;
      [| done].
    unfold lock_available in *. cbn. by eapply rlock_release_keeps_available. }
  split; [| split; [| split; [| split; [| split]]]].
  - intros Hnot. unfold rlock_release.
    destruct (LockPool._lock (self s)) as [[o n] |] eqn:Hlock; [| done].
    destruct (decide (o = th)) as [-> | ?]; [| done]. by destruct (Hnot n).
  - by destruct (rlock_release th (LockPool._lock (self s))).
  - by destruct (rlock_release th (LockPool._lock (self s))).
  - by destruct (rlock_release th (LockPool._lock (self s))).
  - intros th' Hav. split; [by apply Hkeep |].
    by apply LockPool_connect_returns, Hkeep.
  - intros Hfree th'.
    destruct (LockPool_connect_returns th s) as (v & s1 & Hrun1).
    { unfold lock_available. by rewrite Hfree. }
    assert (LockPool._lock (self s1) = Some (th, 1%positive)) as Hl1.
    { rewrite LockPool_connect_run, Hfree in Hrun1. cbn in Hrun1.
      destruct (cached th (LockPool._connection (self s))); by simplify_eq. }
    exists v, s1, (with_self (LockPool.set_lock None) s1).
    destruct (LockPool_connect_returns th' (with_self (LockPool.set_lock None) s1))
      as (v' & s4 & Hrun4); [by eexists |].
    exists v', s4. split; [done |].
    split; [rewrite LockPool_return_to_pool_run, Hl1; cbn; by rewrite decide_True |].
    split; [by rewrite LockPool_return_to_pool_run |]. done.
Qed.

(** ** [ReusableConnectionPool.return_to_pool] *)

(** C6: [return_to_pool()] of a handle that is not in the registry returns
    without an error and changes nothing: neither the queue nor the
    registry. *)
Theorem Reusable_return_unknown_dropped th conn (s : ReusableConnectionPool.St) :
  value_in conn (ReusableConnectionPool._all_connections (self s)) = false →
  run (ReusableConnectionPool.return_to_pool th conn) s = Ok VNone s.
Proof. intros Hin. by rewrite Reusable_return_to_pool_run, Hin. Qed.


(** C9, counterexample: a pool of capacity 2 with one handle checked out;
    the first [return_to_pool()] of that handle fills the queue and the
    second one waits on the full queue: the handle is not enqueued twice. *)
Lemma Reusable_second_return_blocks :
  ReusableConnectionPool_new "db" false 2 = Ok VNone (ready "db" false 2)
  ∧ run (ReusableConnectionPool.connect 0) (ready "db" false 2)
    = Ok (VConn 0) Reusable_one_out
  ∧ 0 ∈ ReusableConnectionPool._all_connections (self Reusable_one_out)
  ∧ run (ReusableConnectionPool.return_to_pool 0 (VConn 0)) Reusable_one_out
    = Ok VNone Reusable_one_back
  ∧ run (ReusableConnectionPool.return_to_pool 0 (VConn 0)) Reusable_one_back = Block
  ∧ ¬ double_return_as_stated Reusable_one_out 0.
Proof.
  assert (0 ∈ ReusableConnectionPool._all_connections (self Reusable_one_out)) as Hin.
  { apply (bool_decide_unpack _). vm_compute. exact I. }
  split; [apply Reusable_init_run |].
  split; [vm_compute; reflexivity |].
  split; [exact Hin |].
  split; [vm_compute; reflexivity |].
  split; [vm_compute; reflexivity |].
  intros Hstated. destruct (Hstated Hin 0) as (s1 & s2 & H1 & H2 & _).
  vm_compute in H1. injection H1 as <-.
  vm_compute in H2. discriminate H2.
Qed.

(** C9, amended: when the queue has room for two more items, two
    [return_to_pool()] calls in a row with a registered handle both return
    and put the handle into the queue twice, with no check that it is there
    already; from an empty queue, the next two [connect()] calls then both
    return that handle. *)
Theorem Reusable_double_return_enqueues_twice th h (s : ReusableConnectionPool.St) :
  h ∈ ReusableConnectionPool._all_connections (self s) →
  room_for_two (ReusableConnectionPool._available_connections (self s)) →
  ∃ s1 s2,
    run (ReusableConnectionPool.return_to_pool th (VConn h)) s = Ok VNone s1
    ∧ run (ReusableConnectionPool.return_to_pool th (VConn h)) s1 = Ok VNone s2
    ∧ q_items (ReusableConnectionPool._available_connections (self s2))
      = q_items (ReusableConnectionPool._available_connections (self s))
        ++ [VConn h; VConn h]
    ∧ heap s2 = heap s
    ∧ ReusableConnectionPool._all_connections (self s2)
      = ReusableConnectionPool._all_connections (self s)
    ∧ (ReusableConnectionPool._initialized (self s) = true →
       q_items (ReusableConnectionPool._available_connections (self s)) = [] →
       ∀ th1 th2, ∃ s3 s4,
         run (ReusableConnectionPool.connect th1) s2 = Ok (VConn h) s3
         ∧ run (ReusableConnectionPool.connect th2) s3 = Ok (VConn h) s4).
Proof.
  intros Hin Hroom. unfold room_for_two in Hroom.
  eexists _, _.
  split.
  { rewrite Reusable_return_to_pool_run. cbn [value_in].
    rewrite bool_decide_eq_true_2 by done. rewrite q_put_room by lia. done. }
  split.
  { rewrite Reusable_return_to_pool_run. cbn [value_in with_self self
      ReusableConnectionPool.set_available_connections
      ReusableConnectionPool._all_connections
      ReusableConnectionPool._available_connections].
    rewrite bool_decide_eq_true_2 by done.
    rewrite q_put_room by (cbn; rewrite length_app; cbn; lia). done. }
  split; [cbn; by rewrite <- app_assoc |].
  split; [done |]. split; [done |].
  intros Hi Hempty th1 th2. eexists _, _.
  split.
  { rewrite Reusable_connect_run. cbn. rewrite Hi, Hempty. cbn. done. }
  rewrite Reusable_connect_run. cbn. rewrite Hi. done.
Qed.

(** ** [connect()] after [close()] *)

(** C10: after [close()] a [LockPool] or a [PerThreadPool] does not reject
    [connect()]: the call never raises, and it returns a connection that did
    not exist before, open and configured, alone in the registry.  For a
    [LockPool] the call first takes the lock, as every [connect()] does: it
    returns when the lock is free or owned by the caller, which is so for
    the thread that closed the pool whenever no other thread holds the
    lock. *)
Theorem connect_after_close_reopens :
  (∀ (s : LockPool.St) th0 th,
     ∃ s1,
       run (LockPool.close th0) s = Ok VNone s1
       ∧ length (heap s1) = length (heap s)
       ∧ (∀ e s2, run (LockPool.connect th) s1 ≠ Raise e s2)
       ∧ (lock_available th s1 →
          ∃ s2,
            run (LockPool.connect th) s1 = Ok (VConn (length (heap s1))) s2
            ∧ heap s2 = heap s1 ++ [configured (LockPool._db_file (self s))
                                               (LockPool._is_uri (self s))]
            ∧ LockPool._connections (self s2) = {[length (heap s1)]})
       ∧ ((∀ o n, LockPool._lock (self s) = Some (o, n) → o = th0) →
          lock_available th0 s1))
  ∧ (∀ (s : PerThreadPool.St) th0 th,
       PerThreadPool._lock (self s) = false →
       ∃ s1 s2,
         run (PerThreadPool.close th0) s = Ok VNone s1
         ∧ length (heap s1) = length (heap s)
         ∧ run (PerThreadPool.connect th) s1 = Ok (VConn (length (heap s1))) s2
         ∧ heap s2 = heap s1 ++ [configured (PerThreadPool._db_file (self s))
                                            (PerThreadPool._is_uri (self s))]
         ∧ PerThreadPool._connections (self s2) = {[length (heap s1)]}).
Proof.
  split.
  - intros s th0 th. eexists. split; [apply LockPool_close_run |].
    split; [cbn; apply close_all_length |].
    split; [intros e s2; apply (LockPool_no_raise th Connect) |].
    split.
    + intros [l Hl]. rewrite LockPool_connect_run. cbn in Hl. cbn. rewrite Hl.
      unfold cached. rewrite lookup_empty. eexists. split; [done |].
      split; [done |]. cbn. set_solver.
    + intros Hown. unfold lock_available. cbn. unfold rlock_release.
      destruct (LockPool._lock (self s)) as [[o n] |] eqn:Hlock; [| done].
      rewrite (Hown o n eq_refl). rewrite decide_True by done.
      destruct (decide (n = 1%positive)); [done |].
      cbn. by rewrite decide_True.
  - intros s th0 th Hl. eexists _, _.
    split; [by rewrite PerThreadPool_close_run, Hl |].
    split; [cbn; apply close_all_length |].
    rewrite PerThreadPool_connect_run. cbn. unfold cached. rewrite lookup_empty.
    split; [done |]. split; [done |]. set_solver.
Qed.

(** ** Thread affinity of a [PerThreadPool] *)

Lemma history_snoc_inv {St} (method : tid → call → prog St value) s0 tr e s :
  history method s0 (tr ++ [e]) s →
  ∃ s1, history method s0 tr s1
        ∧ match ev_outcome e with
          | Returned v => run (method (ev_thread e) (ev_call e)) s1 = Ok v s
          | Raised x => run (method (ev_thread e) (ev_call e)) s1 = Raise x s
          end.
Proof.
  intros H. inversion H as [Hnil | tr' s1 th c v s' Hh Hrun Heq | tr' s1 th c x s' Hh Hrun Heq].
  - by destruct tr.
  - apply app_inj_tail in Heq as [-> <-]. by exists s1.
  - apply app_inj_tail in Heq as [-> <-]. by exists s1.
Qed.

Lemma history_app_inv {St} (method : tid → call → prog St value) s0 tr1 tr2 s :
  history method s0 (tr1 ++ tr2) s →
  ∃ s1, history method s0 tr1 s1 ∧ history method s1 tr2 s.
Proof.
  revert s. induction tr2 as [| e tr2 IH] using rev_ind; intros s H.
  - rewrite app_nil_r in H. exists s. split; [done | constructor].
  - rewrite app_assoc in H. apply history_snoc_inv in H as (s2 & H & Hrun).
    destruct (IH _ H) as (s1 & H1 & H2). exists s1. split; [done |].
    destruct e as [th c [v | x]]; cbn in Hrun.
    + by eapply history_return.
    + by eapply history_raise.
Qed.

Lemma cached_insert_eq th c (m : gmap nat value) :
  cached th (<[th := VConn c]> m) = Some c.
Proof. unfold cached. by rewrite lookup_insert_eq. Qed.

Lemma cached_insert_ne th th' v (m : gmap nat value) :
  th ≠ th' → cached th' (<[th := v]> m) = cached th' m.
Proof. intros Hne. unfold cached. by rewrite lookup_insert_ne. Qed.

Lemma cached_empty th : cached th (∅ : gmap nat value) = None.
Proof. unfold cached. by rewrite lookup_empty. Qed.

Lemma got_snoc tr e th v :
  got (tr ++ [e]) th v ↔ got tr th v ∨ e = Event th Connect (Returned v).
Proof.
  unfold got. rewrite elem_of_app, list_elem_of_singleton. naive_solver.
Qed.

Lemma PerThreadPool_affinity_step tr s th c v s' :
  PerThreadPool_inv s → PerThreadPool_affinity tr s →
  run (PerThreadPool_method th c) s = Ok v s' →
  PerThreadPool_affinity (tr ++ [Event th c (Returned v)]) s'.
Proof.
  intros (Hl & _) (Hgot & Hcache & Hown & Hinj & Hone) Hrun.
  destruct c as [| conn |]; cbn [PerThreadPool_method] in Hrun.
  - rewrite PerThreadPool_connect_run, Hl in Hrun.
    destruct (cached th (PerThreadPool._connection (self s))) as [c0 |] eqn:Hc;
      simplify_eq.
    + repeat split.
      * intros th1 v1 [? | ?]%got_snoc; [eauto | simplify_eq; eauto].
      * done.
      * intros th1 th2 c1 Hc1 [? | ?]%got_snoc; [eauto | simplify_eq; eauto].
      * done.
      * intros th1 th2 c1 [H1 | H1]%got_snoc [H2 | H2]%got_snoc; simplify_eq; eauto.
        symmetry. eauto.
    + assert (∀ th1, ¬ got tr th1 (VConn (length (heap s)))) as Hfresh.
      { intros th1 Hg. destruct (Hgot _ _ Hg) as (c1 & ? & ?). simplify_eq. lia. }
      assert (∀ th1, cached th1 (PerThreadPool._connection (self s))
                     ≠ Some (length (heap s))) as Hfresh'.
      { intros th1 Hg. apply Hcache in Hg. lia. }
      repeat split; cbn [heap self PerThreadPool._connection].
      * intros th1 v1 [Hg | ?]%got_snoc.
        -- destruct (Hgot _ _ Hg) as (c1 & -> & ?). exists c1.
           rewrite length_app. cbn. split; [done | lia].
        -- simplify_eq. eexists. rewrite length_app. cbn. split; [done | lia].
      * intros th1 c1. rewrite length_app. cbn.
        destruct (decide (th = th1)) as [<- | Hne].
        -- rewrite cached_insert_eq. intros ?. simplify_eq. lia.
        -- rewrite cached_insert_ne by done. intros Hc1%Hcache. lia.
      * intros th1 th2 c1. destruct (decide (th = th1)) as [<- | Hne].
        -- rewrite cached_insert_eq. intros ? [Hg | ?]%got_snoc; simplify_eq; [| done].
           by destruct (Hfresh th2).
        -- rewrite cached_insert_ne by done. intros Hc1 [Hg | ?]%got_snoc; [eauto |].
           simplify_eq. by destruct (Hfresh' th1).
      * intros th1 th2 c1.
        destruct (decide (th = th1)) as [<- | Hne1];
          destruct (decide (th = th2)) as [<- | Hne2]; [done | | |].
        -- rewrite cached_insert_eq, cached_insert_ne by done. intros ? Hc2.
           simplify_eq. by destruct (Hfresh' th2).
        -- rewrite cached_insert_eq, cached_insert_ne by done. intros Hc1 ?.
           simplify_eq. by destruct (Hfresh' th1).
        -- rewrite !cached_insert_ne by done. eauto.
      * intros th1 th2 c1 [H1 | H1]%got_snoc [H2 | H2]%got_snoc; simplify_eq; eauto.
        -- by destruct (Hfresh th1).
        -- by destruct (Hfresh th2).
  - cbn in Hrun. simplify_eq. repeat split; try done.
    + intros th1 v1 [? | ?]%got_snoc; [eauto | done].
    + intros th1 th2 c1 Hc1 [? | ?]%got_snoc; [eauto | done].
    + intros th1 th2 c1 [H1 | H1]%got_snoc [H2 | H2]%got_snoc; simplify_eq; eauto.
  - rewrite PerThreadPool_close_run, Hl in Hrun. simplify_eq.
    repeat split; cbn [heap self PerThreadPool._connection].
    + intros th1 v1 [Hg | ?]%got_snoc; [| done].
      rewrite close_all_length. eauto.
    + intros th1 c1. by rewrite cached_empty.
    + intros th1 th2 c1. by rewrite cached_empty.
    + intros th1 th2 c1. by rewrite cached_empty.
    + intros th1 th2 c1 [H1 | H1]%got_snoc [H2 | H2]%got_snoc; simplify_eq; eauto.
Qed.

Lemma PerThreadPool_history_affinity db uri tr s :
  history PerThreadPool_method (PerThreadPool.__init__ db uri) tr s →
  PerThreadPool_inv s ∧ PerThreadPool_affinity tr s.
Proof.
  induction 1 as [| tr s th c v s' Hh [Hinv Haff] Hrun | tr s th c e s' Hh [Hinv Haff] Hrun].
  - split.
    + repeat split; intros c n Hc; done.
    + repeat split; try (intros ? ? ? Hc; by rewrite cached_empty in Hc);
        try (intros ? ? Hg; by apply elem_of_nil in Hg);
        try (intros ? ? ? Hg; by apply elem_of_nil in Hg).
      intros ? ? Hc. by rewrite cached_empty in Hc.
  - split; [by eapply PerThreadPool_step_inv | by eapply PerThreadPool_affinity_step].
  - destruct Hinv as (Hl & ?). by apply PerThreadPool_no_raise in Hrun.
Qed.

Lemma PerThreadPool_cache_kept th c0 sb mid sc :
  history PerThreadPool_method sb mid sc →
  PerThreadPool_inv sb →
  (∀ e, e ∈ mid → ev_call e ≠ Close) →
  cached th (PerThreadPool._connection (self sb)) = Some c0 →
  cached th (PerThreadPool._connection (self sc)) = Some c0 ∧ PerThreadPool_inv sc.
Proof.
  intros Hh Hinvb. induction Hh as [| tr s th' c v s' Hh IH Hrun | tr s th' c e s' Hh IH Hrun];
    intros Hmid Hc.
  - done.
  - destruct IH as [Hcs Hinv]; [intros e He; apply Hmid, elem_of_app; by left | done |].
    split; [| by eapply PerThreadPool_step_inv].
    destruct Hinv as (Hl & _).
    destruct c as [| conn |]; cbn [PerThreadPool_method] in Hrun.
    + rewrite PerThreadPool_connect_run, Hl in Hrun.
      destruct (cached th' (PerThreadPool._connection (self s))) as [c1 |] eqn:Hc1;
        simplify_eq; [done |].
      cbn [self PerThreadPool._connection]. rewrite cached_insert_ne; [done |].
      intros ->. congruence.
    + cbn in Hrun. by simplify_eq.
    + exfalso. apply (Hmid (Event th' Close (Returned v))); [| done].
      apply elem_of_app. right. by apply list_elem_of_singleton.
  - destruct IH as [Hcs Hinv]; [intros x Hx; apply Hmid, elem_of_app; by left | done |].
    destruct Hinv as (Hl & ?). by apply PerThreadPool_no_raise in Hrun.
Qed.

Lemma PerThreadPool_connect_caches th (s : PerThreadPool.St) v s' :
  PerThreadPool._lock (self s) = false →
  run (PerThreadPool.connect th) s = Ok v s' →
  ∃ c, v = VConn c ∧ cached th (PerThreadPool._connection (self s')) = Some c.
Proof.
  intros Hl Hrun. rewrite PerThreadPool_connect_run, Hl in Hrun.
  destruct (cached th (PerThreadPool._connection (self s))) as [c |] eqn:Hc; simplify_eq.
  - by exists c.
  - eexists. split; [done |]. cbn. apply cached_insert_eq.
Qed.

(** C7: in every history of a [PerThreadPool], two [connect()] calls of one
    thread with no [close()] in between return the identical handle; two
    [connect()] calls of distinct threads never return the same handle; and
    [return_to_pool()] returns and leaves the whole state as it was, for
    every handle and every state. *)
Theorem PerThreadPool_thread_affinity :
  (∀ db uri tr1 mid th v1 v2 s,
     history PerThreadPool_method (PerThreadPool.__init__ db uri)
             (tr1 ++ [Event th Connect (Returned v1)] ++ mid
                  ++ [Event th Connect (Returned v2)]) s →
     (∀ e, e ∈ mid → ev_call e ≠ Close) →
     v1 = v2)
  ∧ (∀ db uri tr s th1 th2 v1 v2,
       history PerThreadPool_method (PerThreadPool.__init__ db uri) tr s →
       Event th1 Connect (Returned v1) ∈ tr →
       Event th2 Connect (Returned v2) ∈ tr →
       th1 ≠ th2 →
       v1 ≠ v2)
  ∧ (∀ (s : PerThreadPool.St) th conn,
       run (PerThreadPool.return_to_pool th conn) s = Ok VNone s).
Proof.
  split; [| split].
  - intros db uri tr1 mid th v1 v2 s Hh Hmid.
    apply history_app_inv in Hh as (sa & Ha & Hh).
    apply history_app_inv in Hh as (sb & Hb & Hh).
    apply history_app_inv in Hh as (sc & Hc & Hd).
    apply (history_snoc_inv _ _ []) in Hb as (sa' & Hnil & Hrun1).
    inversion Hnil as [Heq | |]; [subst sa' | by destruct tr | by destruct tr].
    apply (history_snoc_inv _ _ []) in Hd as (sc' & Hnil' & Hrun2).
    inversion Hnil' as [Heq' | |]; [subst sc' | by destruct tr | by destruct tr].
    cbn [ev_outcome ev_thread ev_call PerThreadPool_method] in Hrun1, Hrun2.
    pose proof (PerThreadPool_history_inv _ _ _ _ Ha) as Hinva.
    pose proof (PerThreadPool_step_inv _ th Connect _ _ Hinva Hrun1) as Hinvb.
    destruct Hinva as (Hla & _).
    destruct (PerThreadPool_connect_caches _ _ _ _ Hla Hrun1) as (c & -> & Hcb).
    destruct (PerThreadPool_cache_kept th c _ _ _ Hc Hinvb Hmid Hcb) as [Hcc (Hlc & _)].
    rewrite PerThreadPool_connect_run, Hcc in Hrun2. by simplify_eq.
  - intros db uri tr s th1 th2 v1 v2 Hh H1 H2 Hne ->.
    apply PerThreadPool_history_affinity in Hh as [_ (Hgot & _ & _ & _ & Hone)].
    destruct (Hgot _ _ H1) as (c & -> & _).
    apply Hne. by eapply Hone.
  - done.
Qed.

(** ** Examples *)

Lemma Reusable_example_exec :
  ∃ cfg, exec ReusableConnectionPool_method (ready "db" false 2) Reusable_example_trace cfg.
Proof.
  eexists. unfold Reusable_example_trace.
  change [Invoke 0 Connect; Tau 0; Tau 0; Finish 0 Connect (Returned (VConn 0))]
    with (((([] ++ [Invoke 0 Connect]) ++ [Tau 0]) ++ [Tau 0])
            ++ [Finish 0 Connect (Returned (VConn 0))]).
  eapply exec_step.
  { eapply exec_step.
    { eapply exec_step.
      { eapply exec_step; [apply exec_nil |]. by apply step_invoke. }
      eapply step_act; [reflexivity | reflexivity]. }
    eapply step_act; [reflexivity | reflexivity]. }
  eapply (step_return _ _ 0 Connect (VConn 0)). reflexivity.
Qed.

Lemma LockPool_example_history :
  history LockPool_method (LockPool.__init__ "db" false)
          [Event 0 Connect (Returned (VConn 0))] LockPool_connected.
Proof.
  apply (history_return LockPool_method _ [] (LockPool.__init__ "db" false) 0 Connect);
    [constructor |].
  vm_compute. reflexivity.
Qed.

Lemma PerThreadPool_example_history_runs :
  history PerThreadPool_method (PerThreadPool.__init__ "db" false)
          PerThreadPool_example_history PerThreadPool_connected.
Proof.
  unfold PerThreadPool_example_history.
  change [Event 0 Connect (Returned (VConn 0)); Event 1 Connect (Returned (VConn 1));
          Event 0 Connect (Returned (VConn 0))]
    with ((([] ++ [Event 0 Connect (Returned (VConn 0))])
             ++ [Event 1 Connect (Returned (VConn 1))])
            ++ [Event 0 Connect (Returned (VConn 0))]).
  eapply history_return; [eapply history_return; [eapply history_return; [constructor |] |] |].
  - vm_compute. reflexivity.
  - vm_compute. reflexivity.
  - vm_compute. reflexivity.
Qed.

(** Witness of C1 (amended): thread 0 takes a handle out of a pool of
    capacity 2 and returns it. *)
Lemma ReusableConnectionPool_checked_out_bounded_witness :
  ∃ cfg,
    exec ReusableConnectionPool_method (ready "db" false 2) Reusable_round_trip_trace cfg
    ∧ (Z.of_nat (size (checked_out Reusable_round_trip_trace))
       + Z.of_nat (available (shared cfg)) ≤ 2)%Z
    ∧ (Z.of_nat (size (checked_out Reusable_round_trip_trace)) ≤ 2)%Z
    ∧ Z.of_nat (length (heap (shared cfg))) = 2%Z
    ∧ VNone ∉ q_items (ReusableConnectionPool._available_connections (self (shared cfg))).
Proof.
  destruct Reusable_round_trip_exec as [cfg Hexec]. exists cfg. split; [exact Hexec |].
  apply (ReusableConnectionPool_checked_out_bounded
           "db" false 2 (ready "db" false 2) Reusable_round_trip_trace cfg).
  - lia.
  - apply Reusable_init_run.
  - exact Hexec.
  - vm_compute. reflexivity.
Defined.

(** Witness of C2 (amended): the thread of [LockPool_released] has its
    handle cached and gets the free lock. *)
Lemma LockPool_connect_cached_or_new_witness :
  run (LockPool.connect 0) LockPool_released
  = Ok (VConn 0) (with_self (LockPool.set_lock (Some (0, 1%positive))) LockPool_released).
Proof.
  exact (LockPool_connect_cached_or_new 0 LockPool_released (Some (0, 1%positive)) eq_refl).
Defined.

(** Witness of C3: a release with no [connect()] before, on a new pool. *)
Lemma LockPool_release_tolerant_witness :
  run (LockPool.return_to_pool 0 VNone) (LockPool.__init__ "db" false)
  = Ok VNone (LockPool.__init__ "db" false)
  ∧ ∃ v s1 s2 v' s4,
      run (LockPool.connect 0) (LockPool.__init__ "db" false) = Ok v s1
      ∧ run (LockPool.return_to_pool 0 v) s1 = Ok VNone s2
      ∧ run (LockPool.return_to_pool 0 v) s2 = Ok VNone s2
      ∧ LockPool._lock (self s2) = None
      ∧ run (LockPool.connect 1) s2 = Ok v' s4.
Proof.
  destruct (LockPool_release_tolerant 0 VNone (LockPool.__init__ "db" false))
    as (s' & Hrun & Hsame & _ & _ & _ & _ & Hdouble).
  split.
  - rewrite (Hsame ltac:(intros n; discriminate)) in Hrun. exact Hrun.
  - exact (Hdouble eq_refl 1).
Defined.

(** Witness of C4: each pool after its first calls. *)
Lemma close_closes_every_connection_witness :
  (∃ s1 s2,
     run (LockPool.close 0) LockPool_connected = Ok VNone s1
     ∧ all_closed s1 ∧ LockPool._connections (self s1) = ∅
     ∧ run (LockPool.close 1) s1 = Ok VNone s2
     ∧ all_closed s2 ∧ LockPool._connections (self s2) = ∅)
  ∧ (∃ s1 s2,
       run (PerThreadPool.close 0) PerThreadPool_connected = Ok VNone s1
       ∧ all_closed s1 ∧ PerThreadPool._connections (self s1) = ∅
       ∧ run (PerThreadPool.close 1) s1 = Ok VNone s2
       ∧ all_closed s2 ∧ PerThreadPool._connections (self s2) = ∅)
  ∧ (∃ s1 s2,
       run (ReusableConnectionPool.close 0) (ready "db" false 2) = Ok VNone s1
       ∧ all_closed s1 ∧ ReusableConnectionPool._all_connections (self s1) = ∅
       ∧ run (ReusableConnectionPool.close 1) s1 = Ok VNone s2
       ∧ all_closed s2 ∧ ReusableConnectionPool._all_connections (self s2) = ∅).
Proof.
  destruct close_closes_every_connection as (HL & HP & HR).
  split; [| split].
  - exact (HL "db" false _ _ 0 1 LockPool_example_history).
  - exact (HP "db" false _ _ 0 1 PerThreadPool_example_history_runs).
  - exact (HR "db" false 2%Z _ [] _ 0 1 (Reusable_init_run "db" false 2)
              (history_nil _ _)).
Defined.

(** Witness of C5: capacity 2. *)
Lemma ReusableConnectionPool_init_prefills_witness :
  ∃ s,
    ReusableConnectionPool_new "db" false 2 = Ok VNone s
    ∧ heap s = [configured "db" false; configured "db" false]
    ∧ q_items (ReusableConnectionPool._available_connections (self s)) = [VConn 0; VConn 1]
    ∧ ReusableConnectionPool._initialized (self s) = true.
Proof.
  destruct (ReusableConnectionPool_init_prefills "db" false 2 ltac:(lia))
    as (s & Hnew & Hheap & _ & Hq & _ & _ & _ & Hi & _).
  exists s. split; [exact Hnew |]. split; [exact Hheap |]. split; [exact Hq | exact Hi].
Defined.

(** Witness of C6: handle 7 is not of the pool. *)
Lemma Reusable_return_unknown_dropped_witness :
  run (ReusableConnectionPool.return_to_pool 0 (VConn 7)) (ready "db" false 2)
  = Ok VNone (ready "db" false 2).
Proof.
  apply (Reusable_return_unknown_dropped 0 (VConn 7) (ready "db" false 2)).
  vm_compute. reflexivity.
Defined.

(** Witness of C7: thread 0, thread 1, thread 0 again. *)
Lemma PerThreadPool_thread_affinity_witness :
  history PerThreadPool_method (PerThreadPool.__init__ "db" false)
          PerThreadPool_example_history PerThreadPool_connected
  ∧ VConn 0 = VConn 0
  ∧ VConn 0 ≠ VConn 1.
Proof.
  destruct PerThreadPool_thread_affinity as (Hsame & Hdistinct & _).
  split; [exact PerThreadPool_example_history_runs |]. split.
  - apply (Hsame "db" false [] [Event 1 Connect (Returned (VConn 1))] 0
                 (VConn 0) (VConn 0) PerThreadPool_connected).
    + exact PerThreadPool_example_history_runs.
    + intros e He. apply list_elem_of_singleton in He. subst e. discriminate.
  - apply (Hdistinct "db" false PerThreadPool_example_history PerThreadPool_connected 0 1).
    + exact PerThreadPool_example_history_runs.
    + apply list_elem_of_here.
    + apply list_elem_of_further, list_elem_of_here.
    + discriminate.
Defined.

(** Witness of C8: the connection of [LockPool_connected]. *)
Lemma open_time_configuration_applied_witness :
  all_configured LockPool_connected
  ∧ all_configured PerThreadPool_connected
  ∧ all_configured (ready "db" false 2).
Proof.
  destruct open_time_configuration_applied as (_ & _ & HL & HP & HR).
  split; [| split].
  - exact (HL "db" false _ _ LockPool_example_history).
  - exact (HP "db" false _ _ PerThreadPool_example_history_runs).
  - exact (HR "db" false 2%Z _ [] _ (Reusable_init_run "db" false 2) (exec_nil _ _)).
Defined.

(** Witness of C9 (amended): both handles of a pool of capacity 2 are out,
    and handle 0 is returned twice. *)
Lemma Reusable_double_return_enqueues_twice_witness :
  ∃ s1 s2 s3 s4,
    run (ReusableConnectionPool.return_to_pool 0 (VConn 0)) Reusable_both_out = Ok VNone s1
    ∧ run (ReusableConnectionPool.return_to_pool 0 (VConn 0)) s1 = Ok VNone s2
    ∧ q_items (ReusableConnectionPool._available_connections (self s2)) = [VConn 0; VConn 0]
    ∧ run (ReusableConnectionPool.connect 1) s2 = Ok (VConn 0) s3
    ∧ run (ReusableConnectionPool.connect 2) s3 = Ok (VConn 0) s4.
Proof.
  destruct (Reusable_double_return_enqueues_twice 0 0 Reusable_both_out)
    as (s1 & s2 & H1 & H2 & Hq & _ & _ & Hconn).
  - apply (bool_decide_unpack _). vm_compute. exact I.
  - right. vm_compute. discriminate.
  - destruct (Hconn eq_refl eq_refl 1 2) as (s3 & s4 & H3 & H4).
    exists s1, s2, s3, s4. repeat split; assumption.
Defined.

(** Witness of C10: thread 0 closes the pool it holds and connects again. *)
Lemma connect_after_close_reopens_witness :
  (∃ s1 s2,
     run (LockPool.close 0) LockPool_connected = Ok VNone s1
     ∧ run (LockPool.connect 0) s1 = Ok (VConn 1) s2
     ∧ heap s2 = heap s1 ++ [configured "db" false])
  ∧ (∃ s1 s2,
       run (PerThreadPool.close 0) PerThreadPool_connected = Ok VNone s1
       ∧ run (PerThreadPool.connect 0) s1 = Ok (VConn 2) s2
       ∧ heap s2 = heap s1 ++ [configured "db" false]).
Proof.
  destruct connect_after_close_reopens as (HL & HP).
  split.
  - destruct (HL LockPool_connected 0 0) as (s1 & Hclose & Hlen & _ & Hconn & Hav).
    destruct Hconn as (s2 & Hrun & Hheap & _).
    { apply Hav. intros o n Heq. injection Heq as <- _. reflexivity. }
    exists s1, s2. rewrite Hlen in Hrun. repeat split; assumption.
  - destruct (HP PerThreadPool_connected 0 0 eq_refl)
      as (s1 & s2 & Hclose & Hlen & Hrun & Hheap & _).
    exists s1, s2. rewrite Hlen in Hrun. repeat split; assumption.
Defined.

(** * Further properties *)

(** ** The re-entrant lock of a [LockPool] *)

Lemma held_acquire th l :
  free_or_mine th l →
  ∃ l', rlock_acquire th l = Some l'
        ∧ free_or_mine th l' ∧ held th l' = S (held th l).
Proof.
  intros [-> | [k ->]]; cbn.
  - eexists. split; [done |]. split; [right; by eexists |].
    cbn. by rewrite decide_True.
  - rewrite decide_True by done. eexists. split; [done |].
    split; [right; by eexists |]. cbn. rewrite !decide_True by done. lia.
Qed.

Lemma held_release th l :
  free_or_mine th l → 0 < held th l →
  ∃ l', rlock_release th l = Some l'
        ∧ free_or_mine th l' ∧ held th l' = held th l - 1.
Proof.
  intros [-> | [k ->]] Hpos; cbn in *; [lia |].
  destruct (decide (th = th)) as [_ | ?]; [| done]. eexists. split; [done |].
  destruct (decide (k = 1%positive)) as [-> | Hne].
  - split; [by left |]. cbn. lia.
  - split; [right; by eexists |]. cbn.
    destruct (decide (th = th)) as [_ | ?]; [| done]. lia.
Qed.

Lemma held_zero th l : free_or_mine th l → held th l = 0 → l = None.
Proof.
  intros [-> | [k ->]] H; [done |]. cbn in H. rewrite decide_True in H by done. lia.
Qed.

Lemma held_pos_blocks th th' l :
  free_or_mine th l → 0 < held th l → th' ≠ th → rlock_acquire th' l = None.
Proof.
  intros [-> | [k ->]] Hpos Hne; cbn in *; [lia |].
  by rewrite decide_False.
Qed.

Lemma LockPool_connect_n th (n : nat) (s : LockPool.St) :
  free_or_mine th (LockPool._lock (self s)) →
  ∃ vs s1,
    run_each (replicate n th) LockPool.connect s = Ok vs s1
    ∧ length vs = n
    ∧ free_or_mine th (LockPool._lock (self s1))
    ∧ held th (LockPool._lock (self s1)) = held th (LockPool._lock (self s)) + n.
Proof.
  revert s. induction n as [| n IH]; intros s Hmine.
  - exists [], s. cbn. repeat split; [done | lia].
  - destruct (held_acquire th _ Hmine) as (l' & Hacq & Hmine' & Hheld).
    cbn [replicate run_each]. rewrite LockPool_connect_run, Hacq.
    destruct (cached th (LockPool._connection (self s))) as [c |].
    + destruct (IH (with_self (LockPool.set_lock l') s)) as (vs & s1 & Hrun & Hlen & Hm1 & Hh1);
        [done |].
      rewrite Hrun. eexists _, _. split; [done |]. split; [cbn; lia |]. split; [done |].
      rewrite Hh1. cbn. lia.
    + match goal with
      | |- context [run_each _ _ ?st] =>
          destruct (IH st) as (vs & s1 & Hrun & Hlen & Hm1 & Hh1); [done |]
      end.
      rewrite Hrun. eexists _, _. split; [done |]. split; [cbn; lia |]. split; [done |].
      rewrite Hh1. cbn. lia.
Qed.

Lemma LockPool_release_n th conn (m : nat) (s : LockPool.St) :
  free_or_mine th (LockPool._lock (self s)) →
  (m ≤ held th (LockPool._lock (self s)))%nat →
  ∃ s2,
    run_each (replicate m th) (fun t => LockPool.return_to_pool t conn) s
    = Ok (replicate m VNone) s2
    ∧ free_or_mine th (LockPool._lock (self s2))
    ∧ held th (LockPool._lock (self s2)) = held th (LockPool._lock (self s)) - m.
Proof.
  revert s. induction m as [| m IH]; intros s Hmine Hle.
  - exists s. cbn. repeat split; [done | lia].
  - destruct (held_release th _ Hmine) as (l' & Hrel & Hmine' & Hheld); [lia |].
    cbn [replicate run_each]. rewrite LockPool_return_to_pool_run, Hrel.
    destruct (IH (with_self (LockPool.set_lock l') s)) as (s2 & Hrun & Hm2 & Hh2);
      [done | cbn; lia |].
    rewrite Hrun. exists s2. split; [done |]. split; [done |].
    rewrite Hh2. cbn. lia.
Qed.

(** X1: from a free lock, [n] nested [connect()] of one thread take the lock
    [n] times, and [m <= n] following [return_to_pool()] give back [m] of
    them: with [m < n] the lock is still held and [connect()] of every other
    thread waits; with [m = n] the lock is free again. *)
Theorem LockPool_nested_connect_balance th (n m : nat) conn (s : LockPool.St) :
  LockPool._lock (self s) = None →
  (m ≤ n)%nat →
  ∃ vs s1 s2,
    run_each (replicate n th) LockPool.connect s = Ok vs s1
    ∧ length vs = n
    ∧ held th (LockPool._lock (self s1)) = n
    ∧ run_each (replicate m th) (fun t => LockPool.return_to_pool t conn) s1
      = Ok (replicate m VNone) s2
    ∧ held th (LockPool._lock (self s2)) = n - m
    ∧ (m < n → ∀ th', th' ≠ th → run (LockPool.connect th') s2 = Block)
    ∧ (m = n → LockPool._lock (self s2) = None).
Proof.
  intros Hfree Hle.
  destruct (LockPool_connect_n th n s) as (vs & s1 & Hrun1 & Hlen & Hm1 & Hh1);
    [by left |].
  rewrite Hfree in Hh1. cbn in Hh1.
  destruct (LockPool_release_n th conn m s1 Hm1) as (s2 & Hrun2 & Hm2 & Hh2); [lia |].
  exists vs, s1, s2. rewrite Hh1 in Hh2.
  split; [done |]. split; [done |]. split; [done |]. split; [done |].
  split; [done |]. split.
  - intros Hlt th' Hne. rewrite LockPool_connect_run.
    rewrite (held_pos_blocks th th') by (done || lia). done.
  - intros ->. apply (held_zero th); [done | lia].
Qed.

Lemma LockPool_lock_kept th1 sb mid sc :
  history LockPool_method sb mid sc →
  (∃ k, LockPool._lock (self sb) = Some (th1, k)) →
  (∃ e, e ∈ mid ∧ ev_thread e = th1 ∧ ev_call e ≠ Connect)
  ∨ (∃ k, LockPool._lock (self sc) = Some (th1, k)).
Proof.
  intros Hh Hb. induction Hh as [| tr s th c v s' Hh IH Hrun | tr s th c e s' Hh IH Hrun].
  - by right.
  - destruct IH as [(e & He & Hth & Hc) | [k Hk]].
    { left. exists e. split; [apply elem_of_app; by left | done]. }
    destruct (decide (th = th1)) as [-> | Hne].
    + destruct c as [| conn |];
        [| left; eexists; split; [apply elem_of_app; right; by apply list_elem_of_singleton |];
           done ..].
      right. cbn [LockPool_method] in Hrun. rewrite LockPool_connect_run, Hk in Hrun.
      cbn in Hrun. rewrite decide_True in Hrun by done.
      destruct (cached th1 (LockPool._connection (self s))); simplify_eq; by eexists.
    + right. destruct c as [| conn |]; cbn [LockPool_method] in Hrun.
      * rewrite LockPool_connect_run, Hk in Hrun. cbn in Hrun.
        by rewrite decide_False in Hrun by done.
      * rewrite LockPool_return_to_pool_run, Hk in Hrun. cbn in Hrun.
        rewrite decide_False in Hrun by done. simplify_eq. by eexists.
      * rewrite LockPool_close_run, Hk in Hrun. cbn in Hrun.
        rewrite decide_False in Hrun by done. simplify_eq. by eexists.
  - by apply LockPool_no_raise in Hrun.
Qed.

(** X2: in every history of a [LockPool], between a [connect()] that
    returned to one thread and a [connect()] that returned to another
    thread, the first thread called [return_to_pool()] or [close()]: two
    threads are never inside the pool together. *)
Theorem LockPool_mutual_exclusion db uri tr1 mid th1 th2 v1 v2 s :
  history LockPool_method (LockPool.__init__ db uri)
          (tr1 ++ [Event th1 Connect (Returned v1)] ++ mid
               ++ [Event th2 Connect (Returned v2)]) s →
  th1 ≠ th2 →
  ∃ e, e ∈ mid ∧ ev_thread e = th1 ∧ ev_call e ≠ Connect.
Proof.
  intros Hh Hne.
  apply history_app_inv in Hh as (sa & Ha & Hh).
  apply history_app_inv in Hh as (sb & Hb & Hh).
  apply history_app_inv in Hh as (sc & Hc & Hd).
  apply (history_snoc_inv _ _ []) in Hb as (sa' & Hnil & Hrun1).
  inversion Hnil as [Heq | |]; [subst sa' | by destruct tr | by destruct tr].
  apply (history_snoc_inv _ _ []) in Hd as (sc' & Hnil' & Hrun2).
  inversion Hnil' as [Heq' | |]; [subst sc' | by destruct tr | by destruct tr].
  cbn [ev_outcome ev_thread ev_call LockPool_method] in Hrun1, Hrun2.
  assert (∃ k, LockPool._lock (self sb) = Some (th1, k)) as Hlock.
  { rewrite LockPool_connect_run in Hrun1.
    destruct (LockPool._lock (self sa)) as [[o k] |] eqn:Hl; cbn in Hrun1.
    - destruct (decide (o = th1)) as [-> | ?]; [| done].
      destruct (cached th1 (LockPool._connection (self sa))); simplify_eq; by eexists.
    - destruct (cached th1 (LockPool._connection (self sa))); simplify_eq; by eexists. }
  destruct (LockPool_lock_kept th1 _ _ _ Hc Hlock) as [Hfound | [k Hk]]; [done |].
  rewrite LockPool_connect_run, Hk in Hrun2. cbn in Hrun2.
  rewrite decide_False in Hrun2 by done. done.
Qed.

Lemma rlock_release_held th l :
  let l' := match rlock_release th l with Some x => x | None => l end in
  held th l' = held th l - 1
  ∧ (∀ th', th' ≠ th → held th' l' = held th' l)
  ∧ (1 < held th l → ∀ th', th' ≠ th → rlock_acquire th' l' = None).
Proof.
  destruct l as [[o k] |]; cbn; [| repeat split; lia].
  destruct (decide (o = th)) as [-> | Hne]; cbn.
  - destruct (decide (k = 1%positive)) as [-> | Hk]; cbn.
    + split; [done |]. split; [intros th' Hne'; case_decide; [congruence | done] |]. lia.
    + destruct (decide (th = th)) as [_ | ?]; [| done].
      split; [lia |]. split; [intros th' Hne'; case_decide; [congruence | done] |].
      intros _ th' Hne'. case_decide; [congruence | done].
  - rewrite decide_False by done. repeat split; lia.
Qed.

(** X3: [close()] of a [LockPool] acts on the lock as one
    [return_to_pool()]: one unit is given back when the caller owns the
    lock, nothing otherwise, and what other threads hold is untouched; a
    caller inside nested [connect()] still holds the lock after [close()],
    and [connect()] of every other thread goes on waiting. *)
Theorem LockPool_close_releases_one_unit th conn (s : LockPool.St) :
  ∃ s1 s2,
    run (LockPool.close th) s = Ok VNone s1
    ∧ run (LockPool.return_to_pool th conn) s = Ok VNone s2
    ∧ LockPool._lock (self s1) = LockPool._lock (self s2)
    ∧ held th (LockPool._lock (self s1)) = held th (LockPool._lock (self s)) - 1
    ∧ (∀ th', th' ≠ th →
              held th' (LockPool._lock (self s1)) = held th' (LockPool._lock (self s)))
    ∧ (1 < held th (LockPool._lock (self s)) →
       ∀ th', th' ≠ th → run (LockPool.connect th') s1 = Block).
Proof.
  pose proof (rlock_release_held th (LockPool._lock (self s))) as (Hheld & Hother & Hblock).
  eexists _, _. split; [apply LockPool_close_run |].
  split; [apply LockPool_return_to_pool_run |].
  cbn [self LockPool._lock].
  split; [by destruct (rlock_release th (LockPool._lock (self s))) |].
  split; [done |]. split; [done |].
  intros Hpos th' Hne. rewrite LockPool_connect_run. cbn [self LockPool._lock].
  by rewrite Hblock.
Qed.

(** ** The registry of open connections *)

Lemma registry_exact_snoc {P} (h : list Connection) (p p' : P) reg cache th db uri :
  registry_exact reg cache {| heap := h; self := p |} →
  registry_exact ({[length h]} ∪ reg) (<[th := VConn (length h)]> cache)
                 {| heap := h ++ [configured db uri]; self := p' |}.
Proof.
  intros [Hreg Hcache]. split.
  - intros c. cbn [heap]. rewrite elem_of_union, elem_of_singleton, Hreg. cbn [heap].
    split.
    + intros [-> | (n & Hn & Hopen)].
      * exists (configured db uri). split; [| done].
        rewrite lookup_app_r by lia. by rewrite Nat.sub_diag.
      * exists n. split; [| done]. by apply lookup_app_l_Some.
    + intros (n & Hn & Hopen). apply lookup_app_Some in Hn as [Hn | [Hge Hn]].
      * right. by exists n.
      * left. apply list_lookup_singleton_Some in Hn as [Hz _]. lia.
  - intros th' c. destruct (decide (th = th')) as [<- | Hne].
    + rewrite cached_insert_eq. intros ?. simplify_eq. set_solver.
    + rewrite cached_insert_ne by done. intros Hc%Hcache. set_solver.
Qed.

Lemma registry_exact_close {P} (h : list Connection) (p p' : P) reg cache :
  registry_exact reg cache {| heap := h; self := p |} →
  registry_exact ∅ ∅ {| heap := close_all (elements reg) h; self := p' |}.
Proof.
  intros [Hreg Hcache]. split.
  - intros c. split; [set_solver |]. intros (n & Hn & Hopen). exfalso. cbn [heap] in Hn.
    destruct (decide (c ∈ reg)) as [Hin | Hnin].
    + apply close_all_closed in Hn; [congruence | by apply elem_of_elements].
    + apply close_all_stays_closed in Hn as (n0 & Hn0 & Hkeep & _).
      destruct (conn_closed n0) eqn:Hcl; [rewrite Hkeep in Hopen; done |].
      apply Hnin, Hreg. by exists n0.
  - intros th c. by rewrite cached_empty.
Qed.

Lemma LockPool_registry_exact db uri tr s :
  history LockPool_method (LockPool.__init__ db uri) tr s →
  registry_exact (LockPool._connections (self s)) (LockPool._connection (self s)) s.
Proof.
  apply (history_inv LockPool_method
           (fun s => registry_exact (LockPool._connections (self s))
                                    (LockPool._connection (self s)) s)).
  - split.
    + intros c. cbn. split; [set_solver |]. by intros (n & Hn & _).
    + intros th c. cbn. by rewrite cached_empty.
  - intros s1 th c v s' Hex Hrun. destruct s1 as [h p].
    destruct c as [| conn |]; cbn [LockPool_method] in Hrun.
    + rewrite LockPool_connect_run in Hrun. cbn [self heap] in Hrun.
      destruct (rlock_acquire th (LockPool._lock p)) as [l |]; [| done].
      destruct (cached th (LockPool._connection p)) as [c |]; simplify_eq.
      * exact Hex.
      * by eapply registry_exact_snoc.
    + rewrite LockPool_return_to_pool_run in Hrun. cbn [self] in Hrun.
      destruct (rlock_release th (LockPool._lock p)); simplify_eq; exact Hex.
    + rewrite LockPool_close_run in Hrun. simplify_eq. cbn [self heap LockPool._connections
        LockPool._connection]. by eapply registry_exact_close.
  - intros s1 th c e s' _ Hrun. by apply LockPool_no_raise in Hrun.
Qed.

Lemma PerThreadPool_registry_exact db uri tr s :
  history PerThreadPool_method (PerThreadPool.__init__ db uri) tr s →
  PerThreadPool._lock (self s) = false
  ∧ registry_exact (PerThreadPool._connections (self s))
                   (PerThreadPool._connection (self s)) s.
Proof.
  apply (history_inv PerThreadPool_method
           (fun s => PerThreadPool._lock (self s) = false
                     ∧ registry_exact (PerThreadPool._connections (self s))
                                      (PerThreadPool._connection (self s)) s)).
  - split; [done |]. split.
    + intros c. cbn. split; [set_solver |]. by intros (n & Hn & _).
    + intros th c. cbn. by rewrite cached_empty.
  - intros s1 th c v s' [Hl Hex] Hrun. destruct s1 as [h p]. cbn [self] in Hl.
    destruct c as [| conn |]; cbn [PerThreadPool_method] in Hrun.
    + rewrite PerThreadPool_connect_run in Hrun. cbn [self heap] in Hrun.
      rewrite Hl in Hrun.
      destruct (cached th (PerThreadPool._connection p)) as [c |]; simplify_eq.
      * by split.
      * split; [done |]. by eapply registry_exact_snoc.
    + cbn in Hrun. simplify_eq. by split.
    + rewrite PerThreadPool_close_run in Hrun. cbn [self heap] in Hrun.
      rewrite Hl in Hrun. simplify_eq. split; [done |].
      cbn [self heap PerThreadPool._connections PerThreadPool._connection].
      by eapply registry_exact_close.
  - intros s1 th c e s' [Hl _] Hrun. by apply PerThreadPool_no_raise in Hrun.
Qed.

(** X4: in every state between the calls of a [LockPool] or of a
    [PerThreadPool], the registry holds exactly the connections that exist
    and are not closed, every cached handle is registered, and so
    [connect()], when it returns, returns an open connection. *)
Theorem connect_returns_open_connection :
  (∀ db uri tr s,
     history LockPool_method (LockPool.__init__ db uri) tr s →
     registry_exact (LockPool._connections (self s)) (LockPool._connection (self s)) s
     ∧ ∀ th v s',
         run (LockPool.connect th) s = Ok v s' →
         ∃ c n, v = VConn c ∧ heap s' !! c = Some n ∧ conn_closed n = false)
  ∧ (∀ db uri tr s,
       history PerThreadPool_method (PerThreadPool.__init__ db uri) tr s →
       registry_exact (PerThreadPool._connections (self s))
                      (PerThreadPool._connection (self s)) s
       ∧ ∀ th v s',
           run (PerThreadPool.connect th) s = Ok v s' →
           ∃ c n, v = VConn c ∧ heap s' !! c = Some n ∧ conn_closed n = false).
Proof.
  split.
  - intros db uri tr s Hh. split; [by eapply LockPool_registry_exact |].
    intros th v s' Hrun.
    pose proof (history_return _ _ _ _ th Connect _ _ Hh Hrun) as Hh'.
    apply LockPool_registry_exact in Hh' as [Hreg Hcache].
    assert (∃ c, v = VConn c ∧ cached th (LockPool._connection (self s')) = Some c)
      as (c & -> & Hc).
    { rewrite LockPool_connect_run in Hrun.
      destruct (rlock_acquire th (LockPool._lock (self s))) as [l |]; [| done].
      destruct (cached th (LockPool._connection (self s))) as [c |] eqn:Hc; simplify_eq.
      - by exists c.
      - eexists. split; [done |]. cbn. apply cached_insert_eq. }
    apply Hcache, Hreg in Hc as (n & Hn & Hopen). by exists c, n.
  - intros db uri tr s Hh. split; [by eapply PerThreadPool_registry_exact |].
    intros th v s' Hrun.
    pose proof (PerThreadPool_registry_exact _ _ _ _ Hh) as [Hl _].
    pose proof (history_return _ _ _ _ th Connect _ _ Hh Hrun) as Hh'.
    apply PerThreadPool_registry_exact in Hh' as [_ [Hreg Hcache]].
    destruct (PerThreadPool_connect_caches _ _ _ _ Hl Hrun) as (c & -> & Hc).
    apply Hcache, Hreg in Hc as (n & Hn & Hopen). by exists c, n.
Qed.

(** ** Invariants of interleavings *)

Lemma exec_safe_inv {St} (method : tid → call → prog St value)
    (I : St → Prop) (Q : call → value → Prop) s0 tr cfg :
  (∀ th c, safe I (Q c) (method th c)) →
  I s0 →
  exec method s0 tr cfg →
  I (shared cfg) ∧ ∀ th c p, running cfg th = Some (c, p) → safe I (Q c) p.
Proof.
  intros Hsafe H0 Hexec. induction Hexec as [| tr cfg l cfg' Hexec (IHs & IHr) Hstep].
  { split; [done | done]. }
  destruct Hstep as [cfg th c Hidle | cfg th c p p' s' Hrun Hstep
                    | cfg th c p e s' Hrun Hstep | cfg th c v Hrun]; cbn [shared running].
  - split; [done |].
    intros th' c' p' Hl. destruct (decide (th = th')) as [<- | Hne].
    + rewrite fn_lookup_insert in Hl. simplify_eq. apply Hsafe.
    + rewrite fn_lookup_insert_ne in Hl by done. eauto.
  - destruct (pstep_Ok_inv _ _ _ _ _ _ (IHr _ _ _ Hrun) IHs Hstep) as [Hs' Hp'].
    split; [done |].
    intros th' c' p'' Hl. destruct (decide (th = th')) as [<- | Hne].
    + rewrite fn_lookup_insert in Hl. by simplify_eq.
    + rewrite fn_lookup_insert_ne in Hl by done. eauto.
  - pose proof (pstep_Raise_inv _ _ _ _ _ _ (IHr _ _ _ Hrun) IHs Hstep) as Hs'.
    split; [done |].
    intros th' c' p'' Hl. destruct (decide (th = th')) as [<- | Hne].
    + by rewrite fn_lookup_insert in Hl.
    + rewrite fn_lookup_insert_ne in Hl by done. eauto.
  - split; [done |].
    intros th' c' p'' Hl. destruct (decide (th = th')) as [<- | Hne].
    + by rewrite fn_lookup_insert in Hl.
    + rewrite fn_lookup_insert_ne in Hl by done. eauto.
Qed.

(** ** The bounded queue of a [ReusableConnectionPool] *)

Lemma Reusable_bounded_heap K f s :
  Reusable_bounded K s → Reusable_bounded K (with_heap f s).
Proof. done. Qed.

Lemma Reusable_drain_bounded K (items : list value) (s : ReusableConnectionPool.St) :
  q_items (ReusableConnectionPool._available_connections (self s)) = items →
  Reusable_bounded K s →
  match ReusableConnectionPool.drain items s with
  | Ok _ s' => Reusable_bounded K s'
  | Raise _ s' => Reusable_bounded K (with_self (ReusableConnectionPool.set_lock false) s')
  | Block => True
  end.
Proof.
  revert s. induction items as [| v items IH]; intros [h p] Hq Hb.
  - done.
  - cbn [ReusableConnectionPool.drain]. unfold mbind, M_bind, m_bind.
    unfold ReusableConnectionPool.queue_get at 1. unfold q_get. cbn [self] in *.
    rewrite Hq.
    assert (Reusable_bounded K
              {| heap := h;
                 self := ReusableConnectionPool.set_available_connections
                           {| q_items := items;
                              q_maxsize := q_maxsize (ReusableConnectionPool._available_connections p) |}
                           p |}) as Hb'.
    { destruct Hb as [Hm Hlen]. split; [done |]. intros HK. specialize (Hlen HK).
      cbn in *. rewrite Hq in Hlen. cbn in Hlen. lia. }
    destruct v as [| c]; [exact Hb' |].
    cbn [close_actual]. unfold conn_update, m_modify. cbn [with_heap with_self heap self].
    apply IH; [done |]. exact Hb'.
Qed.

Lemma Reusable_connect_bounded K th :
  safe (Reusable_bounded K) (fun _ => True) (ReusableConnectionPool.connect th).
Proof.
  unfold ReusableConnectionPool.connect.
  apply (safe_bind _ (fun _ => True)).
  { apply safe_atom. intros s Hs. unfold ReusableConnectionPool.initialized_wait.
    by destruct (ReusableConnectionPool._initialized (self s)). }
  intros _ _. apply (safe_bind _ (fun _ => True)).
  { apply safe_atom. intros s [Hm Hlen].
    unfold ReusableConnectionPool.queue_get, q_get.
    destruct (q_items (ReusableConnectionPool._available_connections (self s)))
      as [| v rest] eqn:Hitems; [done |].
    split; [| done]. split; [done |]. intros HK. specialize (Hlen HK).
    cbn in *. lia. }
  intros [| c] _; [| done].
  unfold ReusableConnectionPool._create_new_connection.
  apply (safe_bind _ (fun _ => True)); [by apply safe_new_Connection |].
  intros c _. apply (safe_bind _ (fun _ => True)); [by apply safe_atom | done].
Qed.

Lemma Reusable_return_to_pool_bounded K th conn :
  safe (Reusable_bounded K) (fun _ => True) (ReusableConnectionPool.return_to_pool th conn).
Proof.
  unfold ReusableConnectionPool.return_to_pool.
  apply (safe_bind _ (fun _ => True)); [by apply safe_atom |].
  intros [|] _; [| done].
  apply (safe_bind _ (fun _ => True)); [| done].
  apply safe_atom. intros s [Hm Hlen].
  unfold ReusableConnectionPool.queue_put, q_put, q_full.
  destruct (bool_decide_reflect (0 < q_maxsize
              (ReusableConnectionPool._available_connections (self s)))%Z) as [Hpos | Hnpos];
    cbn [andb].
  - destruct (bool_decide_reflect (q_maxsize
                (ReusableConnectionPool._available_connections (self s))
              ≤ Z.of_nat (length (q_items
                  (ReusableConnectionPool._available_connections (self s)))))%Z)
      as [Hfull | Hroom]; [done |].
    split; [| done]. split; [done |]. intros HK. cbn. rewrite length_app. cbn. lia.
  - split; [| done]. split; [done |]. intros HK. cbn in *. lia.
Qed.

Lemma Reusable_close_bounded K th :
  safe (Reusable_bounded K) (fun _ => True) (ReusableConnectionPool.close th).
Proof.
  unfold ReusableConnectionPool.close.
  apply (safe_bind _ (fun _ => True)).
  { apply safe_atom. intros s Hs. unfold ReusableConnectionPool.lock_acquire.
    by destruct (ReusableConnectionPool._lock (self s)). }
  intros _ _. apply (safe_bind _ (fun _ => True)).
  { apply safe_atom. intros s Hs. unfold m_finally.
    pose proof (Reusable_drain_bounded K _ s eq_refl Hs) as Hd.
    by destruct (ReusableConnectionPool.drain _ s). }
  intros _ _. apply (safe_bind _ (fun _ => True)); [by apply safe_atom |].
  intros conns _. apply (safe_bind _ (fun _ => True)).
  { apply safe_for_each. intros c. by apply safe_atom. }
  intros _ _. apply (safe_bind _ (fun _ => True)); [by apply safe_atom |].
  intros _ _. apply (safe_bind _ (fun _ => True)); [| done].
  apply safe_atom. intros s Hs. unfold ReusableConnectionPool.lock_release.
  by destruct (ReusableConnectionPool._lock (self s)).
Qed.

(** X5: in every interleaving of the calls of a [ReusableConnectionPool]
    built with a capacity [K > 0], the queue keeps its bound [K] and never
    holds more than [K] handles, whatever handles are returned and however
    often. *)
Theorem ReusableConnectionPool_queue_bounded db uri (K : Z) s0 tr cfg :
  (0 < K)%Z →
  ReusableConnectionPool_new db uri K = Ok VNone s0 →
  exec ReusableConnectionPool_method s0 tr cfg →
  q_maxsize (ReusableConnectionPool._available_connections (self (shared cfg))) = K
  ∧ (Z.of_nat (length (q_items (ReusableConnectionPool._available_connections
                                  (self (shared cfg))))) ≤ K)%Z.
Proof.
  intros HK Hnew Hexec. rewrite Reusable_init_run in Hnew. simplify_eq.
  assert (∀ th c, safe (Reusable_bounded K) (fun _ => True)
                       (ReusableConnectionPool_method th c)) as Hsafe.
  { intros th [| conn |]; cbn [ReusableConnectionPool_method].
    - apply Reusable_connect_bounded.
    - apply Reusable_return_to_pool_bounded.
    - apply Reusable_close_bounded. }
  assert (Reusable_bounded K (ready db uri K)) as H0.
  { split; [done |]. intros _. cbn -[seq]. rewrite length_fmap, length_seq. lia. }
  destruct (exec_safe_inv ReusableConnectionPool_method (Reusable_bounded K)
              (fun _ _ => True) _ _ _ Hsafe H0 Hexec) as [[Hm Hlen] _].
  split; [done | by apply Hlen].
Qed.

Lemma q_put_Some v q q' :
  q_put v q = Some q' →
  q' = {| q_items := q_items q ++ [v]; q_maxsize := q_maxsize q |}
  ∧ ((0 < q_maxsize q)%Z → (Z.of_nat (length (q_items q)) < q_maxsize q)%Z).
Proof.
  unfold q_put, q_full. intros H.
  destruct (bool_decide_reflect (0 < q_maxsize q)%Z) as [Hpos | Hnpos]; cbn [andb] in H.
  - destruct (bool_decide_reflect (q_maxsize q ≤ Z.of_nat (length (q_items q)))%Z)
      as [Hfull | Hroom]; simplify_eq. split; [done | lia].
  - simplify_eq. split; [done | lia].
Qed.

Lemma Reusable_settled_step K s th c v s' :
  (0 ≤ K)%Z →
  Reusable_settled K s →
  run (ReusableConnectionPool_method th c) s = Ok v s' →
  Reusable_settled K s'.
Proof.
  intros HK (Hquiet & [Hm Hlen] & Hreg) Hrun.
  split; [by eapply Reusable_step_inv |].
  destruct Hquiet as (Hinv & Hl & _).
  destruct c as [| conn |]; cbn [ReusableConnectionPool_method] in Hrun.
  - rewrite Reusable_connect_run in Hrun.
    destruct Hinv as (Hi & _ & Hq & _). rewrite Hi in Hrun.
    destruct (q_items (ReusableConnectionPool._available_connections (self s)))
      as [| w rest] eqn:Hitems; [done |].
    apply list.Forall_cons in Hq as [(h & -> & Hlt) Hrest]. simplify_eq. split.
    + split; [done |]. intros HK'. specialize (Hlen HK'). cbn in *. lia.
    + intros c Hc. cbn in Hc. apply Hreg. rewrite Hitems. by apply list_elem_of_further.
  - rewrite Reusable_return_to_pool_run in Hrun.
    destruct (value_in conn (ReusableConnectionPool._all_connections (self s))) eqn:Hin;
      [| by simplify_eq].
    destruct (q_put conn (ReusableConnectionPool._available_connections (self s)))
      as [q' |] eqn:Hput; [| done].
    apply q_put_Some in Hput as [-> Hroom]. simplify_eq. split.
    + split; [done |]. intros HK'. cbn. rewrite length_app. cbn.
      specialize (Hroom HK'). lia.
    + intros c Hc. cbn in Hc. apply elem_of_app in Hc as [Hc | Hc]; [by apply Hreg |].
      apply list_elem_of_singleton in Hc. subst conn. cbn in Hin.
      by apply bool_decide_eq_true in Hin.
  - rewrite Reusable_close_run in Hrun by (by eapply Reusable_inv_no_None).
    rewrite Hl in Hrun. simplify_eq. split.
    + split; [done |]. intros _. cbn. lia.
    + intros c Hc. cbn in Hc. by apply elem_of_nil in Hc.
Qed.

Lemma Reusable_settled_ready db uri K : (0 ≤ K)%Z → Reusable_settled K (ready db uri K).
Proof.
  intros HK. split; [apply Reusable_quiet_inv_ready |]. split.
  - split; [done |]. intros _. cbn -[seq]. rewrite length_fmap, length_seq. lia.
  - intros c Hc. cbn -[seq] in *. apply elem_of_list_to_set.
    apply list_elem_of_fmap in Hc as (c' & Heq & Hc'). by simplify_eq.
Qed.

Lemma Reusable_settled_from K sa tr s :
  (0 ≤ K)%Z →
  Reusable_settled K sa →
  history ReusableConnectionPool_method sa tr s →
  Reusable_settled K s.
Proof.
  intros HK Ha. apply (history_inv ReusableConnectionPool_method (Reusable_settled K)).
  - done.
  - intros s1 th c v s' Hs Hrun. by eapply Reusable_settled_step.
  - intros s1 th c e s' (Hq & _) Hrun. by eapply Reusable_no_raise in Hrun.
Qed.

(** X6: in every state between the calls of a [ReusableConnectionPool],
    when [connect()] returns a handle, [return_to_pool()] of that handle
    returns without waiting and puts it at the end of the queue: the queue is
    as before but for the handle having moved from the front to the back, and
    the connections and the registry are as before. *)
Theorem Reusable_connect_return_round_trip db uri (K : Z) s0 tr s th th' v s1 :
  (0 ≤ K)%Z →
  ReusableConnectionPool_new db uri K = Ok VNone s0 →
  history ReusableConnectionPool_method s0 tr s →
  run (ReusableConnectionPool.connect th) s = Ok v s1 →
  ∃ h rest s2,
    v = VConn h
    ∧ q_items (ReusableConnectionPool._available_connections (self s)) = VConn h :: rest
    ∧ q_items (ReusableConnectionPool._available_connections (self s1)) = rest
    ∧ run (ReusableConnectionPool.return_to_pool th' v) s1 = Ok VNone s2
    ∧ q_items (ReusableConnectionPool._available_connections (self s2)) = rest ++ [VConn h]
    ∧ heap s2 = heap s
    ∧ ReusableConnectionPool._all_connections (self s2)
      = ReusableConnectionPool._all_connections (self s).
Proof.
  intros HK Hnew Hh Hrun. rewrite Reusable_init_run in Hnew. simplify_eq.
  pose proof (Reusable_settled_from K _ _ _ HK (Reusable_settled_ready db uri K HK) Hh)
    as (Hquiet & [Hm Hlen] & Hreg).
  destruct Hquiet as ((Hi & _ & Hq & _) & _ & _).
  rewrite Reusable_connect_run, Hi in Hrun.
  destruct (q_items (ReusableConnectionPool._available_connections (self s)))
    as [| w rest] eqn:Hitems; [done |].
  apply list.Forall_cons in Hq as [(h & -> & Hlt) Hrest]. injection Hrun as <- <-.
  exists h, rest. eexists. split; [done |]. split; [done |]. split; [done |].
  rewrite Reusable_return_to_pool_run. cbn [value_in with_self self
    ReusableConnectionPool.set_available_connections
    ReusableConnectionPool._all_connections
    ReusableConnectionPool._available_connections].
  rewrite bool_decide_eq_true_2.
  2:{ apply Hreg. rewrite Hitems. apply list_elem_of_here. }
  rewrite q_put_room.
  2:{ cbn [q_items q_maxsize].
      destruct (decide (0 < K)%Z) as [HK' | HK']; [| left; lia].
      right. specialize (Hlen HK'). cbn in Hlen. lia. }
  split; [done |]. split; [done |]. split; [done | done].
Qed.

(** ** A closed [ReusableConnectionPool] *)

Lemma Reusable_closed_kept n0 sd tr s :
  history ReusableConnectionPool_method sd tr s →
  Reusable_quiet_inv n0 sd →
  q_items (ReusableConnectionPool._available_connections (self sd)) = [] →
  ReusableConnectionPool._all_connections (self sd) = ∅ →
  (∀ e, e ∈ tr → ev_call e ≠ Connect)
  ∧ Reusable_quiet_inv n0 s
  ∧ q_items (ReusableConnectionPool._available_connections (self s)) = []
  ∧ ReusableConnectionPool._all_connections (self s) = ∅.
Proof.
  intros Hh Hinv Hq Hall.
  induction Hh as [| tr s th c v s' Hh (IHe & IHinv & IHq & IHall) Hrun
                  | tr s th c e s' Hh (IHe & IHinv & IHq & IHall) Hrun].
  - split; [| done]. intros e He. by apply elem_of_nil in He.
  - pose proof (Reusable_step_inv _ _ _ _ _ _ IHinv Hrun) as Hinv'.
    destruct c as [| conn |]; cbn [ReusableConnectionPool_method] in Hrun.
    + rewrite Reusable_connect_run, IHq in Hrun.
      by destruct (ReusableConnectionPool._initialized (self s)).
    + rewrite Reusable_return_to_pool_run, IHall in Hrun.
      assert (value_in conn ∅ = false) as Hno.
      { destruct conn as [| h]; [done |]. cbn. by apply bool_decide_eq_false_2. }
      rewrite Hno in Hrun. simplify_eq. split; [| done].
      intros e [He | He]%elem_of_app; [by apply IHe |].
      apply list_elem_of_singleton in He. by subst e.
    + destruct IHinv as (Hi & Hl & Hr).
      rewrite Reusable_close_run in Hrun by (by eapply Reusable_inv_no_None).
      rewrite Hl in Hrun. simplify_eq. split; [| done].
      intros e [He | He]%elem_of_app; [by apply IHe |].
      apply list_elem_of_singleton in He. by subst e.
  - by eapply Reusable_no_raise in Hrun.
Qed.

(** X7: once [close()] has returned, a [ReusableConnectionPool] hands out
    nothing any more: the queue and the registry are empty and stay so, no
    later [connect()] returns in any history, and [connect()] waits for
    ever; handles returned after [close()] are dropped. *)
Theorem ReusableConnectionPool_closed_for_good db uri (K : Z) s0 tr1 th v tr2 s :
  ReusableConnectionPool_new db uri K = Ok VNone s0 →
  history ReusableConnectionPool_method s0
          (tr1 ++ [Event th Close (Returned v)] ++ tr2) s →
  (∀ e, e ∈ tr2 → ev_call e ≠ Connect)
  ∧ q_items (ReusableConnectionPool._available_connections (self s)) = []
  ∧ ReusableConnectionPool._all_connections (self s) = ∅
  ∧ (∀ th', run (ReusableConnectionPool.connect th') s = Block)
  ∧ (∀ th' conn, run (ReusableConnectionPool.return_to_pool th' conn) s = Ok VNone s).
Proof.
  intros Hnew Hh. rewrite Reusable_init_run in Hnew. simplify_eq.
  apply history_app_inv in Hh as (sa & Ha & Hh).
  apply history_app_inv in Hh as (sb & Hb & Hc).
  apply (history_snoc_inv _ _ []) in Hb as (sa' & Hnil & Hrun).
  inversion Hnil as [Heq | |]; [subst sa' | by destruct tr | by destruct tr].
  cbn [ev_outcome ev_thread ev_call ReusableConnectionPool_method] in Hrun.
  pose proof (Reusable_history_inv _ _ _ _ _ Ha) as Hinva.
  pose proof (Reusable_step_inv _ _ th Close _ _ Hinva Hrun) as Hinvb.
  assert (q_items (ReusableConnectionPool._available_connections (self sb)) = []
          ∧ ReusableConnectionPool._all_connections (self sb) = ∅) as [Hqb Hallb].
  { destruct Hinva as (Hi & Hl & Hr).
    rewrite Reusable_close_run in Hrun by (by eapply Reusable_inv_no_None).
    rewrite Hl in Hrun. by simplify_eq. }
  destruct (Reusable_closed_kept _ _ _ _ Hc Hinvb Hqb Hallb) as (He & Hinv & Hq & Hall).
  split; [done |]. split; [done |]. split; [done |]. split.
  - intros th'. rewrite Reusable_connect_run, Hq.
    by destruct (ReusableConnectionPool._initialized (self s)).
  - intros th' conn. rewrite Reusable_return_to_pool_run, Hall.
    destruct conn as [| h]; [done |]. cbn. by rewrite bool_decide_eq_false_2.
Qed.

(** ** The order of the queue *)

Lemma Reusable_connect_each (ths : list nat) (s : ReusableConnectionPool.St) :
  ReusableConnectionPool._initialized (self s) = true →
  VNone ∉ q_items (ReusableConnectionPool._available_connections (self s)) →
  if decide (length ths ≤ length (q_items (ReusableConnectionPool._available_connections
                                              (self s))))%nat
  then
    ∃ s',
      run_each ths ReusableConnectionPool.connect s
      = Ok (take (length ths)
                 (q_items (ReusableConnectionPool._available_connections (self s)))) s'
      ∧ q_items (ReusableConnectionPool._available_connections (self s'))
        = drop (length ths)
               (q_items (ReusableConnectionPool._available_connections (self s)))
      ∧ heap s' = heap s
      ∧ ReusableConnectionPool._all_connections (self s')
        = ReusableConnectionPool._all_connections (self s)
  else run_each ths ReusableConnectionPool.connect s = Block.
Proof.
  revert s. induction ths as [| th ths IH]; intros s Hi Hn.
  - cbn. rewrite decide_True by lia. by exists s.
  - cbn [run_each length]. rewrite Reusable_connect_run, Hi.
    destruct (q_items (ReusableConnectionPool._available_connections (self s)))
      as [| w rest] eqn:Hitems.
    { cbn. by rewrite decide_False by lia. }
    destruct w as [| h]; [exfalso; apply Hn, list_elem_of_here |].
    match goal with
    | |- context [run_each ths _ ?st] => specialize (IH st Hi)
    end.
    cbn [self with_self ReusableConnectionPool.set_available_connections
         ReusableConnectionPool._available_connections q_items heap
         ReusableConnectionPool._all_connections] in IH.
    specialize (IH ltac:(intros Hin; apply Hn; by apply list_elem_of_further)).
    cbn [length]. destruct (decide (length ths ≤ length rest)%nat) as [Hle | Hgt].
    + rewrite decide_True by lia. destruct IH as (s' & -> & Hq & Hh & Ha).
      exists s'. by rewrite Hq.
    + rewrite decide_False by lia. by rewrite IH.
Qed.

(** X8: in every state between the calls of a [ReusableConnectionPool],
    [connect()] calls are served in the order of the queue: as many calls as
    the queue has handles return its handles, oldest first, and leave the
    rest in the queue; one call more, and the calls do not all return: the
    call that finds the queue empty waits. *)
Theorem ReusableConnectionPool_connect_in_queue_order db uri (K : Z) s0 tr s ths :
  ReusableConnectionPool_new db uri K = Ok VNone s0 →
  history ReusableConnectionPool_method s0 tr s →
  if decide (length ths ≤ length (q_items (ReusableConnectionPool._available_connections
                                              (self s))))%nat
  then
    ∃ s',
      run_each ths ReusableConnectionPool.connect s
      = Ok (take (length ths)
                 (q_items (ReusableConnectionPool._available_connections (self s)))) s'
      ∧ q_items (ReusableConnectionPool._available_connections (self s'))
        = drop (length ths)
               (q_items (ReusableConnectionPool._available_connections (self s)))
      ∧ heap s' = heap s
      ∧ ReusableConnectionPool._all_connections (self s')
        = ReusableConnectionPool._all_connections (self s)
  else run_each ths ReusableConnectionPool.connect s = Block.
Proof.
  intros Hnew Hh. rewrite Reusable_init_run in Hnew. simplify_eq.
  pose proof (Reusable_history_inv _ _ _ _ _ Hh) as (Hinv & _).
  apply Reusable_connect_each; [by destruct Hinv | by eapply Reusable_inv_no_None].
Qed.

(** ** Growth of a [PerThreadPool] *)

Lemma PerThreadPool_registry_is_cache db uri tr s :
  history PerThreadPool_method (PerThreadPool.__init__ db uri) tr s →
  PerThreadPool._lock (self s) = false ∧ registry_is_cache s.
Proof.
  apply (history_inv PerThreadPool_method
           (fun s => PerThreadPool._lock (self s) = false ∧ registry_is_cache s)).
  - split; [done |]. intros c. cbn. split; [set_solver |].
    intros [th Hth]. by rewrite cached_empty in Hth.
  - intros s1 th c v s' [Hl Hrc] Hrun.
    destruct c as [| conn |]; cbn [PerThreadPool_method] in Hrun.
    + rewrite PerThreadPool_connect_run, Hl in Hrun.
      destruct (cached th (PerThreadPool._connection (self s1))) as [c |] eqn:Hc;
        simplify_eq; [done |].
      split; [done |]. intros c. cbn [self PerThreadPool._connections
        PerThreadPool._connection]. rewrite elem_of_union, elem_of_singleton, (Hrc c).
      split.
      * intros [-> | [th' Hth']].
        -- exists th. apply cached_insert_eq.
        -- exists th'. rewrite cached_insert_ne; [done |]. intros ->. congruence.
      * intros [th' Hth']. destruct (decide (th = th')) as [<- | Hne].
        -- rewrite cached_insert_eq in Hth'. left. by simplify_eq.
        -- rewrite cached_insert_ne in Hth' by done. right. by exists th'.
    + cbn in Hrun. by simplify_eq.
    + rewrite PerThreadPool_close_run, Hl in Hrun. simplify_eq.
      split; [done |]. intros c. cbn. split; [set_solver |].
      intros [th' Hth']. by rewrite cached_empty in Hth'.
  - intros s1 th c e s' [Hl _] Hrun. by apply PerThreadPool_no_raise in Hrun.
Qed.

(** X9: in every state between the calls of a [PerThreadPool],
    [connect()] returns without waiting, whichever thread calls; the
    registry holds exactly the handles cached for the threads; and the
    [connect()] of a thread without a handle adds exactly one connection to
    the heap and to the registry, whatever their size: the pool has no
    bound. *)
Theorem PerThreadPool_grows_by_thread db uri tr s th :
  history PerThreadPool_method (PerThreadPool.__init__ db uri) tr s →
  registry_is_cache s
  ∧ ∃ v s',
      run (PerThreadPool.connect th) s = Ok v s'
      ∧ match cached th (PerThreadPool._connection (self s)) with
        | Some c => v = VConn c ∧ s' = s
        | None =>
            length (heap s') = S (length (heap s))
            ∧ size (PerThreadPool._connections (self s'))
              = S (size (PerThreadPool._connections (self s)))
        end.
Proof.
  intros Hh.
  pose proof (PerThreadPool_registry_is_cache _ _ _ _ Hh) as [Hl Hrc].
  pose proof (PerThreadPool_registry_exact _ _ _ _ Hh) as [_ [Hreg _]].
  split; [done |]. rewrite PerThreadPool_connect_run, Hl.
  destruct (cached th (PerThreadPool._connection (self s))) as [c |]; [by eexists _, _ |].
  eexists _, _. split; [done |]. cbn [heap self PerThreadPool._connections]. split.
  - rewrite length_app. cbn. lia.
  - rewrite size_union.
    + rewrite size_singleton. lia.
    + intros c Hc1 Hc2. apply elem_of_singleton in Hc1. subst c.
      apply Hreg in Hc2 as (n & Hn & _). apply lookup_lt_Some in Hn. lia.
Qed.

(** ** What [connect()] of a [ReusableConnectionPool] returns *)

(** X10: in every interleaving of the calls of a [ReusableConnectionPool]
    of capacity [K], whatever [connect()] returns is one of the [K]
    connections the constructor opened: never [None] and never a connection
    opened later. *)
Theorem ReusableConnectionPool_connect_returns_prefilled db uri (K : Z) s0 tr cfg th v :
  ReusableConnectionPool_new db uri K = Ok VNone s0 →
  exec ReusableConnectionPool_method s0 tr cfg →
  Finish th Connect (Returned v) ∈ tr →
  ∃ h, v = VConn h ∧ h < Z.to_nat K ∧ h < length (heap (shared cfg)).
Proof.
  intros Hnew Hexec Hin. rewrite Reusable_init_run in Hnew. simplify_eq.
  pose proof (Reusable_exec_inv _ _ _ _ (Reusable_inv_ready db uri K) Hexec)
    as ((_ & Hlen & _) & _ & _).
  rewrite Hlen. clear Hlen.
  induction Hexec as [| tr cfg l cfg' Hexec IH Hstep]; [by apply elem_of_nil in Hin |].
  apply elem_of_app in Hin as [Hin | Hin]; [by apply IH |].
  apply list_elem_of_singleton in Hin. subst l.
  pose proof (Reusable_exec_inv _ _ _ _ (Reusable_inv_ready db uri K) Hexec)
    as (_ & Hrun & _).
  inversion Hstep as [| | | cfg0 th0 c0 v0 Hr]; subst.
  destruct (Hrun _ _ _ Hr) as (h & -> & Hlt). by exists h.
Qed.

(** ** The commands of the command line *)

Lemma logo_length : String.length cli._logo = 876.
Proof. vm_compute. reflexivity. Qed.

(** X11: what [vacuum] does is fixed by whether the path exists and by the
    consent, which is [force] or else the answer of the user: with the path
    missing it leaves with code 1; with the path there and no consent it
    leaves with code 0; with the path there and consent it returns, after
    exactly one vacuum, of the database at [path] with [is_persistent] set.
    In the first two cases nothing is vacuumed. The user is asked exactly
    once when the path exists and [force] is not given, and not at all
    otherwise; the environment is untouched. *)
Theorem vacuum_only_with_consent (w : cli.world) path force :
  let consent := force || cli.answer w cli.vacuum_question in
  let r := cli.vacuum path force w in
  ∃ new,
    cli.events r.2 = cli.events w ++ new
    ∧ cli.environ r.2 = cli.environ w
    ∧ r.1 = (if cli.path_exists w path
             then if consent then cli.Value tt else cli.Exit 0
             else cli.Exit 1)
    ∧ vacuums new = (if cli.path_exists w path && consent then [(true, path)] else [])
    ∧ questions new = (if cli.path_exists w path && negb force
                       then [cli.vacuum_question] else []).
Proof.
  unfold cli.vacuum, cli.os_path_exists, cli.typer_confirm, cli.typer_Exit, cli.emit.
  unfold mbind, mret, cli.command_bind, cli.command_ret.
  cbn [fst snd cli.events cli.environ cli.path_exists cli.answer].
  destruct (cli.path_exists w path) eqn:Hex; [destruct force |];
    [| destruct (cli.answer w cli.vacuum_question) eqn:Hans |];
    cbn [negb orb andb fst snd cli.events cli.environ cli.path_exists cli.answer];
    rewrite ?Hans;
    cbn [negb orb andb fst snd cli.events cli.environ cli.path_exists cli.answer];
    eexists; rewrite <- ?app_assoc; (split; [reflexivity |]); repeat split.
Qed.

Lemma run_result (set_log_file_path : string → string → string) (chromadb_path : string)
    (w : cli.world) path host log_path port test :
  cli.run set_log_file_path chromadb_path path host log_path port test w =
  (cli.Value tt,
   {| cli.path_exists := cli.path_exists w;
      cli.answer := cli.answer w;
      cli.environ :=
        <["CHROMA_CLI" := "True"]>
          (<["CHROMA_SERVER_NOFILE" := "65535"]>
             (<["PERSIST_DIRECTORY" := path]>
                (<["IS_PERSISTENT" := "True"]> (cli.environ w))));
      cli.events :=
        cli.events w ++ run_banner path host port
          ++ (if test then []
              else [cli.ServerStarted
                      {| cli.app := "chromadb.app:app";
                         cli.host := host;
                         cli.port := port;
                         cli.workers := 1;
                         cli.log_config :=
                           set_log_file_path (chromadb_path +:+ "/log_config.yml")
                                             (cli.str_of_optional log_path);
                         cli.timeout_keep_alive := 30 |}]) |}).
Proof.
  destruct w as [pe an env evs].
  destruct test;
    cbv [cli.run cli.emit cli.setenv mbind mret cli.command_bind cli.command_ret
         cli.events cli.environ cli.path_exists cli.answer run_banner];
    rewrite <- ?app_assoc; reflexivity.
Qed.

(** X12: [run] always returns; it sets the four environment variables
    [IS_PERSISTENT], [PERSIST_DIRECTORY] (to [path]), [CHROMA_SERVER_NOFILE]
    and [CHROMA_CLI] and leaves every other variable as it was; in test mode
    it starts no server; otherwise the server is started once, as the last
    thing, with the host and port given, one worker and a keep-alive of 30. *)
Theorem run_sets_environment_and_starts_server
    (set_log_file_path : string → string → string) (chromadb_path : string)
    (w : cli.world) path host log_path port test :
  let r := cli.run set_log_file_path chromadb_path path host log_path port test w in
  r.1 = cli.Value tt
  ∧ cli.environ r.2 !! "IS_PERSISTENT" = Some "True"
  ∧ cli.environ r.2 !! "PERSIST_DIRECTORY" = Some path
  ∧ cli.environ r.2 !! "CHROMA_SERVER_NOFILE" = Some "65535"
  ∧ cli.environ r.2 !! "CHROMA_CLI" = Some "True"
  ∧ (∀ k, k ≠ "IS_PERSISTENT" → k ≠ "PERSIST_DIRECTORY" →
          k ≠ "CHROMA_SERVER_NOFILE" → k ≠ "CHROMA_CLI" →
          cli.environ r.2 !! k = cli.environ w !! k)
  ∧ (∀ c, cli.ServerStarted c ∉ run_banner path host port)
  ∧ cli.events r.2
    = cli.events w ++ run_banner path host port
          ++ (if test then []
              else [cli.ServerStarted
                      {| cli.app := "chromadb.app:app";
                         cli.host := host;
                         cli.port := port;
                         cli.workers := 1;
                         cli.log_config :=
                           set_log_file_path (chromadb_path +:+ "/log_config.yml")
                                             (cli.str_of_optional log_path);
                         cli.timeout_keep_alive := 30 |}]).
Proof.
  intros r. subst r. rewrite run_result. cbn [fst snd cli.environ cli.events].
  assert ("IS_PERSISTENT" ≠ "PERSIST_DIRECTORY") as H12 by discriminate.
  assert ("IS_PERSISTENT" ≠ "CHROMA_SERVER_NOFILE") as H13 by discriminate.
  assert ("IS_PERSISTENT" ≠ "CHROMA_CLI") as H14 by discriminate.
  assert ("PERSIST_DIRECTORY" ≠ "CHROMA_SERVER_NOFILE") as H23 by discriminate.
  assert ("PERSIST_DIRECTORY" ≠ "CHROMA_CLI") as H24 by discriminate.
  assert ("CHROMA_SERVER_NOFILE" ≠ "CHROMA_CLI") as H34 by discriminate.
  split; [reflexivity |].
  split; [rewrite !lookup_insert_ne by congruence; apply lookup_insert_eq |].
  split; [rewrite !lookup_insert_ne by congruence; apply lookup_insert_eq |].
  split; [rewrite !lookup_insert_ne by congruence; apply lookup_insert_eq |].
  split; [apply lookup_insert_eq |].
  split; [intros k ? ? ? ?; rewrite !lookup_insert_ne by congruence; reflexivity |].
  split; [| reflexivity].
  intros c Hin. unfold run_banner in Hin.
  repeat (apply elem_of_cons in Hin as [Hin | Hin]; [discriminate Hin |]).
  by apply elem_of_nil in Hin.
Qed.

(** ** Interleavings that run a call to its end *)

Lemma exec_app {St} (method : tid → call → prog St value) s0 tr cfg l cfg' :
  exec method s0 tr cfg → step method cfg l cfg' → exec method s0 (tr ++ [l]) cfg'.
Proof. intros. by eapply exec_step. Qed.

Lemma exec_run_thread {St} (method : tid → call → prog St value) s0 th c
    (p : prog St value) v s' :
  ∀ tr cfg,
    exec method s0 tr cfg →
    running cfg th = Some (c, p) →
    run p (shared cfg) = Ok v s' →
    ∃ tr' cfg',
      exec method s0 (tr ++ tr' ++ [Finish th c (Returned v)]) cfg'
      ∧ shared cfg' = s'
      ∧ running cfg' th = None
      ∧ (∀ th', th' ≠ th → running cfg' th' = running cfg th')
      ∧ (∀ l, l ∈ tr' → l = Tau th).
Proof.
  induction p as [a | B m k IH]; intros tr cfg Hexec Hrun Hres.
  - cbn in Hres. simplify_eq. exists [].
    eexists. split; [| split; [| split; [| split]]].
    + cbn. eapply exec_step; [done |]. by apply step_return.
    + done.
    + cbn. apply fn_lookup_insert.
    + intros th' Hne. cbn. by rewrite fn_lookup_insert_ne.
    + intros l Hl. by apply elem_of_nil in Hl.
  - cbn in Hres. destruct (m (shared cfg)) as [b s1 | e s1 |] eqn:Hm; [| done..].
    assert (step method cfg (Tau th)
              (Config s1 (<[th := Some (c, k b)]> (running cfg)))) as Hstep.
    { eapply step_act; [done |]. cbn. by rewrite Hm. }
    destruct (IH b (tr ++ [Tau th]) _ (exec_app _ _ _ _ _ _ Hexec Hstep))
      as (tr' & cfg' & Hexec' & Hs' & Hidle & Hothers & Htau).
    { cbn. apply fn_lookup_insert. }
    { done. }
    exists (Tau th :: tr'), cfg'. split; [| split; [done |]; split; [done |]; split].
    + by rewrite <- app_assoc in Hexec'.
    + intros th' Hne. rewrite Hothers by done. cbn. by rewrite fn_lookup_insert_ne.
    + intros l [-> | Hl]%elem_of_cons; [done | by apply Htau].
Qed.

Lemma exec_call {St} (method : tid → call → prog St value) s0 th c v s' tr cfg :
  exec method s0 tr cfg →
  running cfg th = None →
  run (method th c) (shared cfg) = Ok v s' →
  ∃ tr' cfg',
    exec method s0 (tr ++ [Invoke th c] ++ tr' ++ [Finish th c (Returned v)]) cfg'
    ∧ shared cfg' = s'
    ∧ running cfg' th = None
    ∧ (∀ th', th' ≠ th → running cfg' th' = running cfg th').
Proof.
  intros Hexec Hidle Hrun.
  assert (step method cfg (Invoke th c)
            (Config (shared cfg) (<[th := Some (c, method th c)]> (running cfg)))) as Hstep.
  { by apply step_invoke. }
  destruct (exec_run_thread method s0 th c (method th c) v s' (tr ++ [Invoke th c]) _
              (exec_app _ _ _ _ _ _ Hexec Hstep))
    as (tr' & cfg' & Hexec' & Hs' & Hidle' & Hothers & _).
  { cbn. apply fn_lookup_insert. }
  { done. }
  exists tr', cfg'. split; [| split; [done |]; split; [done |]].
  - by rewrite <- app_assoc in Hexec'.
  - intros th' Hne. rewrite Hothers by done. cbn. by rewrite fn_lookup_insert_ne.
Qed.

(** ** [close()] racing [return_to_pool()] *)

Lemma ready_connect db uri (K : Z) th :
  (0 < K)%Z →
  ∃ s1,
    run (ReusableConnectionPool.connect th) (ready db uri K) = Ok (VConn 0) s1
    ∧ Reusable_quiet_inv (Z.to_nat K) s1
    ∧ 0 ∈ ReusableConnectionPool._all_connections (self s1)
    ∧ q_maxsize (ReusableConnectionPool._available_connections (self s1)) = K.
Proof.
  intros HK.
  assert (∃ s1, run (ReusableConnectionPool.connect th) (ready db uri K) = Ok (VConn 0) s1
                ∧ ReusableConnectionPool._all_connections (self s1)
                  = list_to_set (seq 0 (Z.to_nat K))
                ∧ q_maxsize (ReusableConnectionPool._available_connections (self s1)) = K)
    as (s1 & Hrun & Hall & Hm).
  { rewrite Reusable_connect_run.
    assert (q_items (ReusableConnectionPool._available_connections (self (ready db uri K)))
            = VConn 0 :: (VConn <$> seq 1 (Z.to_nat K - 1))) as Hitems.
    { cbn -[seq]. destruct (Z.to_nat K) as [| n] eqn:Hn; [lia |].
      cbn. by rewrite Nat.sub_0_r. }
    rewrite Hitems.
    change (ReusableConnectionPool._initialized (self (ready db uri K))) with true.
    cbv iota. by eexists. }
  exists s1. split; [done |].
  split; [eapply (Reusable_step_inv _ _ th Connect); [apply Reusable_quiet_inv_ready | done] |].
  split; [| done]. rewrite Hall. apply elem_of_list_to_set, elem_of_seq. lia.
Qed.

(** X13: [close()] is not synchronised with [return_to_pool()]: for every
    capacity [K > 0] there is an interleaving in which a [return_to_pool()]
    that has passed its registry check puts its handle into the queue after
    a [close()] has emptied the pool, and a [connect()] called after that
    [close()] had returned is handed this handle: a connection that is
    closed. *)
Theorem ReusableConnectionPool_close_race db uri (K : Z) s0 :
  (0 < K)%Z →
  ReusableConnectionPool_new db uri K = Ok VNone s0 →
  ∃ tr1 tr2 tr3 cfg n,
    exec ReusableConnectionPool_method s0
         (tr1 ++ [Finish 1 Close (Returned VNone)] ++ tr2
              ++ [Invoke 2 Connect] ++ tr3 ++ [Finish 2 Connect (Returned (VConn 0))]) cfg
    ∧ (∀ th, running cfg th = None)
    ∧ heap (shared cfg) !! 0 = Some n
    ∧ conn_closed n = true.
Proof.
  intros HK Hnew. rewrite Reusable_init_run in Hnew. simplify_eq.
  destruct (ready_connect db uri K 0 HK) as (s1 & Hrun1 & Hinv1 & Hin1 & Hm1).
  (* thread 0 takes handle 0 *)
  destruct (exec_call ReusableConnectionPool_method (ready db uri K) 0 Connect _ _ [] _
              (exec_nil _ _) eq_refl Hrun1)
    as (ta & cfg1 & Hexec1 & Hs1 & Hidle1 & Hoth1).
  cbn [running] in Hoth1.
  (* thread 0 enters return_to_pool and passes the registry check *)
  set (p' := atom (ReusableConnectionPool.queue_put (VConn 0)) ≫= (fun _ => Ret VNone)
             : prog ReusableConnectionPool.St value).
  assert (pstep (ReusableConnectionPool.return_to_pool 0 (VConn 0)) s1 = Some (Ok p' s1))
    as Hcheck.
  { unfold ReusableConnectionPool.return_to_pool.
    cbn [pstep mbind prog_bind p_bind atom value_in].
    by rewrite bool_decide_eq_true_2. }
  pose (cfg2 := Config s1 (<[0 := Some (ReturnToPool (VConn 0), p')]>
                             (<[0 := Some (ReturnToPool (VConn 0),
                                           ReusableConnectionPool_method 0
                                             (ReturnToPool (VConn 0)))]>
                                (running cfg1)))).
  assert (exec ReusableConnectionPool_method (ready db uri K)
               ((([] ++ [Invoke 0 Connect] ++ ta ++ [Finish 0 Connect (Returned (VConn 0))])
                   ++ [Invoke 0 (ReturnToPool (VConn 0))]) ++ [Tau 0]) cfg2) as Hexec2.
  { eapply exec_step.
    - eapply exec_step; [exact Hexec1 |]. by apply step_invoke.
    - unfold cfg2.
      refine (step_act ReusableConnectionPool_method
                (Config (shared cfg1)
                        (<[0 := Some (ReturnToPool (VConn 0),
                                      ReusableConnectionPool_method 0
                                        (ReturnToPool (VConn 0)))]> (running cfg1)))
                0 (ReturnToPool (VConn 0))
                (ReusableConnectionPool_method 0 (ReturnToPool (VConn 0))) p' s1 _ _).
      + cbn [running]. apply fn_lookup_insert.
      + cbn [shared]. rewrite Hs1. exact Hcheck. }
  assert (running cfg2 0 = Some (ReturnToPool (VConn 0), p')) as Hrun0.
  { cbn. apply fn_lookup_insert. }
  assert (∀ th, th ≠ 0 → running cfg2 th = None) as Hoth2.
  { intros th Hne. cbn. rewrite !fn_lookup_insert_ne by done. by apply Hoth1. }
  (* thread 1 closes the pool *)
  destruct (Reusable_close_closes _ 1 s1 Hinv1) as (s3 & Hrun3 & Hclosed3 & Hall3 & Hinv3).
  assert (q_items (ReusableConnectionPool._available_connections (self s3)) = []
          ∧ q_maxsize (ReusableConnectionPool._available_connections (self s3)) = K
          ∧ length (heap s3) = Z.to_nat K) as (Hq3 & Hm3 & Hlen3).
  { destruct Hinv1 as (Hi & Hl & _).
    rewrite Reusable_close_run in Hrun3 by (by eapply Reusable_inv_no_None).
    rewrite Hl in Hrun3. simplify_eq. split; [done |]. split; [done |].
    cbn. rewrite !close_all_length. by destruct Hi as (_ & ? & _). }
  destruct (exec_call ReusableConnectionPool_method (ready db uri K) 1 Close _ _ _ cfg2
              Hexec2 (Hoth2 1 ltac:(done)) Hrun3)
    as (tb & cfg3 & Hexec3 & Hs3 & Hidle3 & Hoth3).
  (* thread 0 puts its handle *)
  assert (run p' (shared cfg3)
          = Ok VNone (with_self (ReusableConnectionPool.set_available_connections
                                   {| q_items := [VConn 0]; q_maxsize := K |}) s3)) as Hrun4.
  { rewrite Hs3. unfold p'. rewrite run_atom_bind.
    unfold ReusableConnectionPool.queue_put. rewrite q_put_room by (rewrite Hq3, Hm3; cbn; lia).
    by rewrite Hq3, Hm3. }
  destruct (exec_run_thread ReusableConnectionPool_method (ready db uri K) 0
              (ReturnToPool (VConn 0)) p' _ _ _ cfg3 Hexec3
              ltac:(rewrite Hoth3 by done; exact Hrun0) Hrun4)
    as (tc & cfg4 & Hexec4 & Hs4 & Hidle4 & Hoth4 & _).
  (* thread 2 connects *)
  assert (run (ReusableConnectionPool.connect 2) (shared cfg4)
          = Ok (VConn 0) (with_self (ReusableConnectionPool.set_available_connections
                                       {| q_items := []; q_maxsize := K |}) s3)) as Hrun5.
  { rewrite Hs4, Reusable_connect_run. cbn.
    destruct Hinv3 as ((Hi & _) & _). by rewrite Hi. }
  destruct (exec_call ReusableConnectionPool_method (ready db uri K) 2 Connect _ _ _ cfg4
              Hexec4 ltac:(rewrite Hoth4, Hoth3 by done; by apply Hoth2) Hrun5)
    as (td & cfg5 & Hexec5 & Hs5 & Hidle5 & Hoth5).
  destruct (lookup_lt_is_Some_2 (heap s3) 0 ltac:(lia)) as [n Hn].
  exists ([Invoke 0 Connect] ++ ta ++ [Finish 0 Connect (Returned (VConn 0))]
            ++ [Invoke 0 (ReturnToPool (VConn 0))] ++ [Tau 0] ++ [Invoke 1 Close] ++ tb),
         (tc ++ [Finish 0 (ReturnToPool (VConn 0)) (Returned VNone)]), td, cfg5, n.
  split; [| split; [| split]].
  - rewrite app_nil_l in Hexec5. rewrite <- !app_assoc in Hexec5.
    rewrite <- !app_assoc. exact Hexec5.
  - intros th. destruct (decide (th = 2)) as [-> | Hne2]; [done |].
    rewrite Hoth5 by done.
    destruct (decide (th = 0)) as [-> | Hne0]; [done |].
    rewrite Hoth4 by done.
    destruct (decide (th = 1)) as [-> | Hne1]; [done |].
    rewrite Hoth3 by done. by apply Hoth2.
  - by rewrite Hs5.
  - by apply (Hclosed3 0 n).
Qed.

(** ** The further properties at work *)

Lemma LockPool_handover_history :
  ∃ s, history LockPool_method (LockPool.__init__ "db" false)
               ([] ++ [Event 0 Connect (Returned (VConn 0))]
                   ++ [Event 0 (ReturnToPool (VConn 0)) (Returned VNone)]
                   ++ [Event 1 Connect (Returned (VConn 1))]) s.
Proof.
  eexists.
  change ([] ++ [Event 0 Connect (Returned (VConn 0))]
             ++ [Event 0 (ReturnToPool (VConn 0)) (Returned VNone)]
             ++ [Event 1 Connect (Returned (VConn 1))])
    with ((([] ++ [Event 0 Connect (Returned (VConn 0))])
             ++ [Event 0 (ReturnToPool (VConn 0)) (Returned VNone)])
            ++ [Event 1 Connect (Returned (VConn 1))]).
  eapply history_return; [eapply history_return; [eapply history_return; [constructor |] |] |].
  - vm_compute. reflexivity.
  - vm_compute. reflexivity.
  - vm_compute. reflexivity.
Qed.

Lemma Reusable_closed_history :
  ∃ s, history ReusableConnectionPool_method (ready "db" false 2)
               ([] ++ [Event 0 Close (Returned VNone)] ++ []) s.
Proof.
  eexists.
  eapply (history_return ReusableConnectionPool_method _ [] (ready "db" false 2) 0 Close);
    [constructor |].
  vm_compute. reflexivity.
Qed.

(** Witness of X1: two nested [connect()] of thread 0 and one
    [return_to_pool()]. *)
Lemma LockPool_nested_connect_balance_witness :
  ∃ vs s1 s2,
    run_each (replicate 2 0) LockPool.connect (LockPool.__init__ "db" false) = Ok vs s1
    ∧ length vs = 2
    ∧ held 0 (LockPool._lock (self s1)) = 2
    ∧ run_each (replicate 1 0) (fun t => LockPool.return_to_pool t VNone) s1
      = Ok (replicate 1 VNone) s2
    ∧ held 0 (LockPool._lock (self s2)) = 2 - 1
    ∧ (1 < 2 → ∀ th', th' ≠ 0 → run (LockPool.connect th') s2 = Block)
    ∧ (1 = 2 → LockPool._lock (self s2) = None).
Proof.
  apply (LockPool_nested_connect_balance 0 2 1 VNone (LockPool.__init__ "db" false)).
  - reflexivity.
  - lia.
Defined.

(** Witness of X2: thread 0 connects and releases, then thread 1 connects. *)
Lemma LockPool_mutual_exclusion_witness :
  ∃ e, e ∈ [Event 0 (ReturnToPool (VConn 0)) (Returned VNone)]
       ∧ ev_thread e = 0 ∧ ev_call e ≠ Connect.
Proof.
  destruct LockPool_handover_history as [s Hh].
  apply (LockPool_mutual_exclusion "db" false [] _ 0 1 (VConn 0) (VConn 1) s Hh).
  lia.
Defined.

(** Witness of X3: [close()] of a thread that is inside two nested
    [connect()]. *)
Lemma LockPool_close_releases_one_unit_witness :
  ∃ s1,
    run (LockPool.close 0)
        (with_self (LockPool.set_lock (Some (0, 2%positive))) LockPool_connected)
    = Ok VNone s1
    ∧ ∀ th', th' ≠ 0 → run (LockPool.connect th') s1 = Block.
Proof.
  destruct (LockPool_close_releases_one_unit
              0 VNone (with_self (LockPool.set_lock (Some (0, 2%positive))) LockPool_connected))
    as (s1 & s2 & Hclose & _ & _ & _ & _ & Hblock).
  exists s1. split; [exact Hclose |].
  apply Hblock. vm_compute. lia.
Defined.

(** Witness of X4: a second [connect()] of thread 0 on the [LockPool], and a
    [connect()] of thread 1 on the [PerThreadPool], after their first calls. *)
Lemma connect_returns_open_connection_witness :
  (∃ c n, VConn 0 = VConn c
          ∧ heap (with_self (LockPool.set_lock (Some (0, 2%positive))) LockPool_connected)
              !! c = Some n
          ∧ conn_closed n = false)
  ∧ (∃ c n, VConn 1 = VConn c
            ∧ heap PerThreadPool_connected !! c = Some n
            ∧ conn_closed n = false).
Proof.
  destruct connect_returns_open_connection as [HL HP].
  split.
  - apply (proj2 (HL "db" false _ _ LockPool_example_history) 0).
    vm_compute. reflexivity.
  - apply (proj2 (HP "db" false _ _ PerThreadPool_example_history_runs) 1).
    vm_compute. reflexivity.
Defined.

(** Witness of X5: the interleaving [Reusable_example_trace] of a pool of
    capacity 2. *)
Lemma ReusableConnectionPool_queue_bounded_witness :
  ∃ cfg,
    exec ReusableConnectionPool_method (ready "db" false 2) Reusable_example_trace cfg
    ∧ q_maxsize (ReusableConnectionPool._available_connections (self (shared cfg))) = 2%Z
    ∧ (Z.of_nat (length (q_items (ReusableConnectionPool._available_connections
                                    (self (shared cfg))))) ≤ 2)%Z.
Proof.
  destruct Reusable_example_exec as [cfg Hexec]. exists cfg. split; [exact Hexec |].
  apply (ReusableConnectionPool_queue_bounded
           "db" false 2 (ready "db" false 2) Reusable_example_trace cfg).
  - lia.
  - apply Reusable_init_run.
  - exact Hexec.
Defined.

(** Witness of X6: the first [connect()] on a new pool of capacity 2, and
    the return of its handle by another thread. *)
Lemma Reusable_connect_return_round_trip_witness :
  ∃ h rest s2,
    VConn 0 = VConn h
    ∧ q_items (ReusableConnectionPool._available_connections (self (ready "db" false 2)))
      = VConn h :: rest
    ∧ q_items (ReusableConnectionPool._available_connections (self Reusable_one_out)) = rest
    ∧ run (ReusableConnectionPool.return_to_pool 1 (VConn 0)) Reusable_one_out = Ok VNone s2
    ∧ q_items (ReusableConnectionPool._available_connections (self s2)) = rest ++ [VConn h]
    ∧ heap s2 = heap (ready "db" false 2)
    ∧ ReusableConnectionPool._all_connections (self s2)
      = ReusableConnectionPool._all_connections (self (ready "db" false 2)).
Proof.
  apply (Reusable_connect_return_round_trip
           "db" false 2 (ready "db" false 2) [] (ready "db" false 2) 0 1 (VConn 0)
           Reusable_one_out).
  - lia.
  - apply Reusable_init_run.
  - constructor.
  - vm_compute. reflexivity.
Defined.

(** Witness of X7: a new pool of capacity 2 that was closed at once. *)
Lemma ReusableConnectionPool_closed_for_good_witness :
  ∃ s,
    history ReusableConnectionPool_method (ready "db" false 2)
            ([] ++ [Event 0 Close (Returned VNone)] ++ []) s
    ∧ q_items (ReusableConnectionPool._available_connections (self s)) = []
    ∧ (∀ th', run (ReusableConnectionPool.connect th') s = Block).
Proof.
  destruct Reusable_closed_history as [s Hh]. exists s. split; [exact Hh |].
  destruct (ReusableConnectionPool_closed_for_good
              "db" false 2 (ready "db" false 2) [] 0 VNone [] s
              (Reusable_init_run "db" false 2) Hh)
    as (_ & Hq & _ & Hblock & _).
  split; [exact Hq | exact Hblock].
Defined.

(** Witness of X8: two [connect()] on a new pool of capacity 2 take both
    handles, in the order of the queue. *)
Lemma ReusableConnectionPool_connect_in_queue_order_witness :
  ∃ s',
    run_each [5; 7] ReusableConnectionPool.connect (ready "db" false 2)
    = Ok [VConn 0; VConn 1] s'
    ∧ q_items (ReusableConnectionPool._available_connections (self s')) = []
    ∧ heap s' = heap (ready "db" false 2)
    ∧ ReusableConnectionPool._all_connections (self s')
      = ReusableConnectionPool._all_connections (self (ready "db" false 2)).
Proof.
  pose proof (ReusableConnectionPool_connect_in_queue_order
                "db" false 2 (ready "db" false 2) [] (ready "db" false 2) [5; 7]
                (Reusable_init_run "db" false 2) (history_nil _ _)) as H.
  rewrite decide_True in H by (vm_compute; lia).
  exact H.
Defined.

(** Witness of X9: a third thread connects to the [PerThreadPool] that two
    threads have connected to. *)
Lemma PerThreadPool_grows_by_thread_witness :
  registry_is_cache PerThreadPool_connected
  ∧ ∃ v s',
      run (PerThreadPool.connect 2) PerThreadPool_connected = Ok v s'
      ∧ length (heap s') = 3
      ∧ size (PerThreadPool._connections (self s')) = 3.
Proof.
  destruct (PerThreadPool_grows_by_thread "db" false _ _ 2 PerThreadPool_example_history_runs)
    as (Hreg & v & s' & Hrun & Hlen & Hsize).
  split; [exact Hreg |]. exists v, s'. split; [exact Hrun |].
  split; [exact Hlen |]. rewrite Hsize. vm_compute. reflexivity.
Defined.

(** Witness of X10: the handle returned in [Reusable_example_trace]. *)
Lemma ReusableConnectionPool_connect_returns_prefilled_witness :
  ∃ cfg h,
    exec ReusableConnectionPool_method (ready "db" false 2) Reusable_example_trace cfg
    ∧ VConn 0 = VConn h ∧ h < Z.to_nat 2 ∧ h < length (heap (shared cfg)).
Proof.
  destruct Reusable_example_exec as [cfg Hexec].
  destruct (ReusableConnectionPool_connect_returns_prefilled
              "db" false 2 (ready "db" false 2) Reusable_example_trace cfg 0 (VConn 0))
    as (h & Hv & Hlt & Hheap).
  - apply Reusable_init_run.
  - exact Hexec.
  - unfold Reusable_example_trace.
    do 3 apply list_elem_of_further. apply list_elem_of_here.
  - exists cfg, h. split; [exact Hexec |]. split; [exact Hv |]. split; [exact Hlt | exact Hheap].
Defined.

(** Witness of X11: the path exists and the user, asked, says yes. *)
Lemma vacuum_only_with_consent_witness :
  (cli.vacuum "chroma" false
              {| cli.events := []; cli.environ := ∅;
                 cli.path_exists := fun _ => true; cli.answer := fun _ => true |}).1
  = cli.Value tt
  ∧ vacuums (cli.events
               (cli.vacuum "chroma" false
                           {| cli.events := []; cli.environ := ∅;
                              cli.path_exists := fun _ => true;
                              cli.answer := fun _ => true |}).2)
    = [(true, "chroma")].
Proof.
  destruct (vacuum_only_with_consent
              {| cli.events := []; cli.environ := ∅;
                 cli.path_exists := fun _ => true; cli.answer := fun _ => true |}
              "chroma" false)
    as (new & Hev & _ & Hout & Hvac & _).
  split; [exact Hout |]. rewrite Hev. exact Hvac.
Defined.

(** Witness of X12: [run] leaves a variable of its caller, here [HOME], as
    it was. *)
Lemma run_sets_environment_and_starts_server_witness :
  cli.environ
    (cli.run (fun cfg _ => cfg) "/chromadb" "./chroma_data" (Some "localhost")
             (Some "chroma.log") 8000 true
             {| cli.events := []; cli.environ := {[ "HOME" := "/root" ]};
                cli.path_exists := fun _ => false; cli.answer := fun _ => false |}).2
    !! "HOME"
  = Some "/root".
Proof.
  destruct (run_sets_environment_and_starts_server
              (fun cfg _ => cfg) "/chromadb"
              {| cli.events := []; cli.environ := {[ "HOME" := "/root" ]};
                 cli.path_exists := fun _ => false; cli.answer := fun _ => false |}
              "./chroma_data" (Some "localhost") (Some "chroma.log") 8000 true)
    as (_ & _ & _ & _ & _ & Hother & _).
  rewrite Hother by discriminate. reflexivity.
Defined.

(** Witness of X13: the race on a pool of capacity 2. *)
Lemma ReusableConnectionPool_close_race_witness :
  ∃ tr1 tr2 tr3 cfg n,
    exec ReusableConnectionPool_method (ready "db" false 2)
         (tr1 ++ [Finish 1 Close (Returned VNone)] ++ tr2
              ++ [Invoke 2 Connect] ++ tr3 ++ [Finish 2 Connect (Returned (VConn 0))]) cfg
    ∧ (∀ th, running cfg th = None)
    ∧ heap (shared cfg) !! 0 = Some n
    ∧ conn_closed n = true.
Proof.
  apply (ReusableConnectionPool_close_race "db" false 2 (ready "db" false 2)).
  - lia.
  - apply Reusable_init_run.
Defined.
